(** * Verification of the focus-platform admin console (web-ele front end)

    A shallow embedding of the console's pure state manipulations:
    the role-permission panel (cascading menu selection and permission
    toggles), the scheduler-job form (interval unit conversion), the
    shared request client (re-authentication and error toasts), the menu
    tree editor (flattening, search fall-back, path validation), the typed
    API wrappers, and the user list's delete guard.

    JavaScript [Set<string>] values are finite sets of strings ([gset
    string]); only membership is observed by the code modelled here.
    JavaScript strings that the code only compares, such as ids and
    keys, are modelled by [string].  Where the code looks at a string's
    code units (the white space of the menu search keyword, the length of
    a menu path) the string is a list of UTF-16 code units.  The
    response interceptors of the request library, which are not among
    the sources, are modelled from what the client hands them. *)

From Stdlib Require Import ZArith Lia List Bool Ascii.
From stdpp Require Import base tactics option list strings gmap sets.

Local Open Scope string_scope.
Local Open Scope list_scope.
#[local] Set Warnings "-register-all".

(** JavaScript truthiness of a string: the empty string is falsy. *)
Definition truthy (s : string) : bool := negb (bool_decide (s = "")).

(** Truthiness of an optional string ([undefined], [null] or a string). *)
Definition truthy_opt (o : option string) : bool :=
  match o with
  | Some s => truthy s
  | None => false
  end.

(** [for (const x of l) { if (f x) return true; } return false], where
    each call also reports the values it pushed to an outer array. A call
    that does not find its target pushes nothing. *)
Definition for_of_until {A : Type} (f : A -> bool * list string) :
  list A -> bool * list string :=
  fix loop (l : list A) : bool * list string :=
    match l with
    | [] => (false, [])
    | x :: l' => if fst (f x) then f x else loop l'
    end.

(** ** Role-permission panel *)
Module RolePermission.

(** [MenuNode | PermissionNode]; the code tells them apart with
    ['code' in node].  [children] is an optional property. *)
Inductive Node : Type :=
| MenuNode (id : string) (children : option (list Node))
| PermissionNode (id : string) (code : string).

(** Component state touched by the functions below. *)
Record State : Type := mkState {
  treeData : list Node;
  selectedMenuIds : gset string;
  selectedPermissions : gset string;
  expandedMenuIds : gset string;
  selectedMenuId : option string
}.

(** [collectDescendants]: pushes every menu id below [nodes], preorder. *)
Fixpoint collectDescendants_node (n : Node) : list string :=
  match n with
  | MenuNode id ch =>
      id :: match ch with
            | None => []
            | Some l => flat_map collectDescendants_node l
            end
  | PermissionNode _ _ => []
  end.

Definition collectDescendants (nodes : option (list Node)) : list string :=
  match nodes with
  | None => []
  | Some l => flat_map collectDescendants_node l
  end.

(** [findAndCollect]: looks for the menu [menuId]; where it is found its
    descendants are collected, otherwise the search goes on below. *)
Fixpoint findAndCollect_node (menuId : string) (n : Node) : list string :=
  match n with
  | MenuNode id ch =>
      if decide (id = menuId) then collectDescendants ch
      else match ch with
           | None => []
           | Some l => flat_map (findAndCollect_node menuId) l
           end
  | PermissionNode _ _ => []
  end.

Definition findAndCollect (menuId : string) (nodes : option (list Node))
  : list string :=
  match nodes with
  | None => []
  | Some l => flat_map (findAndCollect_node menuId) l
  end.

Definition getDescendantMenuIds (tree : list Node) (menuId : string)
  : list string :=
  findAndCollect menuId (Some tree).

(** [findParent(nodes, targetId, parentId)].  The result is the returned
    boolean and the ids pushed to [ancestors] during the call.  [restart p]
    stands for the inner call [findParent(treeData.value, p)], whose
    boolean result the code ignores. *)
Fixpoint findParent_node (restart : string -> list string)
    (targetId : string) (parentId : option string) (n : Node)
  : bool * list string :=
  match n with
  | MenuNode id ch =>
      if decide (id = targetId) then
        (true,
         match parentId with
         | Some p => if truthy p then p :: restart p else []
         | None => []
         end)
      else
        match ch with
        | None => (false, [])
        | Some l =>
            for_of_until (findParent_node restart targetId (Some id)) l
        end
  | PermissionNode _ _ => (false, [])
  end.

Definition findParent (restart : string -> list string)
    (nodes : option (list Node)) (targetId : string)
    (parentId : option string) : bool * list string :=
  match nodes with
  | None => (false, [])
  | Some l => for_of_until (findParent_node restart targetId parentId) l
  end.

(** The restart from the root is not structural; [fuel] bounds the number
    of restarts.  Each restart looks for a menu listed earlier in preorder,
    so one unit per menu of the tree is enough: beyond that the result no
    longer depends on the fuel (lemma [getAncestorsFuel_stable] below). *)
Fixpoint getAncestorsFuel (tree : list Node) (fuel : nat) (menuId : string)
  : list string :=
  match fuel with
  | O => []
  | S fuel' =>
      snd (findParent (getAncestorsFuel tree fuel') (Some tree) menuId None)
  end.

Definition menuCount (tree : list Node) : nat :=
  length (collectDescendants (Some tree)).

Definition getAncestorMenuIds (tree : list Node) (menuId : string)
  : list string :=
  getAncestorsFuel tree (S (menuCount tree)) menuId.

(** [descendants.some(id => selectedMenuIds.value.has(id))] *)
Definition hasSelectedDescendants (tree : list Node) (sel : gset string)
    (menuId : string) : bool :=
  existsb (fun id => bool_decide (id ∈ sel)) (getDescendantMenuIds tree menuId).

Definition set_add (sel : gset string) (id : string) : gset string :=
  {[ id ]} ∪ sel.

Definition set_delete (sel : gset string) (id : string) : gset string :=
  sel ∖ {[ id ]}.

(** The body of [ancestors.forEach(ancestorId => ...)] on deselection. *)
Definition prune (tree : list Node) (acc : gset string) (ancestorId : string)
  : gset string :=
  if negb (hasSelectedDescendants tree acc ancestorId)
  then set_delete acc ancestorId else acc.

(** [toggleMenu] on the selection set alone. *)
Definition toggleMenuIds (tree : list Node) (menuId : string)
    (sel : gset string) : gset string :=
  if decide (menuId ∈ sel) then
    let sel1 := set_delete sel menuId in
    let sel2 := foldl set_delete sel1 (getDescendantMenuIds tree menuId) in
    foldl (prune tree) sel2 (getAncestorMenuIds tree menuId)
  else
    let sel1 := set_add sel menuId in
    let sel2 := foldl set_add sel1 (getDescendantMenuIds tree menuId) in
    foldl set_add sel2 (getAncestorMenuIds tree menuId).

(** [toggleMenu(menuId)]; the scroll-area update touches only the DOM. *)
Definition toggleMenu (menuId : string) (st : State) : State :=
  let was := bool_decide (menuId ∈ selectedMenuIds st) in
  {| treeData := treeData st;
     selectedMenuIds := toggleMenuIds (treeData st) menuId (selectedMenuIds st);
     selectedPermissions := selectedPermissions st;
     expandedMenuIds := expandedMenuIds st;
     selectedMenuId :=
       if was && bool_decide (selectedMenuId st = Some menuId)
       then None else selectedMenuId st |}.

(** [togglePermission(permissionId)] *)
Definition togglePermission (permissionId : string) (st : State) : State :=
  {| treeData := treeData st;
     selectedMenuIds := selectedMenuIds st;
     selectedPermissions :=
       if decide (permissionId ∈ selectedPermissions st)
       then set_delete (selectedPermissions st) permissionId
       else set_add (selectedPermissions st) permissionId;
     expandedMenuIds := expandedMenuIds st;
     selectedMenuId := selectedMenuId st |}.

(** The template's [:checked="selectedPermissions.has(permission.id)"]. *)
Definition permissionChecked (st : State) (permissionId : string) : bool :=
  bool_decide (permissionId ∈ selectedPermissions st).

(** *** Specification vocabulary: paths from a menu up to its root *)

(** Every menu of the forest, in preorder, with the ids on the way up:
    the menu's own id first, then its parent's, ..., then [up]. *)
Fixpoint menuPaths_node (up : list string) (n : Node) : list (list string) :=
  match n with
  | MenuNode id ch =>
      (id :: up) :: match ch with
                    | None => []
                    | Some l => flat_map (menuPaths_node (id :: up)) l
                    end
  | PermissionNode _ _ => []
  end.

Definition menuPaths (up : list string) (ns : list Node)
  : list (list string) :=
  flat_map (menuPaths_node up) ns.

(** [a] is a proper ancestor of (an occurrence of) the menu [m]. *)
Definition ancestor_of (tree : list Node) (a m : string) : Prop :=
  ∃ up, (m :: up) ∈ menuPaths [] tree ∧ a ∈ up.

(** The ids of the menus of the tree, in preorder. *)
Definition menuIds (tree : list Node) : list string :=
  map (hd "") (menuPaths [] tree).

(** Each menu occurs exactly once in the tree. *)
Definition well_formed (tree : list Node) : Prop :=
  NoDup (menuIds tree).

(** No menu that has a child menu carries the empty string as its id. *)
Definition parents_truthy (tree : list Node) : Prop :=
  ∀ m up a, (m :: up) ∈ menuPaths [] tree → a ∈ up → a ≠ "".

(** Every selected menu's ancestors are all selected. *)
Definition closed (tree : list Node) (sel : gset string) : Prop :=
  ∀ x a, x ∈ sel → ancestor_of tree a x → a ∈ sel.

(** What [toggleMenu(m)] is to establish on the selection set. *)
Definition cascade (st : State) (m : string) : Prop :=
  let tree := treeData st in
  let sel := selectedMenuIds st in
  let sel' := selectedMenuIds (toggleMenu m st) in
  closed tree sel' ∧
  (m ∉ sel →
     m ∈ sel' ∧
     (∀ d, ancestor_of tree m d → d ∈ sel') ∧
     (∀ a, ancestor_of tree a m → a ∈ sel')) ∧
  (m ∈ sel →
     (m ∉ sel') ∧
     (∀ d, ancestor_of tree m d → d ∉ sel') ∧
     (∀ a, ancestor_of tree a m →
        (a ∈ sel' ↔ ∃ d, ancestor_of tree a d ∧ d ∈ sel'))).

(** What [findParent] yields once the first path headed by the target is
    known. *)
Definition found_result (restart : string → list string)
    (o : option (list string)) : bool * list string :=
  match o with
  | None => (false, [])
  | Some p =>
      (true,
       match tail p with
       | q :: _ => if truthy q then q :: restart q else []
       | [] => []
       end)
  end.

Definition heads (target : string) (p : list string) : bool :=
  bool_decide (hd "" p = hd "" [target]).

(** The ids pushed while climbing a path: the climb stops at the first
    falsy parent id. *)
Fixpoint climb (up : list string) : list string :=
  match up with
  | [] => []
  | q :: r => if truthy q then q :: climb r else []
  end.

(** The ancestors are visited bottom-up: no menu below the ancestor being
    visited is visited later. *)
Fixpoint bottom_up (tree : list Node) (l : list string) : Prop :=
  match l with
  | [] => True
  | a :: rest =>
      (∀ d, ancestor_of tree a d → d ∉ a :: rest) ∧ bottom_up tree rest
  end.

(** Sample data: a two-level tree with a permission leaf, and a tree
    whose root menu carries the empty id. *)
Definition demo : list Node :=
  [ MenuNode "sys" (Some
      [ MenuNode "user" (Some [ PermissionNode "p1" "user:add";
                                MenuNode "user-detail" None ]);
        MenuNode "role" (Some []) ]);
    MenuNode "log" None ].

Definition demo_state (sel : gset string) : State :=
  {| treeData := demo; selectedMenuIds := sel; selectedPermissions := ∅;
     expandedMenuIds := ∅; selectedMenuId := None |}.

Definition empty_id_state : State :=
  {| treeData := [ MenuNode "" (Some [ MenuNode "a" None ]) ];
     selectedMenuIds := ∅; selectedPermissions := ∅;
     expandedMenuIds := ∅; selectedMenuId := None |}.

End RolePermission.

(** ** Scheduler-job form: interval unit conversion *)
Module SchedulerForm.

Inductive TriggerType : Type := cron | interval | date.

(** The job record; [interval_seconds] is an optional number, here an
    integer.  [interval_unit] is the form's temporary unit field. *)
Record SchedulerJob : Type := mkJob {
  id : option string;
  trigger_type : TriggerType;
  interval_seconds : option Z;
  interval_unit : option string
}.

(** Truthiness of an optional number: [undefined] and [0] are falsy. *)
Definition truthy_num (o : option Z) : bool :=
  match o with
  | Some z => negb (z =? 0)%Z
  | None => false
  end.

Definition is_interval (t : TriggerType) : bool :=
  match t with
  | interval => true
  | _ => false
  end.

(** [setFormValuesWithConversion(data)]: the values handed to
    [formApi.setValues].  The quotient is taken only where the remainder is
    zero, so the division is exact. *)
Definition setFormValuesWithConversion (data : SchedulerJob) : SchedulerJob :=
  match interval_seconds data with
  | Some seconds =>
      if is_interval (trigger_type data) && truthy_num (Some seconds) then
        if (Z.rem seconds 86400 =? 0)%Z then
          {| id := id data; trigger_type := trigger_type data;
             interval_seconds := Some (Z.quot seconds 86400);
             interval_unit := Some "days" |}
        else if (Z.rem seconds 3600 =? 0)%Z then
          {| id := id data; trigger_type := trigger_type data;
             interval_seconds := Some (Z.quot seconds 3600);
             interval_unit := Some "hours" |}
        else if (Z.rem seconds 60 =? 0)%Z then
          {| id := id data; trigger_type := trigger_type data;
             interval_seconds := Some (Z.quot seconds 60);
             interval_unit := Some "minutes" |}
        else
          {| id := id data; trigger_type := trigger_type data;
             interval_seconds := Some seconds;
             interval_unit := Some "seconds" |}
      else
        {| id := id data; trigger_type := trigger_type data;
           interval_seconds := interval_seconds data;
           interval_unit := Some "seconds" |}
  | None =>
      {| id := id data; trigger_type := trigger_type data;
         interval_seconds := interval_seconds data;
         interval_unit := Some "seconds" |}
  end.

(** The reverse conversion of [onConfirm]: [unit] is
    [data.interval_unit || 'seconds']. *)
Definition toSeconds (unit : string) (value : Z) : Z :=
  if decide (unit = "minutes") then (value * 60)%Z
  else if decide (unit = "hours") then (value * 3600)%Z
  else if decide (unit = "days") then (value * 86400)%Z
  else value.

(** [onConfirm]: the payload sent to the create or update endpoint, when
    the form validates; [None] when it does not. *)
Definition onConfirm (valid : bool) (data : SchedulerJob)
  : option SchedulerJob :=
  if valid then
    let seconds :=
      if is_interval (trigger_type data) && truthy_num (interval_seconds data)
      then
        let unit := if truthy_opt (interval_unit data)
                    then default "seconds" (interval_unit data)
                    else "seconds" in
        option_map (toSeconds unit) (interval_seconds data)
      else interval_seconds data in
    Some {| id := id data; trigger_type := trigger_type data;
            interval_seconds := seconds;
            interval_unit := None |}
  else None.

(** Length in seconds of a display unit. *)
Definition unit_length (unit : string) : Z :=
  if decide (unit = "days") then 86400
  else if decide (unit = "hours") then 3600
  else if decide (unit = "minutes") then 60
  else 1.

(** What the form shows for [s] seconds: a value, a unit, and the unit's
    place in the days/hours/minutes/seconds cascade. *)
Definition shows (s v : Z) (u : string) : Prop :=
  ((86400 | s) → u = "days")%Z ∧
  (¬ (86400 | s) → (3600 | s) → u = "hours")%Z ∧
  (¬ (86400 | s) → ¬ (3600 | s) → (60 | s) → u = "minutes")%Z ∧
  (¬ (86400 | s) → ¬ (3600 | s) → ¬ (60 | s) → u = "seconds")%Z ∧
  v = (s / unit_length u)%Z ∧
  (v * unit_length u)%Z = s.

Definition two_hours : SchedulerJob :=
  {| id := Some "job-1"; trigger_type := interval;
     interval_seconds := Some 7200%Z; interval_unit := None |}.

End SchedulerForm.

(** ** Shared request client: re-authentication and error messages *)
Module Request.

(** The access store fields the client reads and writes. *)
Record AccessStore : Type := mkStore {
  accessToken : option string;
  refreshToken : option string;
  isAccessChecked : bool;
  loginExpired : bool
}.

Definition setAccessToken (t : option string) (s : AccessStore) : AccessStore :=
  {| accessToken := t; refreshToken := refreshToken s;
     isAccessChecked := isAccessChecked s; loginExpired := loginExpired s |}.

Definition setLoginExpired (b : bool) (s : AccessStore) : AccessStore :=
  {| accessToken := accessToken s; refreshToken := refreshToken s;
     isAccessChecked := isAccessChecked s; loginExpired := b |}.

(** [error.response.data]: the backend's error payload. *)
Record ResponseData : Type := mkData {
  message : option string;
  error : option string;
  detail : option string;
  msg : option string
}.

Definition emptyData : ResponseData :=
  {| message := None; error := None; detail := None; msg := None |}.

Record Response : Type := mkResponse {
  data : option ResponseData;
  status : Z
}.

Record RequestError : Type := mkError {
  response : option Response
}.

(** What the client does to the outside world. *)
Inductive Effect : Type :=
| ConsoleWarn (text : string)
| ConsoleError (status : option Z) (text : option string)
| Logout
| HttpRequest (url : string)
| ToastError (text : string).

(** [a || b] on optional strings. *)
Definition js_or (a b : option string) : option string :=
  if truthy_opt a then a else b.

Definition default429 : string := "请求过于频繁，请稍后再试（5分钟内不能重试）".
Definition default403 : string := "您没有权限访问此资源".
Definition default401 : string := "认证失败，请重新登录".

(** [doReAuthenticate()], for a given [preferences.app.loginExpiredMode]:
    the store afterwards and the effects, in order. *)
Definition doReAuthenticate (loginExpiredMode : string) (store : AccessStore)
  : AccessStore * list Effect :=
  let warn :=
    ConsoleWarn "Access token or refresh token is invalid or expired. " in
  let hadToken :=
    truthy_opt (accessToken store) || truthy_opt (refreshToken store) in
  let store1 := setAccessToken None store in
  if negb hadToken then (store1, [warn])
  else if bool_decide (loginExpiredMode = "modal") && isAccessChecked store1
  then (setLoginExpired true store1, [warn])
  else (store1, [warn; Logout]).

(** [error?.response] *)
Definition responseOf (err : option RequestError) : option Response :=
  match err with
  | Some e => response e
  | None => None
  end.

(** [error?.response?.data ?? {}] *)
Definition responseDataOf (err : option RequestError) : ResponseData :=
  match responseOf err with
  | Some r => default emptyData (data r)
  | None => emptyData
  end.

(** [error?.response?.status] *)
Definition statusOf (err : option RequestError) : option Z :=
  match responseOf err with
  | Some r => Some (status r)
  | None => None
  end.

(** The message the callback settles on, before the toast. *)
Definition errorMessage (m : string) (err : option RequestError)
  : option string :=
  let responseData := responseDataOf err in
  let status := statusOf err in
  let e0 :=
    js_or (message responseData)
      (js_or (error responseData)
         (js_or (detail responseData)
            (js_or (msg responseData) (Some m)))) in
  let e1 := if bool_decide (status = Some 429%Z)
            then js_or e0 (Some default429) else e0 in
  let e2 := if bool_decide (status = Some 403%Z)
            then js_or e1 (Some default403) else e1 in
  if bool_decide (status = Some 401%Z)
  then js_or e2 (Some default401) else e2.

(** The callback handed to [errorMessageResponseInterceptor]. *)
Definition errorMessageCallback (m : string) (err : option RequestError)
  : list Effect :=
  let em := errorMessage m err in
  ConsoleError (statusOf err) em
  :: if truthy_opt em
     then [ToastError (default m (js_or em (Some m)))]
     else [].





Definition toasts (l : list Effect) : list string :=
  flat_map (λ e, match e with ToastError t => [t] | _ => [] end) l.

End Request.

(** ** Typed API wrappers *)
Module Api.

Inductive Method : Type := GET | POST | PUT | DELETE.

Section Client.
(** Query objects, request bodies and typed responses are opaque here. *)
Variables (Params Body Resp : Type).

Record HttpCall : Type := mkCall {
  method : Method;
  url : string;
  params : option Params;
  body : option Body
}.

(** A promise of the client: given the backend's answers and the calls
    issued so far, the value it resolves to and the calls issued. *)
Definition Promise (A : Type) : Type :=
  (HttpCall → Resp) → list HttpCall → A * list HttpCall.

Record RequestConfig : Type := mkConfig { cfg_params : option Params }.

(** Modelled from the spec: the request client's [get] method, whose code
    is not among the sources.  [requestClient.get(url, config)] issues one
    GET call with the config's params and resolves to the backend's
    answer. *)
Definition requestClient_get (u : string) (config : RequestConfig)
  : Promise Resp :=
  λ backend log,
    let c := {| method := GET; url := u;
                params := cfg_params config; body := None |} in
    (backend c, log ++ [c]).

(** Modelled from the spec: the request client's [put] method, whose code
    is not among the sources.  [requestClient.put(url, data)] issues one
    PUT call with [data] as the body and resolves to the backend's
    answer. *)
Definition requestClient_put (u : string) (d : Body) : Promise Resp :=
  λ backend log,
    let c := {| method := PUT; url := u; params := None; body := Some d |} in
    (backend c, log ++ [c]).

(** [getUserListApi(params?)] *)
Definition getUserListApi (p : option Params) : Promise Resp :=
  requestClient_get "/api/core/user" {| cfg_params := p |}.

(** [updateMenuApi(menuId, data)] *)
Definition updateMenuApi (menuId : string) (d : Body) : Promise Resp :=
  requestClient_put ("/api/core/menu/" +:+ menuId) d.
End Client.

End Api.

(** ** Menu tree editor *)
Module MenuTree.

(** [MenuTreeNode]: the fields the functions below read or write. *)
Inductive MenuTreeNode : Type :=
  mkNode {
    id : string;
    child_count : option Z;
    hasChild : bool;
    children : option (list MenuTreeNode)
  }.

Record State : Type := mkState {
  treeData : list MenuTreeNode;
  searchKeyword : list N;
  searchResults : list MenuTreeNode;
  isSearching : bool;
  expandedMenuIds : gset string
}.

(** [node.children && node.children.length > 0] *)
Definition hasChildren (menu : MenuTreeNode) : bool :=
  match children menu with
  | Some (_ :: _) => true
  | _ => false
  end.

(** The children list, empty when the property is absent. *)
Definition childrenOf (menu : MenuTreeNode) : list MenuTreeNode :=
  match children menu with
  | Some l => l
  | None => []
  end.

(** [toggleNodeExpanded(menu)] *)
Definition toggleNodeExpanded (menu : MenuTreeNode) (st : State) : State :=
  {| treeData := treeData st; searchKeyword := searchKeyword st;
     searchResults := searchResults st; isSearching := isSearching st;
     expandedMenuIds :=
       if decide (id menu ∈ expandedMenuIds st)
       then expandedMenuIds st ∖ {[ id menu ]}
       else {[ id menu ]} ∪ expandedMenuIds st |}.

(** [renderTreeList(nodes, level)]: rows [{ node, level, isNode: true }]. *)
Fixpoint renderTreeList_node (expanded : gset string) (level : nat)
    (node : MenuTreeNode) : list (MenuTreeNode * nat) :=
  (node, level) ::
  match node with
  | mkNode i _ _ ch =>
      if bool_decide (i ∈ expanded) then
        match ch with
        | Some (c :: cs) =>
            flat_map (renderTreeList_node expanded (S level)) (c :: cs)
        | _ => []
        end
      else []
  end.

Definition renderTreeList (expanded : gset string)
    (nodes : list MenuTreeNode) (level : nat) : list (MenuTreeNode * nat) :=
  flat_map (renderTreeList_node expanded level) nodes.

(** The search keyword is a list of UTF-16 code units, since [trim]
    depends on which code units it holds.  White space as
    [String.prototype.trim] sees it: the WhiteSpace and LineTerminator code
    points of ECMAScript, all of them single code units. *)
Definition is_whitespace (c : N) : bool :=
  ((9 <=? c) && (c <=? 13)                (* TAB, LF, VT, FF, CR *)
   || (c =? 32) || (c =? 160)             (* SPACE, NO-BREAK SPACE *)
   || (c =? 5760)                         (* U+1680 *)
   || ((8192 <=? c) && (c <=? 8202))      (* U+2000 .. U+200A *)
   || (c =? 8232) || (c =? 8233)          (* U+2028, U+2029 *)
   || (c =? 8239) || (c =? 8287)          (* U+202F, U+205F *)
   || (c =? 12288) || (c =? 65279))%N.    (* U+3000, U+FEFF *)

(** The code units of a string literal in the ASCII range. *)
Definition codeUnits (s : string) : list N :=
  map N_of_ascii (String.list_ascii_of_string s).

(** Truthiness of a string given by its code units. *)
Definition nonEmpty (s : list N) : bool :=
  match s with
  | [] => false
  | _ :: _ => true
  end.

Fixpoint drop_while {A : Type} (f : A → bool) (l : list A) : list A :=
  match l with
  | [] => []
  | x :: l' => if f x then drop_while f l' else l
  end.

(** [s.trim()] *)
Definition trim (s : list N) : list N :=
  rev (drop_while is_whitespace (rev (drop_while is_whitespace s))).

(** [transformMenuData(menus)]: adds [hasChild] (and the [meta] view of
    fields not modelled here) to each menu. *)
Definition transformMenuData (menus : list MenuTreeNode)
  : list MenuTreeNode :=
  map (λ menu,
         {| id := id menu; child_count := child_count menu;
            hasChild := match child_count menu with
                        | Some n => negb (n =? 0)%Z && (0 <? n)%Z
                        | None => false
                        end;
            children := children menu |}) menus.

(** [filteredTreeData] *)
Definition filteredTreeData (st : State) : list MenuTreeNode :=
  if nonEmpty (trim (searchKeyword st))
     && (0 <? length (searchResults st))%nat
  then searchResults st
  else treeData st.

(** [flattenedTree] *)
Definition flattenedTree (st : State) : list (MenuTreeNode * nat) :=
  renderTreeList (expandedMenuIds st) (filteredTreeData st) 0.

(** [autoExpandSearchResults(nodes)] *)
Fixpoint autoExpandSearchResults_node (node : MenuTreeNode) : list string :=
  match node with
  | mkNode i _ _ ch =>
      i :: match ch with
           | Some (c :: cs) => flat_map autoExpandSearchResults_node (c :: cs)
           | _ => []
           end
  end.

Definition autoExpandSearchResults (nodes : list MenuTreeNode)
    (expanded : gset string) : gset string :=
  foldl (λ acc i, {[ i ]} ∪ acc) expanded
        (flat_map autoExpandSearchResults_node nodes).

(** The synchronous part of [watch(searchKeyword, ...)]: the keyword has
    become [newVal]; a blank keyword clears the results, otherwise the
    debounce timer is armed and the state stays as it is. *)
Definition onSearchKeyword (newVal : list N) (st : State) : State :=
  if negb (nonEmpty (trim newVal)) then
    {| treeData := treeData st; searchKeyword := newVal;
       searchResults := []; isSearching := false;
       expandedMenuIds := expandedMenuIds st |}
  else
    {| treeData := treeData st; searchKeyword := newVal;
       searchResults := searchResults st; isSearching := isSearching st;
       expandedMenuIds := expandedMenuIds st |}.

(** The timer's body once the backend has answered: [Some results] for a
    fulfilled [searchMenuApi] call ([results || []]), [None] for a
    rejected one. *)
Definition onSearchSettled (answer : option (list MenuTreeNode)) (st : State)
  : State :=
  match answer with
  | Some results =>
      let transformedResults := transformMenuData results in
      {| treeData := treeData st; searchKeyword := searchKeyword st;
         searchResults := transformedResults; isSearching := false;
         expandedMenuIds :=
           if (0 <? length transformedResults)%nat
           then autoExpandSearchResults transformedResults (expandedMenuIds st)
           else expandedMenuIds st |}
  | None =>
      {| treeData := treeData st; searchKeyword := searchKeyword st;
         searchResults := []; isSearching := false;
         expandedMenuIds := expandedMenuIds st |}
  end.

(** *** Specification vocabulary *)

(** Every node of the forest in depth-first preorder, with its depth and
    the ids of its proper ancestors. *)
Fixpoint allRows_node (anc : list string) (level : nat) (node : MenuTreeNode)
  : list (MenuTreeNode * nat * list string) :=
  (node, level, anc) ::
  match node with
  | mkNode i _ _ ch =>
      match ch with
      | Some l => flat_map (allRows_node (i :: anc) (S level)) l
      | None => []
      end
  end.

Definition allRows (anc : list string) (level : nat)
    (nodes : list MenuTreeNode) : list (MenuTreeNode * nat * list string) :=
  flat_map (allRows_node anc level) nodes.

(** All proper ancestors of the row are expanded. *)
Definition visible (expanded : gset string)
    (row : MenuTreeNode * nat * list string) : bool :=
  forallb (λ a, bool_decide (a ∈ expanded)) (snd row).

(** Every id of [anc] is expanded. *)
Definition all_expanded (expanded : gset string) (anc : list string) : bool :=
  forallb (λ a, bool_decide (a ∈ expanded)) anc.

(** The keyword is empty or white space only. *)
Definition blank (s : list N) : Prop :=
  Forall (λ c, is_whitespace c = true) s.

Definition leaf (i : string) : MenuTreeNode :=
  {| id := i; child_count := None; hasChild := false; children := None |}.

Definition branch (i : string) (l : list MenuTreeNode) : MenuTreeNode :=
  {| id := i; child_count := None; hasChild := true; children := Some l |}.

Definition sample : list MenuTreeNode :=
  [ branch "sys" [ branch "user" [ leaf "user-detail" ]; leaf "role" ];
    leaf "log" ].

End MenuTree.

(** ** Menu creation form: the path field *)
Module MenuForm.

(** A JavaScript string is its sequence of UTF-16 code units; [length]
    counts them, so a character outside the basic plane counts twice. *)
Definition JsString : Type := list N.

(** The checks of a string schema of the validation library, in the order
    they are chained. *)
Inductive Check : Type :=
| Min (n : nat)
| Max (n : nat)
| Refine (accept : JsString → bool).

(** A check raises an issue when it does not hold; [min] and [max]
    compare the string's [length]. *)
Definition holds (c : Check) (value : JsString) : bool :=
  match c with
  | Min n => (n <=? length value)%nat
  | Max n => (length value <=? n)%nat
  | Refine accept => accept value
  end.

(** The value is accepted when no check raises an issue. *)
Definition accepts (rules : list Check) (value : JsString) : bool :=
  forallb (λ c, holds c value) rules.

(** [value.startsWith(p)]: the code units of [p] are the first of
    [value]. *)
Fixpoint startsWith (p value : JsString) : bool :=
  match p with
  | [] => true
  | c :: p' =>
      match value with
      | x :: value' => (x =? c)%N && startsWith p' value'
      | [] => false
      end
  end.

(** The code unit of [/]. *)
Definition slash : N := 47.

Section PathRules.
(** The backend's answer to [checkMenuPathApi(path)], field [exists]. *)
Variable isMenuPathExists : JsString → bool.

(** The [rules] of the [path] field. *)
Definition pathRules : list Check :=
  [ Min 2; Max 100;
    Refine (λ value, startsWith (MenuTree.codeUnits "/") value);
    Refine (λ value, negb (isMenuPathExists value)) ].
End PathRules.

(** The code unit of the ideograph U+4E2D, three bytes in UTF-8. *)
Definition zhong : N := 20013.

End MenuForm.

(** ** User list: operation column *)
Module UserList.

Record User : Type := mkUser {
  id : string;
  username : string
}.

Definition adminId : string := "a0000000-0000-0000-0000-000000000001".

(** The delete option's [disabled: (row) => ...]. *)
Definition deleteDisabled (row : User) : bool :=
  bool_decide (id row = adminId).

End UserList.

(** ** Shared request client: token formatting and refresh *)
Module RequestTokens.
Import Request.

(** [formatToken(token)] *)
Definition formatToken (token : option string) : option string :=
  match token with
  | Some t => if truthy t then Some ("Bearer " +:+ t) else None
  | None => None
  end.

(** The headers the request interceptor writes. *)
Record Headers : Type := mkHeaders {
  Authorization : option string;
  AcceptLanguage : string
}.

(** The [fulfilled] request interceptor, for a given
    [preferences.app.locale]; other headers are untouched. *)
Definition requestInterceptor (locale : string) (store : AccessStore)
    (headers : Headers) : Headers :=
  {| Authorization := formatToken (accessToken store);
     AcceptLanguage := locale |}.

Definition setRefreshToken (t : option string) (s : AccessStore) : AccessStore :=
  {| accessToken := accessToken s; refreshToken := t;
     isAccessChecked := isAccessChecked s; loginExpired := loginExpired s |}.

(** [resp.data] of the refresh endpoint: absent, a bare string, or an
    object with optional [accessToken] and [refreshToken]. *)
Inductive TokenData : Type :=
| DataAbsent
| DataText (s : string)
| DataObject (newAccess newRefresh : option string).

Inductive RefreshEffect : Type :=
| ReAuth (e : Effect)
| ConsoleErrorText (text : string)
| RefreshTokenApi (token : string).

Inductive RefreshOutcome : Type :=
| Threw (text : string)
| Rejected
| Returned (newToken : string).

(** [resp.data?.accessToken || ''] *)
Definition newTokenOf (d : TokenData) : string :=
  match d with
  | DataObject (Some a) _ => if truthy a then a else ""
  | _ => ""
  end.

(** [doRefreshToken()]: [answer] is what [refreshTokenApi] resolves to,
    [None] when it rejects (the rejection propagates to the caller). *)
Definition doRefreshToken (loginExpiredMode : string)
    (answer : option TokenData) (store : AccessStore)
  : AccessStore * list RefreshEffect * RefreshOutcome :=
  if negb (truthy_opt (refreshToken store)) then
    let r := doReAuthenticate loginExpiredMode store in
    (fst r,
     ConsoleErrorText "Refresh token is missing" :: map ReAuth (snd r),
     Threw "Refresh token is missing")
  else
    let call := RefreshTokenApi (default "" (refreshToken store)) in
    match answer with
    | None => (store, [call], Rejected)
    | Some d =>
        let newToken := newTokenOf d in
        let store1 := setAccessToken (Some newToken) store in
        let store2 :=
          match d with
          | DataObject _ (Some r) =>
              if truthy r then setRefreshToken (Some r) store1 else store1
          | _ => store1
          end in
        (store2, [call], Returned newToken)
    end.

Definition is_refresh_call (e : RefreshEffect) : bool :=
  match e with
  | RefreshTokenApi _ => true
  | _ => false
  end.

End RequestTokens.

(** ** The response interceptors on a rejected response *)
Module ResponseChain.
Import Request RequestTokens.

(** [app.enableRefreshToken] as [preferences.ts] overrides it. *)
Definition enableRefreshToken : bool := true.

(** What the chain does to the outside world: the effects of
    [doRefreshToken], those of [doReAuthenticate], the failed request sent
    again with the [Authorization] header the request interceptor then
    writes, and the effects of the error-message callback. *)
Inductive ChainEffect : Type :=
| Refreshing (e : RefreshEffect)
| ReAuthenticating (e : Effect)
| Replay (authorization : option string)
| Callback (e : Effect).

(** How the authenticate interceptor leaves the failed request: it passes
    an error on to the next interceptor, or answers it with the replay. *)
Inductive Settled : Type :=
| PassedOn (err : RequestError)
| Replayed.

(** Modelled from the spec: [authenticateResponseInterceptor], code of the
    request library that is not among the sources; the spec names a
    token-refresh/re-authentication flow for 401 responses.  The model is
    driven by what [request.ts] hands the interceptor ([doReAuthenticate],
    [doRefreshToken], [enableRefreshToken], [formatToken]): an error that
    is no 401 is passed on; a 401 re-authenticates and is passed on when
    refresh is disabled or the request is itself a replay
    ([isRetryRequest]); otherwise the token is refreshed and, when
    [doRefreshToken] returns, the request is replayed, and when it throws
    or rejects, the interceptor re-authenticates and passes on that
    failure ([refreshError] when the refresh call rejected, an error
    without response when [doRefreshToken] threw).  One failed request at a
    time: requests failing while a refresh is in flight are not
    modelled. *)
Definition authenticateResponseInterceptor (loginExpiredMode : string)
    (enableRefreshToken isRetryRequest : bool) (answer : option TokenData)
    (refreshError err : RequestError) (store : AccessStore)
  : AccessStore * list ChainEffect * Settled :=
  if negb (bool_decide (statusOf (Some err) = Some 401%Z))
  then (store, [], PassedOn err)
  else if negb enableRefreshToken || isRetryRequest then
    let r := doReAuthenticate loginExpiredMode store in
    (fst r, map ReAuthenticating (snd r), PassedOn err)
  else
    let '(store1, effs, outcome) :=
      doRefreshToken loginExpiredMode answer store in
    match outcome with
    | Returned _ =>
        (store1,
         map Refreshing effs ++ [Replay (formatToken (accessToken store1))],
         Replayed)
    | Threw _ =>
        let r := doReAuthenticate loginExpiredMode store1 in
        (fst r, map Refreshing effs ++ map ReAuthenticating (snd r),
         PassedOn (mkError None))
    | Rejected =>
        let r := doReAuthenticate loginExpiredMode store1 in
        (fst r, map Refreshing effs ++ map ReAuthenticating (snd r),
         PassedOn refreshError)
    end.

(** Modelled from the spec: the two response interceptors in the order
    [request.ts] adds them.  An error the authenticate interceptor passes
    on reaches [errorMessageResponseInterceptor] (library code as well),
    which calls the callback of [request.ts] with the message [msgOf] it
    derives from that error. *)
Definition onResponseRejected (loginExpiredMode : string)
    (enableRefreshToken isRetryRequest : bool) (answer : option TokenData)
    (refreshError : RequestError) (msgOf : RequestError → string)
    (err : RequestError) (store : AccessStore)
  : AccessStore * list ChainEffect :=
  let '(store1, effs, settled) :=
    authenticateResponseInterceptor loginExpiredMode enableRefreshToken
      isRetryRequest answer refreshError err store in
  match settled with
  | PassedOn e =>
      (store1, effs ++ map Callback (errorMessageCallback (msgOf e) (Some e)))
  | Replayed => (store1, effs)
  end.





(** A 401 without payload, and a store that holds both tokens. *)
Definition unauthorized : RequestError :=
  mkError (Some (mkResponse None 401)).


End ResponseChain.

(** ** Menu tree editor: lookup, in-place update, loading *)
Module MenuTreeOps.
Import MenuTree.

(** [for (const x of l) { const r = f(x); if (r) return r; } return null] *)
Definition first_some {A B : Type} (f : A → option B) : list A → option B :=
  fix loop (l : list A) : option B :=
    match l with
    | [] => None
    | x :: l' => match f x with
                 | Some y => Some y
                 | None => loop l'
                 end
    end.

(** The inner [search] of [findMenuById], on one node. *)
Fixpoint search_node (menuId : string) (node : MenuTreeNode)
  : option MenuTreeNode :=
  match node with
  | mkNode i cc hc ch =>
      if decide (i = menuId) then Some (mkNode i cc hc ch)
      else match ch with
           | Some (c :: cs) => first_some (search_node menuId) (c :: cs)
           | _ => None
           end
  end.

(** [findMenuById(menuId)] on [treeData]. *)
Definition findMenuById (tree : list MenuTreeNode) (menuId : string)
  : option MenuTreeNode :=
  first_some (search_node menuId) tree.

(** The flat [Menu] record returned by the detail endpoint. *)
Record Menu : Type := mkMenu {
  menu_id : string;
  menu_child_count : option Z
}.

(** The loop of [updateNodeInTree] over an array: the first element for
    which [f] reports success is replaced and the loop stops. *)
Definition update_first {A : Type} (f : A → bool * A)
  : list A → bool * list A :=
  fix loop (l : list A) : bool * list A :=
    match l with
    | [] => (false, [])
    | x :: l' =>
        if fst (f x) then (true, snd (f x) :: l')
        else (fst (loop l'), snd (f x) :: snd (loop l'))
    end.

(** [updateNodeInTree] on one array slot: the node is replaced by the
    updated record with its own [children] and [hasChild] kept, or else
    the update goes on in its children. *)
Fixpoint updateNode (menuId : string) (updatedData : Menu)
    (node : MenuTreeNode) : bool * MenuTreeNode :=
  match node with
  | mkNode i cc hc ch =>
      if decide (i = menuId) then
        (true,
         {| id := menu_id updatedData;
            child_count := menu_child_count updatedData;
            hasChild := hc; children := ch |})
      else
        match ch with
        | Some (c :: cs) =>
            let r := update_first (updateNode menuId updatedData) (c :: cs) in
            (fst r, mkNode i cc hc (Some (snd r)))
        | _ => (false, mkNode i cc hc ch)
        end
  end.

(** [updateNodeInTree(nodes, menuId, updatedData)]: the returned boolean
    and the array after the in-place update. *)
Definition updateNodeInTree (nodes : list MenuTreeNode) (menuId : string)
    (updatedData : Menu) : bool * list MenuTreeNode :=
  update_first (updateNode menuId updatedData) nodes.

(** [transformMenuTreeData(menus)] *)
Fixpoint transformMenuTreeNode (menu : MenuTreeNode) : MenuTreeNode :=
  match menu with
  | mkNode i cc hc ch =>
      match ch with
      | Some (c :: cs) =>
          mkNode i cc true (Some (map transformMenuTreeNode (c :: cs)))
      | _ => mkNode i cc false ch
      end
  end.

Definition transformMenuTreeData (menus : list MenuTreeNode)
  : list MenuTreeNode :=
  map transformMenuTreeNode menus.

(** The ids of all nodes of a forest, in preorder. *)
Definition nodeIds (nodes : list MenuTreeNode) : list string :=
  map (λ row, id (fst (fst row))) (allRows [] 0 nodes).

(** The nodes of a forest, in preorder. *)
Definition allNodes (nodes : list MenuTreeNode) : list MenuTreeNode :=
  map (λ row, fst (fst row)) (allRows [] 0 nodes).

(** The displayed rows reduced to id and level. *)
Definition rowIds (rows : list (MenuTreeNode * nat)) : list (string * nat) :=
  map (λ row, (id (fst row), snd row)) rows.

(** Every node of the forest, at any depth, carries a [hasChild] flag that
    tells whether it has children. *)
Definition flags_agree (nodes : list MenuTreeNode) : Prop :=
  Forall (λ n, hasChild n = hasChildren n) (allNodes nodes).

Definition has_id (i : string) (n : MenuTreeNode) : bool :=
  bool_decide (id n = i).

Definition node_of (row : MenuTreeNode * nat * list string) : MenuTreeNode :=
  fst (fst row).

(** A row of the preorder listing without the node's payload: its id, its
    depth and its ancestors' ids. *)
Definition shape_of (row : MenuTreeNode * nat * list string)
  : string * nat * list string :=
  (id (node_of row), snd (fst row), snd row).

(** What is displayed depends on the shape of the tree only. *)
Definition shape_visible (expanded : gset string)
    (s : string * nat * list string) : bool :=
  forallb (λ a, bool_decide (a ∈ expanded)) (snd s).

(** The node [old] after a refresh with [updatedData]. *)
Definition refreshed (updatedData : Menu) (old : MenuTreeNode)
  : MenuTreeNode :=
  {| id := menu_id updatedData;
     child_count := menu_child_count updatedData;
     hasChild := hasChild old; children := children old |}.

End MenuTreeOps.

(** ** Role-permission panel: counters, bulk selection, permission groups *)
Module RolePermissionPanel.
Import RolePermission.

(** A permission as the permissions endpoint returns it. *)
Record Permission : Type := mkPermission {
  perm_id : string;
  permission_type : option Z;
  checked : bool
}.

(** The panel: the state above with the per-menu permission cache, a
    plain JS object used as a map from menu id to permission list.  The map
    holds the object's own properties. *)
Record Panel : Type := mkPanel {
  panel_state : State;
  menuPermissionsCache : gmap string (list Permission)
}.

(** The property names a plain object inherits from [Object.prototype]. *)
Definition objectPrototypeKeys : list string :=
  [ "constructor"; "hasOwnProperty"; "isPrototypeOf";
    "propertyIsEnumerable"; "toLocaleString"; "toString"; "valueOf";
    "__proto__"; "__defineGetter__"; "__defineSetter__";
    "__lookupGetter__"; "__lookupSetter__" ].

Definition inherited (key : string) : bool :=
  bool_decide (key ∈ objectPrototypeKeys).

(** What [menuPermissionsCache.value[key]] reads: the object's own entry,
    else the value inherited under that name (a function or the prototype
    object: truthy, and no array), else [undefined]. *)
Inductive CacheRead : Type :=
| Own (perms : list Permission)
| Inherited
| Undefined.

Definition cacheRead (cache : gmap string (list Permission)) (key : string)
  : CacheRead :=
  match cache !! key with
  | Some perms => Own perms
  | None => if inherited key then Inherited else Undefined
  end.

Definition with_state (p : Panel) (st : State) : Panel :=
  {| panel_state := st; menuPermissionsCache := menuPermissionsCache p |}.

Definition with_selectedMenuIds (st : State) (sel : gset string) : State :=
  {| treeData := treeData st; selectedMenuIds := sel;
     selectedPermissions := selectedPermissions st;
     expandedMenuIds := expandedMenuIds st;
     selectedMenuId := selectedMenuId st |}.

Definition with_selectedPermissions (st : State) (sel : gset string) : State :=
  {| treeData := treeData st; selectedMenuIds := selectedMenuIds st;
     selectedPermissions := sel;
     expandedMenuIds := expandedMenuIds st;
     selectedMenuId := selectedMenuId st |}.

(** [countMenus] of [totalMenuCount]: the increments of [count]. *)
Fixpoint countMenus_node (n : Node) : nat :=
  match n with
  | MenuNode _ ch =>
      S (match ch with
         | None => 0
         | Some l => list_sum (map countMenus_node l)
         end)
  | PermissionNode _ _ => 0
  end.

(** [totalMenuCount] *)
Definition totalMenuCount (tree : list Node) : nat :=
  list_sum (map countMenus_node tree).

(** [collectMenus] of [selectAllMenus]: the ids added, in order. *)
Fixpoint collectMenus_node (n : Node) : list string :=
  match n with
  | MenuNode id ch =>
      id :: match ch with
            | None => []
            | Some l => flat_map collectMenus_node l
            end
  | PermissionNode _ _ => []
  end.

(** [selectAllMenus()] *)
Definition selectAllMenus (st : State) : State :=
  with_selectedMenuIds st
    (foldl set_add (selectedMenuIds st)
       (flat_map collectMenus_node (treeData st))).

(** [unselectAllMenus()] *)
Definition unselectAllMenus (st : State) : State :=
  with_selectedMenuIds st ∅.

(** The four permission groups, all empty. *)
Definition emptyGroups : gmap Z (list Permission) :=
  <[0%Z := []]> (<[1%Z := []]> (<[2%Z := []]> (<[3%Z := []]> ∅))).

(** The body of [permissions.forEach(perm => ...)] in
    [currentMenuPermissions]. *)
Definition groupStep (grouped : gmap Z (list Permission))
    (perm : Permission) : gmap Z (list Permission) :=
  let type := default 3%Z (permission_type perm) in
  match grouped !! type with
  | Some l => <[type := l ++ [perm]]> grouped
  | None => grouped
  end.

(** [currentMenuPermissions]: [None] when the getter throws, which it does
    at [permissions.forEach] when the cache read yields an inherited
    value. *)
Definition currentMenuPermissions (p : Panel)
  : option (gmap Z (list Permission)) :=
  match selectedMenuId (panel_state p) with
  | Some m =>
      if truthy m then
        match cacheRead (menuPermissionsCache p) m with
        | Own perms => Some (foldl groupStep emptyGroups perms)
        | Undefined => Some (foldl groupStep emptyGroups [])
        | Inherited => None
        end
      else Some ∅
  | None => Some ∅
  end.

(** [grouped[type] || []] *)
Definition groupOf (grouped : gmap Z (list Permission)) (type : Z)
  : list Permission :=
  default [] (grouped !! type).

(** The permissions displayed under a type: [currentMenuPermissions.value[type]
    || []], and none when the getter throws. *)
Definition permissionsOfType (p : Panel) (type : Z) : list Permission :=
  match currentMenuPermissions p with
  | Some grouped => groupOf grouped type
  | None => []
  end.

(** [selectPermissionsByType(type)]; when the getter throws, the function
    is left before it has changed anything. *)
Definition selectPermissionsByType (type : Z) (p : Panel) : Panel :=
  if truthy_opt (selectedMenuId (panel_state p)) then
    match currentMenuPermissions p with
    | Some grouped =>
        with_state p
          (with_selectedPermissions (panel_state p)
             (foldl set_add (selectedPermissions (panel_state p))
                (map perm_id (groupOf grouped type))))
    | None => p
    end
  else p.

(** [unselectPermissionsByType(type)] *)
Definition unselectPermissionsByType (type : Z) (p : Panel) : Panel :=
  if truthy_opt (selectedMenuId (panel_state p)) then
    match currentMenuPermissions p with
    | Some grouped =>
        with_state p
          (with_selectedPermissions (panel_state p)
             (foldl set_delete (selectedPermissions (panel_state p))
                (map perm_id (groupOf grouped type))))
    | None => p
    end
  else p.

Inductive PanelEffect : Type :=
| GetMenuPermissionsApi (roleId menuId : string)
| ErrorMessage.

(** The ids of the permissions the answer marks as checked. *)
Definition checkedIds (perms : list Permission) : list string :=
  map perm_id (List.filter checked perms).

(** [loadMenuPermissions(menuId)], for [props.role?.id = roleId]; the
    guard [if (menuPermissionsCache.value[menuId]) return] holds for an own
    entry (an array) and for an inherited value alike.
    [answer] is what [getMenuPermissionsApi] resolves to: [None] when the
    call fails, [Some None] when the answer has no [permissions] field,
    [Some (Some perms)] otherwise. *)
Definition loadMenuPermissions (roleId : option string) (menuId : string)
    (answer : option (option (list Permission))) (p : Panel)
  : Panel * list PanelEffect :=
  if negb (truthy_opt roleId) then (p, [])
  else
    match cacheRead (menuPermissionsCache p) menuId with
    | Own _ | Inherited => (p, [])
    | Undefined =>
        let call := GetMenuPermissionsApi (default "" roleId) menuId in
        match answer with
        | None => (p, [call; ErrorMessage])
        | Some None =>
            ({| panel_state := panel_state p;
                menuPermissionsCache :=
                  <[menuId := []]> (menuPermissionsCache p) |},
             [call; ErrorMessage])
        | Some (Some perms) =>
            ({| panel_state :=
                  with_selectedPermissions (panel_state p)
                    (foldl set_add (selectedPermissions (panel_state p))
                       (checkedIds perms));
                menuPermissionsCache :=
                  <[menuId := perms]> (menuPermissionsCache p) |},
             [call])
        end
    end.

(** The type a permission is grouped under. *)
Definition typeOf (perm : Permission) : Z :=
  default 3%Z (permission_type perm).

Definition demo_perms : list Permission :=
  [ mkPermission "user:add" (Some 0%Z) true;
    mkPermission "user:list" (Some 1%Z) false;
    mkPermission "user:misc" None true;
    mkPermission "user:odd" (Some 9%Z) true ].

Definition demo_panel : Panel :=
  {| panel_state :=
       {| treeData := demo; selectedMenuIds := ∅; selectedPermissions := ∅;
          expandedMenuIds := ∅; selectedMenuId := Some "user" |};
     menuPermissionsCache := {[ "user" := demo_perms ]} |}.

Definition with_expandedMenuIds (st : State) (e : gset string) : State :=
  {| treeData := treeData st; selectedMenuIds := selectedMenuIds st;
     selectedPermissions := selectedPermissions st;
     expandedMenuIds := e;
     selectedMenuId := selectedMenuId st |}.

(** [toggleMenuExpanded(menuId)] *)
Definition toggleMenuExpanded (menuId : string) (st : State) : State :=
  if decide (menuId ∈ expandedMenuIds st)
  then with_expandedMenuIds st (set_delete (expandedMenuIds st) menuId)
  else with_expandedMenuIds st (set_add (expandedMenuIds st) menuId).

(** [expandAll] of [expandAllMenus]: the ids added, in order. *)
Fixpoint expandAll_node (n : Node) : list string :=
  match n with
  | MenuNode id ch =>
      id :: match ch with
            | None => []
            | Some l => flat_map expandAll_node l
            end
  | PermissionNode _ _ => []
  end.

(** [expandAllMenus()] *)
Definition expandAllMenus (st : State) : State :=
  with_expandedMenuIds st
    (foldl set_add (expandedMenuIds st)
       (flat_map expandAll_node (treeData st))).

(** What [getRoleMenusApi] resolves to. *)
Record RoleMenus : Type := mkRoleMenus {
  menu_tree : option (list Node);
  selected_menu_ids : option (list string)
}.

Inductive TreeEffect : Type :=
| GetRoleMenusApi (roleId : string)
| LoadMenuFailedMessage.

(** [loadMenuTree()], for [props.role?.id = roleId].  [answer] is what
    [getRoleMenusApi] resolves to, [None] when the call fails. *)
Definition loadMenuTree (roleId : option string)
    (answer : option RoleMenus) (p : Panel) : Panel * list TreeEffect :=
  if negb (truthy_opt roleId) then (p, [])
  else
    let call := GetRoleMenusApi (default "" roleId) in
    match answer with
    | None => (p, [call; LoadMenuFailedMessage])
    | Some data =>
        let st :=
          {| treeData := default [] (menu_tree data);
             selectedMenuIds :=
               foldl set_add ∅ (default [] (selected_menu_ids data));
             selectedPermissions := ∅;
             expandedMenuIds := expandedMenuIds (panel_state p);
             selectedMenuId := selectedMenuId (panel_state p) |} in
        ({| panel_state := expandAllMenus st; menuPermissionsCache := ∅ |},
         [call])
    end.

(** The watcher of [props.role?.id]: what runs when the role changes to
    one with id [roleId]. *)
Definition onRoleChange (roleId : option string)
    (answer : option RoleMenus) (p : Panel) : Panel * list TreeEffect :=
  let st := panel_state p in
  if truthy_opt roleId then
    loadMenuTree roleId answer
      (with_state p
         {| treeData := treeData st; selectedMenuIds := selectedMenuIds st;
            selectedPermissions := selectedPermissions st;
            expandedMenuIds := ∅; selectedMenuId := None |})
  else
    (with_state p
       {| treeData := []; selectedMenuIds := ∅; selectedPermissions := ∅;
          expandedMenuIds := ∅; selectedMenuId := None |}, []).

(** Whether a list of effects starts with the permissions call for a menu. *)
Definition fetches (roleId menuId : string) (effs : list PanelEffect) : Prop :=
  head effs = Some (GetMenuPermissionsApi roleId menuId).

End RolePermissionPanel.

(** ** Typed API wrappers: children of a menu *)
Module ApiMenu.
Import Api.

Section Client.
Variables (Params Body Resp : Type).

(** [getMenuByParentApi(parentId?)]: [parentId || 'null'] names the parent
    in the path. *)
Definition getMenuByParentApi (parentId : option string)
  : Promise Params Body Resp Resp :=
  let id := if truthy_opt parentId then default "null" parentId else "null" in
  requestClient_get Params Body Resp
    ("/api/core/menu/by/parent/" +:+ id) (mkConfig Params None).
End Client.

End ApiMenu.

(** ** Operation log: detail drawer and batch deletion *)
Module OperationLogPage.

Record OperationLog : Type := mkLog {
  id : string;
  request_username : string;
  request_method : string;
  status : bool
}.

(** An option of a tag column: label, value and tag type. *)
Record TagOption (V : Type) : Type := mkOption {
  type : string;
  label : string;
  value : V
}.
Arguments mkOption {V} _ _ _.
Arguments type {V} _.
Arguments label {V} _.
Arguments value {V} _.

Section Labels.
(** The translation function [$t]. *)
Variable t : string → string.

(** [getStatusOptions()] *)
Definition getStatusOptions : list (TagOption bool) :=
  [ mkOption "success" (t "operationLog.statusSuccess") true;
    mkOption "danger" (t "operationLog.statusFailed") false ].

(** [getMethodOptions()] *)
Definition getMethodOptions : list (TagOption string) :=
  [ mkOption "info" "GET" "GET";
    mkOption "success" "POST" "POST";
    mkOption "warning" "PUT" "PUT";
    mkOption "danger" "DELETE" "DELETE";
    mkOption "primary" "PATCH" "PATCH" ].

(** [x || d] on strings. *)
Definition or_string (x : option string) (d : string) : string :=
  match x with
  | Some s => if truthy s then s else d
  | None => d
  end.

(** [statusDisplay] *)
Definition statusDisplay (log : option OperationLog) : string :=
  match log with
  | None => ""
  | Some l =>
      or_string
        (label <$> find (λ opt, Bool.eqb (value opt) (status l))
                        getStatusOptions) ""
  end.

(** [statusType] *)
Definition statusType (log : option OperationLog) : string :=
  match log with
  | None => "info"
  | Some l =>
      or_string
        (type <$> find (λ opt, Bool.eqb (value opt) (status l))
                       getStatusOptions) "info"
  end.

(** [methodDisplay] *)
Definition methodDisplay (log : option OperationLog) : string :=
  match log with
  | None => ""
  | Some l =>
      or_string
        (label <$> find (λ opt, bool_decide (value opt = request_method l))
                        getMethodOptions)
        (request_method l)
  end.
End Labels.

Inductive PageEffect : Type :=
| WarningMessage (key : string)
| ConfirmDialog (count : nat) (names : string)
| BatchDeleteApi (ids : list string)
| SuccessMessage (key : string)
| ErrorMessage (key : string)
| RefreshGrid.

(** The separator literal of [names.join(...)], as the source has it. *)
Definition nameSeparator : string := "ã€".

(** [onBatchDelete()]: [confirmed] is the user's answer to the dialog,
    [deleted] whether the batch-delete call succeeded.  The result is the
    selection afterwards and the effects, in order. *)
Definition onBatchDelete (confirmed deleted : bool)
    (selectedRows : list OperationLog)
  : list OperationLog * list PageEffect :=
  if (length selectedRows =? 0)%nat then
    (selectedRows, [WarningMessage "operationLog.selectLogsToDelete"])
  else
    let names :=
      String.concat nameSeparator (map request_username selectedRows) in
    let dialog := ConfirmDialog (length selectedRows) names in
    if confirmed then
      let ids := map id selectedRows in
      if deleted then
        ([], [dialog; BatchDeleteApi ids;
              SuccessMessage "operationLog.deleteSuccess"; RefreshGrid])
      else
        (selectedRows, [dialog; BatchDeleteApi ids;
                        ErrorMessage "operationLog.deleteError"])
    else (selectedRows, [dialog]).

Definition deleteCalls (l : list PageEffect) : list (list string) :=
  flat_map (λ e, match e with BatchDeleteApi ids => [ids] | _ => [] end) l.

End OperationLogPage.

(** ** User form: the mobile field *)
Module UserForm.

(** The fragment of regular expressions the form's patterns use. *)
Inductive Regex : Type :=
| Lit (c : ascii)
| Range (lo hi : ascii)
| Digit
| Seq (r1 r2 : Regex)
| Times (n : nat) (r : Regex).

Definition in_range (lo hi c : ascii) : bool :=
  (nat_of_ascii lo <=? nat_of_ascii c)%nat
  && (nat_of_ascii c <=? nat_of_ascii hi)%nat.

(** Matching a prefix: the rest of the input after the match.  The
    fragment has no alternation, so a match is unique. *)
Fixpoint matchPrefix (r : Regex) (s : list ascii) : option (list ascii) :=
  match r with
  | Lit c =>
      match s with
      | x :: s' => if bool_decide (x = c) then Some s' else None
      | [] => None
      end
  | Range lo hi =>
      match s with
      | x :: s' => if in_range lo hi x then Some s' else None
      | [] => None
      end
  | Digit =>
      match s with
      | x :: s' => if in_range "0" "9" x then Some s' else None
      | [] => None
      end
  | Seq r1 r2 =>
      match matchPrefix r1 s with
      | Some s' => matchPrefix r2 s'
      | None => None
      end
  | Times n r =>
      (fix rep (k : nat) (s : list ascii) : option (list ascii) :=
         match k with
         | O => Some s
         | S k' => match matchPrefix r s with
                   | Some s' => rep k' s'
                   | None => None
                   end
         end) n s
  end.

(** [/^r$/.test(s)] *)
Definition test (r : Regex) (s : string) : bool :=
  match matchPrefix r (String.list_ascii_of_string s) with
  | Some [] => true
  | _ => false
  end.

(** [/^1[3-9]\d{9}$/] *)
Definition mobilePattern : Regex :=
  Seq (Lit "1") (Seq (Range "3" "9") (Times 9 Digit)).

(** The [mobile] rules: [z.string().regex(...).optional().or(z.literal(''))]
    accepts an absent value, a string matching the pattern, and the empty
    string. *)
Definition mobileRule (value : option string) : bool :=
  match value with
  | None => true
  | Some s => test mobilePattern s || bool_decide (s = "")
  end.

Definition is_digit (c : ascii) : bool := in_range "0" "9" c.

End UserForm.

(** * Properties *)

(** ** Generic list facts *)

Lemma elem_of_flat_map {A B : Type} (f : A → list B) (l : list A) (y : B) :
  y ∈ flat_map f l ↔ ∃ x, x ∈ l ∧ y ∈ f x.
Proof.
  induction l as [|a l IH]; simpl.
  - split; [intros H; inversion H | intros (x & H & _); inversion H].
  - rewrite elem_of_app, IH. split.
    + intros [H | (x & Hx & Hy)]; [exists a | exists x]; split; auto; constructor; auto.
    + intros (x & Hx & Hy). apply elem_of_cons in Hx as [-> | Hx]; eauto.
Qed.

Lemma elem_of_map_2 {A B : Type} (f : A → B) (l : list A) (x : A) :
  x ∈ l → f x ∈ map f l.
Proof. rewrite !list_elem_of_In. apply in_map. Qed.

Lemma elem_of_map_1 {A B : Type} (f : A → B) (l : list A) (y : B) :
  y ∈ map f l → ∃ x, f x = y ∧ x ∈ l.
Proof.
  rewrite list_elem_of_In, in_map_iff. intros (x & Hx & Hin).
  exists x. by rewrite list_elem_of_In.
Qed.

Lemma flat_map_Forall_ext {A B : Type} (f g : A → list B) (l : list A) :
  Forall (λ x, f x = g x) l → flat_map f l = flat_map g l.
Proof. induction 1 as [|x l Hx _ IH]; simpl; congruence. Qed.

Lemma map_flat_map {A B C : Type} (h : B → C) (f : A → list B) (l : list A) :
  map h (flat_map f l) = flat_map (λ x, map h (f x)) l.
Proof.
  induction l as [|a l IH]; simpl; [done |].
  by rewrite map_app, IH.
Qed.

Lemma find_app {A : Type} (P : A → bool) (l1 l2 : list A) :
  find P (l1 ++ l2) = match find P l1 with
                      | Some x => Some x
                      | None => find P l2
                      end.
Proof.
  induction l1 as [|a l1 IH]; simpl; [done |].
  destruct (P a); auto.
Qed.

Lemma NoDup_map_inj_on {A B : Type} (f : A → B) (l : list A) (x y : A) :
  NoDup (map f l) → x ∈ l → y ∈ l → f x = f y → x = y.
Proof.
  induction l as [|a l IH]; simpl; intros Hnd Hx Hy Hxy.
  - inversion Hx.
  - apply NoDup_cons in Hnd as [Hna Hnd].
    apply elem_of_cons in Hx as [-> | Hx]; apply elem_of_cons in Hy as [-> | Hy]; auto.
    + exfalso. apply Hna. rewrite Hxy. by apply elem_of_map_2.
    + exfalso. apply Hna. rewrite <- Hxy. by apply elem_of_map_2.
Qed.

Lemma find_NoDup_map {A B : Type} `{EqDecision B} (f : A → B) (l : list A) (x : A) :
  NoDup (map f l) → x ∈ l →
  find (λ y, bool_decide (f y = f x)) l = Some x.
Proof.
  induction l as [|a l IH]; simpl; intros Hnd Hx.
  - inversion Hx.
  - apply NoDup_cons in Hnd as [Hna Hnd].
    apply elem_of_cons in Hx as [-> | Hx].
    + by rewrite bool_decide_eq_true_2.
    + rewrite bool_decide_eq_false_2; [auto |].
      intros Heq. apply Hna. rewrite Heq. by apply elem_of_map_2.
Qed.

Lemma find_none_iff {A : Type} (P : A → bool) (l : list A) :
  find P l = None ↔ ∀ x, x ∈ l → P x = false.
Proof.
  induction l as [|a l IH]; simpl.
  - split; [intros _ x H; inversion H | done].
  - destruct (P a) eqn:Ha.
    + split; [done |]. intros H. specialize (H a). rewrite Ha in H.
      discriminate H. constructor.
    + rewrite IH. split.
      * intros H x Hx. apply elem_of_cons in Hx as [-> | Hx]; auto.
      * intros H x Hx. apply H. by constructor.
Qed.

Lemma flat_map_lookup_take {A B : Type} (g : A → list B) (l : list A)
    (i : nat) (p : B) :
  flat_map g l !! i = Some p →
  ∃ c k, c ∈ l ∧ g c !! k = Some p ∧
         ∀ x, x ∈ take k (g c) → x ∈ take i (flat_map g l).
Proof.
  revert i. induction l as [|a l IH]; intros i; simpl; [done |].
  rewrite lookup_app_Some. intros [H | [Hlen H]].
  - exists a, i. split; [constructor |]. split; [done |].
    intros x Hx. rewrite take_app. apply elem_of_app. by left.
  - destruct (IH _ H) as (c & k & Hc & Hk & Hsub).
    exists c, k. split; [by constructor |]. split; [done |].
    intros x Hx. rewrite take_app. apply elem_of_app. right. by apply Hsub.
Qed.

Lemma find_in_take {A : Type} (f : A → bool) (l : list A) (i : nat)
    (x p : A) :
  x ∈ take i l → f x = true → find f l = Some p →
  ∃ i', (i' < i)%nat ∧ l !! i' = Some p.
Proof.
  revert i. induction l as [|a l IH]; intros i Hx Hfx Hfind.
  - discriminate Hfind.
  - destruct i as [|i]; [inversion Hx |]. simpl in Hx, Hfind.
    destruct (f a) eqn:Ha.
    + injection Hfind as <-. exists 0%nat. split; [lia | done].
    + apply elem_of_cons in Hx as [-> | Hx]; [congruence |].
      destruct (IH _ Hx Hfx Hfind) as (i' & Hlt & Hl).
      exists (S i'). split; [lia | done].
Qed.

(** ** Role-permission panel: cascading selection *)
Module RolePermissionFacts.
Import RolePermission.

Lemma Node_ind' (P : Node → Prop) :
  (∀ id, P (MenuNode id None)) →
  (∀ id l, Forall P l → P (MenuNode id (Some l))) →
  (∀ id c, P (PermissionNode id c)) →
  ∀ n, P n.
Proof.
  intros Hleaf Hmenu Hperm. fix IH 1. intros [id [l|]|id c].
  - apply Hmenu. induction l as [|c l IHl]; constructor; [apply IH | exact IHl].
  - apply Hleaf.
  - apply Hperm.
Qed.

(** *** Paths *)

Lemma menuPaths_node_up (up : list string) (n : Node) :
  menuPaths_node up n = map (λ p, p ++ up) (menuPaths_node [] n).
Proof.
  revert up. induction n as [id | id l IH | id c] using Node_ind'; intros up; simpl; [done | | done].
  f_equal. rewrite map_flat_map. apply flat_map_Forall_ext.
  eapply Forall_impl; [exact IH |]. intros c Hc; simpl in Hc.
  rewrite (Hc (id :: up)), (Hc [id]), map_map.
  apply map_ext. intros p. by rewrite <- app_assoc.
Qed.

Lemma menuPaths_up (up : list string) (ns : list Node) :
  menuPaths up ns = map (λ p, p ++ up) (menuPaths [] ns).
Proof.
  unfold menuPaths. rewrite map_flat_map. apply flat_map_Forall_ext.
  apply Forall_forall. intros n _. apply menuPaths_node_up.
Qed.

(** The heads of the paths are the menu ids in preorder. *)
Lemma menuPaths_node_heads (up : list string) (n : Node) :
  map (hd "") (menuPaths_node up n) = collectDescendants_node n.
Proof.
  revert up. induction n as [id | id l IH | id c] using Node_ind'; intros up; simpl; [done | | done].
  f_equal. rewrite map_flat_map. apply flat_map_Forall_ext.
  eapply Forall_impl; [exact IH |]. intros c Hc; simpl in Hc. apply Hc.
Qed.

Lemma menuPaths_heads (up : list string) (ns : list Node) :
  map (hd "") (menuPaths up ns) = collectDescendants (Some ns).
Proof.
  unfold menuPaths; simpl. rewrite map_flat_map. apply flat_map_Forall_ext.
  apply Forall_forall. intros n _. apply menuPaths_node_heads.
Qed.

(** Every path is a menu id followed by a path one level up. *)
Lemma menuPaths_node_tail (up : list string) (n : Node) (p : list string) :
  p ∈ menuPaths_node up n →
  ∃ x tl, p = x :: tl ∧ (tl = up ∨ tl ∈ menuPaths_node up n).
Proof.
  revert up p. induction n as [id | id l IH | id c] using Node_ind'; intros up p; simpl.
  - intros H. apply list_elem_of_singleton in H as ->. eauto.
  - intros H. apply elem_of_cons in H as [-> | H]; [eauto |].
    apply elem_of_flat_map in H as (c & Hc & Hp).
    rewrite Forall_forall in IH.
    destruct (IH c Hc _ _ Hp) as (x & tl & -> & [-> | Htl]).
    + exists x, (id :: up). split; [done |]. right. constructor.
    + exists x, tl. split; [done |]. right. apply elem_of_cons; right.
      apply elem_of_flat_map. eauto.
  - intros H. inversion H.
Qed.

Lemma menuPaths_tail (up : list string) (ns : list Node) (p : list string) :
  p ∈ menuPaths up ns →
  ∃ x tl, p = x :: tl ∧ (tl = up ∨ tl ∈ menuPaths up ns).
Proof.
  intros H. apply elem_of_flat_map in H as (n & Hn & Hp).
  destruct (menuPaths_node_tail _ _ _ Hp) as (x & tl & -> & [-> | Htl]); eauto.
  exists x, tl. split; [done |]. right. apply elem_of_flat_map. eauto.
Qed.

Lemma menuPaths_suffix (tree : list Node) (l1 : list string) (x : string)
    (l2 : list string) :
  (l1 ++ x :: l2) ∈ menuPaths [] tree → (x :: l2) ∈ menuPaths [] tree.
Proof.
  induction l1 as [|y l1 IH]; simpl; [done |].
  intros H. destruct (menuPaths_tail _ _ _ H) as (z & tl & Heq & [-> | Htl]).
  - injection Heq as _ Heq. by destruct l1.
  - injection Heq as _ Heq. subst tl. auto.
Qed.

Lemma menuPaths_length (up : list string) (n : Node) (p : list string) :
  p ∈ menuPaths_node up n →
  (length p ≤ length up + length (collectDescendants_node n))%nat.
Proof.
  revert up p. induction n as [id | id l IH | id c] using Node_ind'; intros up p; simpl.
  - intros H. apply list_elem_of_singleton in H as ->. simpl. lia.
  - intros H. apply elem_of_cons in H as [-> | H]; [simpl; lia |].
    apply elem_of_flat_map in H as (c & Hc & Hp).
    rewrite Forall_forall in IH. specialize (IH c Hc _ _ Hp). simpl in IH.
    assert (length (collectDescendants_node c)
            ≤ length (flat_map collectDescendants_node l))%nat as Hle.
    { clear -Hc. induction l as [|a l IHl]; [inversion Hc |].
      simpl. rewrite length_app.
      apply elem_of_cons in Hc as [-> | Hc]; [lia |]. specialize (IHl Hc). lia. }
    lia.
  - intros H. inversion H.
Qed.

Lemma menuPaths_length_tree (tree : list Node) (p : list string) :
  p ∈ menuPaths [] tree → (length p ≤ menuCount tree)%nat.
Proof.
  unfold menuCount. revert p. induction tree as [|n tree IH]; intros p H.
  - inversion H.
  - unfold menuPaths in H. simpl in H. apply elem_of_app in H as [H | H].
    + apply menuPaths_length in H. simpl in *. rewrite length_app. lia.
    + apply IH in H. simpl in *. rewrite length_app. lia.
Qed.

Section WellFormed.
Variable tree : list Node.
Hypothesis Hwf : well_formed tree.

(** A menu has one path only. *)
Lemma path_unique (m : string) (u1 u2 : list string) :
  (m :: u1) ∈ menuPaths [] tree → (m :: u2) ∈ menuPaths [] tree → u1 = u2.
Proof.
  intros H1 H2.
  assert (m :: u1 = m :: u2) as Heq; [| by injection Heq].
  eapply (NoDup_map_inj_on (hd "")); eauto.
Qed.

Lemma path_NoDup (p : list string) :
  p ∈ menuPaths [] tree → NoDup p.
Proof.
  induction p as [|x r IH]; intros Hp; [constructor |].
  apply NoDup_cons. split.
  - intros Hx. apply list_elem_of_split in Hx as (l1 & l2 & ->).
    assert ((x :: l2) ∈ menuPaths [] tree) as Hs.
    { apply (menuPaths_suffix tree (x :: l1)). exact Hp. }
    pose proof (path_unique _ _ _ Hp Hs) as Heq.
    apply (f_equal length) in Heq. rewrite length_app in Heq. simpl in Heq. lia.
  - destruct r as [|y r]; [constructor |].
    apply IH. apply (menuPaths_suffix tree [x]). exact Hp.
Qed.

Lemma ancestor_of_path (a m : string) (up : list string) :
  (m :: up) ∈ menuPaths [] tree → ancestor_of tree a m ↔ a ∈ up.
Proof.
  intros Hp. split.
  - intros (up' & Hp' & Ha). by rewrite (path_unique _ _ _ Hp Hp').
  - intros Ha. by exists up.
Qed.

Lemma ancestor_of_trans (a b c : string) :
  ancestor_of tree a b → ancestor_of tree b c → ancestor_of tree a c.
Proof.
  intros Hab (up & Hc & Hb). exists up. split; [done |].
  apply list_elem_of_split in Hb as (l1 & l2 & ->).
  assert ((b :: l2) ∈ menuPaths [] tree) as Hs.
  { apply (menuPaths_suffix tree (c :: l1)). exact Hc. }
  apply (ancestor_of_path _ _ _ Hs) in Hab.
  apply elem_of_app. right. by apply elem_of_cons; right.
Qed.

Lemma ancestor_of_irrefl (a : string) : ¬ ancestor_of tree a a.
Proof.
  intros (up & Hp & Ha). apply path_NoDup in Hp.
  apply NoDup_cons in Hp as [Hn _]. by apply Hn.
Qed.

(** Two ancestors of one menu are comparable. *)
Lemma ancestor_of_chain (a b c : string) :
  ancestor_of tree a c → ancestor_of tree b c →
  a = b ∨ ancestor_of tree a b ∨ ancestor_of tree b a.
Proof.
  intros (up & Hc & Ha) Hb. apply (ancestor_of_path _ _ _ Hc) in Hb.
  apply list_elem_of_split in Ha as (l1 & l2 & ->).
  apply elem_of_app in Hb as [Hb | Hb].
  - right; left. apply list_elem_of_split in Hb as (k1 & k2 & ->).
    exists (k2 ++ a :: l2). split.
    + apply (menuPaths_suffix tree (c :: k1)).
      rewrite <- app_assoc in Hc. exact Hc.
    + apply elem_of_app. right. constructor.
  - apply elem_of_cons in Hb as [-> | Hb]; [by left |].
    right; right. exists l2. split; [| done].
    apply (menuPaths_suffix tree (c :: l1)). exact Hc.
Qed.

End WellFormed.

(** *** [getDescendantMenuIds] returns the menus below [menuId] *)

Lemma collectDescendants_node_paths (n : Node) (d : string) :
  d ∈ collectDescendants_node n ↔ ∃ r, (d :: r) ∈ menuPaths_node [] n.
Proof.
  rewrite <- (menuPaths_node_heads [] n). split.
  - intros H. apply elem_of_map_1 in H as (p & Hd & Hp).
    destruct (menuPaths_node_tail _ _ _ Hp) as (x & tl & -> & _).
    simpl in Hd. subst x. eauto.
  - intros (r & Hr). by apply (elem_of_map_2 (hd "")) in Hr.
Qed.

Lemma findAndCollect_node_paths (menuId : string) (n : Node) (d : string) :
  d ∈ findAndCollect_node menuId n ↔
  ∃ r, (d :: r) ∈ menuPaths_node [] n ∧ menuId ∈ r.
Proof.
  revert d. induction n as [id | id l IH | id c] using Node_ind'; intros d; simpl.
  - destruct (decide (id = menuId)); simpl.
    + split; [intros H; inversion H |].
      intros (r & H & Hm). apply list_elem_of_singleton in H.
      injection H as _ ->. inversion Hm.
    + split; [intros H; inversion H |].
      intros (r & H & Hm). apply list_elem_of_singleton in H.
      injection H as _ ->. inversion Hm.
  - rewrite Forall_forall in IH. destruct (decide (id = menuId)) as [-> | Hne]; simpl.
    + rewrite elem_of_flat_map. split.
      * intros (c & Hc & Hd). apply collectDescendants_node_paths in Hd as (r & Hr).
        exists (r ++ [menuId]). split.
        -- apply elem_of_cons; right. apply elem_of_flat_map. exists c. split; [done |].
           rewrite menuPaths_node_up. by apply (elem_of_map_2 (λ p, p ++ [menuId])) in Hr.
        -- apply elem_of_app. right. constructor.
      * intros (r & H & Hm). apply elem_of_cons in H as [H | H].
        { injection H as _ ->. inversion Hm. }
        apply elem_of_flat_map in H as (c & Hc & Hp). exists c. split; [done |].
        rewrite menuPaths_node_up in Hp. apply elem_of_map_1 in Hp as (p & Hp & Hin).
        destruct (menuPaths_node_tail _ _ _ Hin) as (x & tl & -> & _).
        simpl in Hp. injection Hp as -> _.
        apply collectDescendants_node_paths. eauto.
    + rewrite elem_of_flat_map. split.
      * intros (c & Hc & Hd). apply (IH c Hc) in Hd as (r & Hr & Hm).
        exists (r ++ [id]). split.
        -- apply elem_of_cons; right. apply elem_of_flat_map. exists c. split; [done |].
           rewrite menuPaths_node_up. by apply (elem_of_map_2 (λ p, p ++ [id])) in Hr.
        -- apply elem_of_app. by left.
      * intros (r & H & Hm). apply elem_of_cons in H as [H | H].
        { injection H as _ ->. inversion Hm. }
        apply elem_of_flat_map in H as (c & Hc & Hp). exists c. split; [done |].
        rewrite menuPaths_node_up in Hp. apply elem_of_map_1 in Hp as (p & Hp & Hin).
        destruct (menuPaths_node_tail _ _ _ Hin) as (x & tl & -> & _).
        simpl in Hp. injection Hp as -> <-.
        apply (IH c Hc). exists tl. split; [done |].
        apply elem_of_app in Hm as [Hm | Hm]; [done |].
        apply list_elem_of_singleton in Hm. congruence.
  - split; [intros H; inversion H | intros (r & H & _); inversion H].
Qed.

Lemma getDescendantMenuIds_spec (tree : list Node) (m d : string) :
  d ∈ getDescendantMenuIds tree m ↔ ancestor_of tree m d.
Proof.
  unfold getDescendantMenuIds, ancestor_of, menuPaths; simpl.
  rewrite elem_of_flat_map. split.
  - intros (n & Hn & Hd). apply findAndCollect_node_paths in Hd as (r & Hr & Hm).
    exists r. split; [| done]. apply elem_of_flat_map. eauto.
  - intros (r & Hr & Hm). apply elem_of_flat_map in Hr as (n & Hn & Hr).
    exists n. split; [done |]. apply findAndCollect_node_paths. eauto.
Qed.

(** *** [getAncestorMenuIds] returns the path from the parent to the root *)

Lemma for_of_until_found (restart : string → list string)
    (f : Node → bool * list string) (g : Node → list (list string))
    (P : list string → bool) (l : list Node) :
  Forall (λ n, f n = found_result restart (find P (g n))) l →
  for_of_until f l = found_result restart (find P (flat_map g l)).
Proof.
  induction 1 as [|n l Hn _ IH]; simpl; [done |].
  rewrite find_app, Hn. destruct (find P (g n)); simpl; [done |].
  exact IH.
Qed.

Lemma findParent_node_spec (restart : string → list string)
    (target : string) (up : list string) (n : Node) :
  findParent_node restart target (head up) n
  = found_result restart (find (heads target) (menuPaths_node up n)).
Proof.
  revert up. induction n as [id | id l IH | id c] using Node_ind'; intros up; simpl.
  - unfold heads at 1; simpl. destruct (decide (id = target)) as [-> | Hne].
    + rewrite bool_decide_eq_true_2 by done. simpl. by destruct up.
    + by rewrite bool_decide_eq_false_2.
  - unfold heads at 1; simpl. destruct (decide (id = target)) as [-> | Hne].
    + rewrite bool_decide_eq_true_2 by done. simpl. by destruct up.
    + rewrite bool_decide_eq_false_2 by done.
      apply for_of_until_found. eapply Forall_impl; [exact IH |].
      intros c Hc; simpl in Hc. apply (Hc (id :: up)).
  - done.
Qed.

Lemma findParent_spec (restart : string → list string)
    (tree : list Node) (target : string) :
  findParent restart (Some tree) target None
  = found_result restart (find (heads target) (menuPaths [] tree)).
Proof.
  unfold findParent, menuPaths. apply for_of_until_found.
  apply Forall_forall. intros n _. apply (findParent_node_spec restart target []).
Qed.

Lemma find_heads_path (tree : list Node) (m : string) (up : list string) :
  well_formed tree → (m :: up) ∈ menuPaths [] tree →
  find (heads m) (menuPaths [] tree) = Some (m :: up).
Proof.
  intros Hwf Hp.
  by apply (find_NoDup_map (hd "") (menuPaths [] tree) (m :: up)).
Qed.

Lemma find_heads_absent (tree : list Node) (m : string) :
  (∀ up, (m :: up) ∉ menuPaths [] tree) →
  find (heads m) (menuPaths [] tree) = None.
Proof.
  intros Hno. apply find_none_iff. intros p Hp.
  destruct (menuPaths_tail _ _ _ Hp) as (x & tl & -> & _).
  unfold heads; simpl. apply bool_decide_eq_false_2. intros ->.
  by apply (Hno tl).
Qed.

Lemma getAncestorsFuel_S (tree : list Node) (fuel : nat) (m : string) :
  getAncestorsFuel tree (S fuel) m
  = snd (findParent (getAncestorsFuel tree fuel) (Some tree) m None).
Proof. reflexivity. Qed.

(** Enough fuel: one unit per level of the path. *)
Lemma getAncestorsFuel_climb (tree : list Node) (fuel : nat) (m : string)
    (up : list string) :
  well_formed tree →
  (m :: up) ∈ menuPaths [] tree → (length up < fuel)%nat →
  getAncestorsFuel tree fuel m = climb up.
Proof.
  intros Hwf. revert m fuel. induction up as [|q r IH]; intros m fuel Hp Hlen.
  - destruct fuel as [|fuel]; [simpl in Hlen; lia |].
    by rewrite getAncestorsFuel_S, findParent_spec, (find_heads_path _ _ _ Hwf Hp).
  - destruct fuel as [|fuel]; [simpl in Hlen; lia |].
    rewrite getAncestorsFuel_S, findParent_spec, (find_heads_path _ _ _ Hwf Hp). simpl.
    destruct (truthy q); [| done].
    f_equal. apply IH.
    + apply (menuPaths_suffix tree [m]). exact Hp.
    + simpl in Hlen. lia.
Qed.

Lemma climb_truthy (up : list string) :
  (∀ a, a ∈ up → a ≠ "") → climb up = up.
Proof.
  induction up as [|q r IH]; intros H; simpl; [done |].
  assert (truthy q = true) as ->.
  { unfold truthy. apply negb_true_iff, bool_decide_eq_false_2, H. constructor. }
  f_equal. apply IH. intros a Ha. apply H. by constructor.
Qed.

Lemma getAncestorsFuel_path (tree : list Node) (fuel : nat) (m : string)
    (up : list string) :
  well_formed tree → parents_truthy tree →
  (m :: up) ∈ menuPaths [] tree → (length up < fuel)%nat →
  getAncestorsFuel tree fuel m = up.
Proof.
  intros Hwf Htr Hp Hlen. rewrite (getAncestorsFuel_climb _ _ _ up); auto.
  apply climb_truthy. intros a. apply (Htr m up a Hp).
Qed.

Lemma getAncestorMenuIds_path (tree : list Node) (m : string)
    (up : list string) :
  well_formed tree → parents_truthy tree →
  (m :: up) ∈ menuPaths [] tree → getAncestorMenuIds tree m = up.
Proof.
  intros Hwf Htr Hp. apply getAncestorsFuel_path; auto.
  apply menuPaths_length_tree in Hp. simpl in Hp. lia.
Qed.

Lemma getAncestorMenuIds_absent (tree : list Node) (m : string) :
  (∀ up, (m :: up) ∉ menuPaths [] tree) → getAncestorMenuIds tree m = [].
Proof.
  intros Hno. unfold getAncestorMenuIds.
  by rewrite getAncestorsFuel_S, findParent_spec, (find_heads_absent _ _ Hno).
Qed.

(** In the preorder listing a menu's parent comes before the menu. *)
Lemma menuPaths_node_parent_before (up : list string) (n : Node) (i : nat)
    (p : list string) :
  menuPaths_node up n !! i = Some p →
  tail p = up ∨ tail p ∈ take i (menuPaths_node up n).
Proof.
  revert up i p. induction n as [id | id l IH | id c] using Node_ind';
    intros up i p; simpl.
  - destruct i as [|i]; [| done]. intros H. injection H as <-. by left.
  - destruct i as [|i]; [intros H; injection H as <-; by left |].
    intros H. cbn [lookup list_lookup] in H.
    apply flat_map_lookup_take in H as (c & k & Hc & Hk & Hsub).
    rewrite Forall_forall in IH.
    destruct (IH c Hc _ _ _ Hk) as [-> | Hin]; right.
    + constructor.
    + cbn [take]. apply elem_of_cons; right. by apply Hsub.
  - done.
Qed.

Lemma menuPaths_parent_before (tree : list Node) (i : nat)
    (p : list string) :
  menuPaths [] tree !! i = Some p →
  tail p = [] ∨ tail p ∈ take i (menuPaths [] tree).
Proof.
  intros H. apply flat_map_lookup_take in H as (n & k & Hn & Hk & Hsub).
  destruct (menuPaths_node_parent_before _ _ _ _ Hk) as [-> | Hin]; auto.
Qed.

(** Each restart looks for a menu listed strictly earlier, so the results
    of [getAncestorsFuel] no longer depend on the fuel once it exceeds the
    position of the first menu looked for. *)
Lemma getAncestorsFuel_irrelevant (tree : list Node) (k : nat) :
  ∀ m f1 f2, (k < f1)%nat → (k < f2)%nat →
    (∀ p, find (heads m) (menuPaths [] tree) = Some p →
          ∃ i, (i ≤ k)%nat ∧ menuPaths [] tree !! i = Some p) →
    getAncestorsFuel tree f1 m = getAncestorsFuel tree f2 m.
Proof.
  induction k as [|k IH]; intros m f1 f2 H1 H2 Hidx;
    (destruct f1 as [|f1]; [lia |]); (destruct f2 as [|f2]; [lia |]);
    rewrite !getAncestorsFuel_S, !findParent_spec;
    (destruct (find (heads m) (menuPaths [] tree)) as [p|] eqn:Hf; [| done]);
    cbn [found_result snd];
    (destruct (tail p) as [|q r] eqn:Ht; [done |]);
    (destruct (truthy q); [| done]); f_equal;
    destruct (Hidx p eq_refl) as (i & Hi & Hl);
    (destruct (menuPaths_parent_before _ _ _ Hl) as [Hnil | Hin];
      [congruence |]); rewrite Ht in Hin.
  - assert (i = 0%nat) as -> by lia. inversion Hin.
  - apply IH; [lia | lia |]. intros p' Hp'.
    destruct (find_in_take (heads q) _ i (q :: r) p' Hin) as (i' & Hlt & Hl');
      [by apply bool_decide_eq_true_2 | done |].
    exists i'. split; [lia | done].
Qed.

(** More fuel than the menu count changes nothing, for any tree. *)
Lemma getAncestorsFuel_stable (tree : list Node) (fuel : nat) (m : string) :
  (menuCount tree < fuel)%nat →
  getAncestorsFuel tree fuel m = getAncestorMenuIds tree m.
Proof.
  intros Hlen. unfold getAncestorMenuIds.
  apply (getAncestorsFuel_irrelevant tree (menuCount tree)); [lia | lia |].
  intros p Hp. apply find_some in Hp as [Hin _].
  apply list_elem_of_In, list_elem_of_lookup in Hin as (i & Hi).
  exists i. split; [| done]. apply lookup_lt_Some in Hi.
  unfold menuCount. rewrite <- (menuPaths_heads [] tree), length_map. lia.
Qed.

Lemma getAncestorMenuIds_spec (tree : list Node) (m a : string) :
  well_formed tree → parents_truthy tree →
  a ∈ getAncestorMenuIds tree m ↔ ancestor_of tree a m.
Proof.
  intros Hwf Htr.
  destruct (find (heads m) (menuPaths [] tree)) as [p|] eqn:Hf.
  - apply find_some in Hf as [Hin Hh]. apply list_elem_of_In in Hin.
    destruct (menuPaths_tail _ _ _ Hin) as (x & tl & -> & _).
    unfold heads in Hh; simpl in Hh. apply bool_decide_eq_true_1 in Hh. subst x.
    rewrite (getAncestorMenuIds_path _ _ _ Hwf Htr Hin).
    symmetry. by apply ancestor_of_path.
  - assert (∀ up, (m :: up) ∉ menuPaths [] tree) as Hno.
    { intros up Hup. rewrite find_none_iff in Hf. specialize (Hf _ Hup).
      unfold heads in Hf; simpl in Hf. by rewrite bool_decide_eq_true_2 in Hf. }
    rewrite (getAncestorMenuIds_absent _ _ Hno). split.
    + intros H; inversion H.
    + intros (up & Hup & _). by apply Hno in Hup.
Qed.

(** *** Folding over the selection set *)

Lemma foldl_set_add (sel : gset string) (l : list string) (x : string) :
  x ∈ foldl set_add sel l ↔ x ∈ sel ∨ x ∈ l.
Proof.
  revert sel. induction l as [|a l IH]; intros sel; simpl.
  - split; [auto | intros [H | H]; [done | inversion H]].
  - rewrite IH. unfold set_add.
    rewrite elem_of_union, elem_of_singleton, elem_of_cons. tauto.
Qed.

Lemma foldl_set_delete (sel : gset string) (l : list string) (x : string) :
  x ∈ foldl set_delete sel l ↔ x ∈ sel ∧ x ∉ l.
Proof.
  revert sel. induction l as [|a l IH]; intros sel; simpl.
  - split; [intros H; split; [done | intros H'; inversion H'] | by intros [H _]].
  - rewrite IH. unfold set_delete.
    rewrite elem_of_difference, not_elem_of_singleton, not_elem_of_cons. tauto.
Qed.

Lemma hasSelectedDescendants_spec (tree : list Node) (sel : gset string)
    (a : string) :
  hasSelectedDescendants tree sel a = true ↔
  ∃ d, ancestor_of tree a d ∧ d ∈ sel.
Proof.
  unfold hasSelectedDescendants. rewrite existsb_exists. split.
  - intros (d & Hd & Hs). apply list_elem_of_In, getDescendantMenuIds_spec in Hd.
    apply bool_decide_eq_true_1 in Hs. eauto.
  - intros (d & Hd & Hs). exists d. split.
    + by apply list_elem_of_In, getDescendantMenuIds_spec.
    + by apply bool_decide_eq_true_2.
Qed.

Lemma prune_elem (tree : list Node) (acc : gset string) (a x : string) :
  x ∈ prune tree acc a ↔
  x ∈ acc ∧ (x = a → ∃ d, ancestor_of tree a d ∧ d ∈ acc).
Proof.
  unfold prune. destruct (hasSelectedDescendants tree acc a) eqn:Hh; simpl.
  - apply hasSelectedDescendants_spec in Hh. split; [auto | by intros [H _]].
  - unfold set_delete. rewrite elem_of_difference, not_elem_of_singleton. split.
    + intros [H Hne]. split; [done |]. intros ->. done.
    + intros [H Himp]. split; [done |]. intros ->.
      destruct (Himp eq_refl) as (d & Hd & Hs).
      assert (hasSelectedDescendants tree acc a = true) as Ht
        by (apply hasSelectedDescendants_spec; eauto).
      congruence.
Qed.

Lemma foldl_prune_subset (tree : list Node) (l : list string)
    (sel : gset string) (x : string) :
  x ∈ foldl (prune tree) sel l → x ∈ sel.
Proof.
  revert sel. induction l as [|a l IH]; intros sel; simpl; [done |].
  intros H. apply IH in H. by apply prune_elem in H as [H _].
Qed.

Lemma foldl_prune_other (tree : list Node) (l : list string)
    (sel : gset string) (x : string) :
  x ∉ l → x ∈ foldl (prune tree) sel l ↔ x ∈ sel.
Proof.
  revert sel. induction l as [|a l IH]; intros sel Hx; simpl; [done |].
  apply not_elem_of_cons in Hx as [Hne Hx].
  rewrite (IH _ Hx), prune_elem. split; [by intros [H _] | intros H; split; [done |]].
  intros ->. done.
Qed.

Lemma foldl_prune_ancestor (tree : list Node) (l : list string)
    (sel : gset string) (a : string) :
  NoDup l → bottom_up tree l → a ∈ l →
  a ∈ foldl (prune tree) sel l ↔
  a ∈ sel ∧ ∃ d, ancestor_of tree a d ∧ d ∈ foldl (prune tree) sel l.
Proof.
  revert sel. induction l as [|b l IH]; intros sel Hnd Hbu Ha; [inversion Ha |].
  apply NoDup_cons in Hnd as [Hnb Hnd]. destruct Hbu as [Hb Hbu].
  apply elem_of_cons in Ha as [-> | Ha].
  - simpl. rewrite (foldl_prune_other _ _ _ _ Hnb), prune_elem. split.
    + intros [Hs Himp]. split; [done |].
      destruct (Himp eq_refl) as (d & Hd & Hds). exists d. split; [done |].
      change (d ∈ foldl (prune tree) sel (b :: l)).
      by apply foldl_prune_other; [apply Hb |].
    + intros [Hs (d & Hd & Hds)]. split; [done |]. intros _. exists d. split; [done |].
      change (d ∈ foldl (prune tree) sel (b :: l)) in Hds.
      by apply foldl_prune_other in Hds; [| apply Hb].
  - simpl. rewrite (IH _ Hnd Hbu Ha), prune_elem.
    assert (a ≠ b) by (intros ->; done). tauto.
Qed.

Lemma path_bottom_up (tree : list Node) (m : string) (up : list string) :
  well_formed tree → (m :: up) ∈ menuPaths [] tree → bottom_up tree up.
Proof.
  intros Hwf. revert m. induction up as [|q r IH]; intros m Hp; simpl; [done |].
  assert ((q :: r) ∈ menuPaths [] tree) as Hq
    by (apply (menuPaths_suffix tree [m]); exact Hp).
  split; [| by apply (IH q)].
  intros d Hd Hin. apply elem_of_cons in Hin as [-> | Hin].
  - by apply (ancestor_of_irrefl tree Hwf q).
  - apply (ancestor_of_irrefl tree Hwf q).
    apply (ancestor_of_trans tree Hwf q d q); [done |].
    by apply (ancestor_of_path tree Hwf d q r).
Qed.

(** *** The cascade *)

Lemma toggleMenuIds_select (tree : list Node) (m : string)
    (sel : gset string) (x : string) :
  well_formed tree → parents_truthy tree → m ∉ sel →
  x ∈ toggleMenuIds tree m sel ↔
  x ∈ sel ∨ x = m ∨ ancestor_of tree m x ∨ ancestor_of tree x m.
Proof.
  intros Hwf Htr Hm. unfold toggleMenuIds. rewrite decide_False by done.
  rewrite !foldl_set_add. unfold set_add.
  rewrite elem_of_union, elem_of_singleton,
    getDescendantMenuIds_spec, getAncestorMenuIds_spec by done.
  tauto.
Qed.

Lemma toggleMenuIds_deselect_sub (tree : list Node) (m : string)
    (sel : gset string) (x : string) :
  m ∈ sel → x ∈ toggleMenuIds tree m sel →
  x ∈ sel ∧ x ≠ m ∧ ¬ ancestor_of tree m x.
Proof.
  intros Hm. unfold toggleMenuIds. rewrite decide_True by done.
  intros H. apply foldl_prune_subset, foldl_set_delete in H as [H Hd].
  unfold set_delete in H.
  rewrite elem_of_difference, not_elem_of_singleton in H.
  rewrite getDescendantMenuIds_spec in Hd. tauto.
Qed.

Lemma toggleMenuIds_deselect_other (tree : list Node) (m : string)
    (sel : gset string) (x : string) :
  well_formed tree → parents_truthy tree → m ∈ sel →
  ¬ ancestor_of tree x m →
  x ∈ toggleMenuIds tree m sel ↔ x ∈ sel ∧ x ≠ m ∧ ¬ ancestor_of tree m x.
Proof.
  intros Hwf Htr Hm Hx. unfold toggleMenuIds. rewrite decide_True by done.
  rewrite foldl_prune_other by (by rewrite getAncestorMenuIds_spec).
  rewrite foldl_set_delete. unfold set_delete.
  rewrite elem_of_difference, not_elem_of_singleton, getDescendantMenuIds_spec.
  tauto.
Qed.

Lemma toggleMenuIds_deselect_ancestor (tree : list Node) (m : string)
    (sel : gset string) (a : string) :
  well_formed tree → parents_truthy tree → m ∈ sel →
  ancestor_of tree a m →
  a ∈ toggleMenuIds tree m sel ↔
  a ∈ sel ∧ ∃ d, ancestor_of tree a d ∧ d ∈ toggleMenuIds tree m sel.
Proof.
  intros Hwf Htr Hm Ha. pose proof Ha as (up & Hp & Hin).
  unfold toggleMenuIds. rewrite decide_True by done.
  rewrite (getAncestorMenuIds_path _ _ _ Hwf Htr Hp).
  rewrite foldl_prune_ancestor; [| | by eapply path_bottom_up | done].
  - rewrite foldl_set_delete. unfold set_delete.
    rewrite elem_of_difference, not_elem_of_singleton, getDescendantMenuIds_spec.
    assert (a ≠ m) by (intros ->; by apply (ancestor_of_irrefl tree Hwf m)).
    assert (¬ ancestor_of tree m a).
    { intros H'. apply (ancestor_of_irrefl tree Hwf m).
      by apply (ancestor_of_trans tree Hwf m a m). }
    tauto.
  - apply path_NoDup in Hp; [| done]. by apply NoDup_cons in Hp as [_ Hp].
Qed.

(** Decidable forms of the hypotheses, for concrete trees. *)
Lemma parents_truthy_check (tree : list Node) :
  Forall (λ p, Forall (λ a, a ≠ "") (tail p)) (menuPaths [] tree) →
  parents_truthy tree.
Proof.
  intros H m up a Hp Ha. rewrite Forall_forall in H. specialize (H _ Hp).
  simpl in H. rewrite Forall_forall in H. by apply H.
Qed.

Lemma closed_check (tree : list Node) (sel : gset string) :
  Forall (λ p, hd "" p ∈ sel → Forall (λ a, a ∈ sel) (tail p))
         (menuPaths [] tree) →
  closed tree sel.
Proof.
  intros H x a Hx (up & Hp & Ha). rewrite Forall_forall in H.
  specialize (H _ Hp Hx). simpl in H. rewrite Forall_forall in H. by apply H.
Qed.

Example demo_desc :
  getDescendantMenuIds demo "sys" = ["user"; "user-detail"; "role"].
Proof. reflexivity. Qed.

Example demo_anc : getAncestorMenuIds demo "user-detail" = ["user"; "sys"].
Proof. reflexivity. Qed.

Example demo_paths :
  menuPaths [] demo =
  [ ["sys"]; ["user"; "sys"]; ["user-detail"; "user"; "sys"];
    ["role"; "sys"]; ["log"] ].
Proof. reflexivity. Qed.

Example demo_toggle_on :
  toggleMenuIds demo "user" ∅ = {[ "user"; "user-detail"; "sys" ]}.
Proof. vm_compute. reflexivity. Qed.

Example demo_toggle_off :
  toggleMenuIds demo "user-detail" {[ "user"; "user-detail"; "sys" ]} = ∅.
Proof. vm_compute. reflexivity. Qed.

Example demo_toggle_off_keep :
  toggleMenuIds demo "user-detail" {[ "user"; "user-detail"; "sys"; "role" ]}
  = {[ "sys"; "role" ]}.
Proof. vm_compute. reflexivity. Qed.

(** Away from empty parent ids the cascade holds.  For every tree in which
    each menu occurs once and no menu with a child menu has the empty id,
    and every selection closed under ancestors, [toggleMenu m] keeps the
    selection closed; if
    [m] was unselected then [m], the menus below it and its ancestors are
    selected afterwards; if [m] was selected then [m] and the menus below it
    are unselected afterwards and an ancestor of [m] stays selected exactly
    when a menu below it is still selected. *)
Theorem toggleMenu_cascade (st : State) (m : string) :
  well_formed (treeData st) → parents_truthy (treeData st) →
  closed (treeData st) (selectedMenuIds st) →
  cascade st m.
Proof.
  intros Hwf Htr Hcl. unfold cascade. cbn [selectedMenuIds toggleMenu treeData].
  set (tree := treeData st) in *. set (sel := selectedMenuIds st) in *.
  split; [| split].
  - intros x a Hx Hax. destruct (decide (m ∈ sel)) as [Hm | Hm].
    + destruct (toggleMenuIds_deselect_sub _ _ _ _ Hm Hx) as (Hxs & Hxm & Hxd).
      pose proof (Hcl _ _ Hxs Hax) as Has.
      destruct (decide (a ∈ getAncestorMenuIds tree m)) as [Ha | Ha];
        rewrite getAncestorMenuIds_spec in Ha by done.
      * apply toggleMenuIds_deselect_ancestor; eauto.
      * apply toggleMenuIds_deselect_other; auto. split; [done |]. split.
        -- intros ->. done.
        -- intros Hma. apply Hxd. by apply (ancestor_of_trans tree Hwf m a x).
    + apply toggleMenuIds_select; auto.
      apply toggleMenuIds_select in Hx as [Hx | [-> | [Hx | Hx]]]; auto.
      * left. by apply (Hcl x a).
      * destruct (ancestor_of_chain tree Hwf a m x Hax Hx) as [-> | [H | H]]; auto.
      * right; right; right. by apply (ancestor_of_trans tree Hwf a x m).
  - intros Hm. split; [| split].
    + apply toggleMenuIds_select; auto.
    + intros d Hd. apply toggleMenuIds_select; auto.
    + intros a Ha. apply toggleMenuIds_select; auto.
  - intros Hm. split; [| split].
    + intros H. by apply toggleMenuIds_deselect_sub in H as (_ & H & _).
    + intros d Hd H. by apply toggleMenuIds_deselect_sub in H as (_ & _ & H).
    + intros a Ha. rewrite (toggleMenuIds_deselect_ancestor tree m sel a) at 1 by done.
      pose proof (Hcl _ _ Hm Ha). tauto.
Qed.

Lemma toggleMenu_cascade_witness :
  well_formed demo ∧ parents_truthy demo ∧
  closed demo {[ "sys"; "user"; "user-detail" ]} ∧
  cascade (demo_state {[ "sys"; "user"; "user-detail" ]}) "user-detail".
Proof.
  assert (well_formed demo) as Hwf.
  { apply (bool_decide_unpack _). vm_compute. exact I. }
  assert (parents_truthy demo) as Htr.
  { apply parents_truthy_check. apply (bool_decide_unpack _).
    vm_compute. exact I. }
  assert (closed demo {[ "sys"; "user"; "user-detail" ]}) as Hcl.
  { apply closed_check. apply (bool_decide_unpack _). vm_compute. exact I. }
  split; [exact Hwf |]. split; [exact Htr |]. split; [exact Hcl |].
  exact (toggleMenu_cascade
           (demo_state {[ "sys"; "user"; "user-detail" ]}) "user-detail"
           Hwf Htr Hcl).
Defined.

Example empty_id_selects_child_only :
  getAncestorMenuIds (treeData empty_id_state) "a" = [] ∧
  selectedMenuIds (toggleMenu "a" empty_id_state) = {[ "a" ]}.
Proof. split; [reflexivity | vm_compute; reflexivity]. Qed.


End RolePermissionFacts.

(** ** Permission checkboxes *)
Module PermissionFacts.
Import RolePermission.

Lemma toggle_elem (sel : gset string) (p q : string) :
  q ∈ (if decide (p ∈ sel) then set_delete sel p else set_add sel p) ↔
  (q = p ∧ p ∉ sel) ∨ (q ≠ p ∧ q ∈ sel).
Proof.
  unfold set_delete, set_add. destruct (decide (p ∈ sel)) as [Hp | Hp].
  - rewrite elem_of_difference, not_elem_of_singleton.
    destruct (decide (q = p)) as [-> | Hne]; tauto.
  - rewrite elem_of_union, elem_of_singleton.
    destruct (decide (q = p)) as [-> | Hne]; tauto.
Qed.

Lemma togglePermission_elem (st : State) (p q : string) :
  q ∈ selectedPermissions (togglePermission p st) ↔
  (q = p ∧ p ∉ selectedPermissions st) ∨ (q ≠ p ∧ q ∈ selectedPermissions st).
Proof. apply toggle_elem. Qed.

(** C5.  A permission's checkbox is checked exactly when its id is in
    [selectedPermissions]; [togglePermission p] negates the membership of
    [p], leaves every other id's membership as it was, and, applied twice,
    gives the original state back. *)
Theorem togglePermission_checkbox (st : State) (p : string) :
  (∀ q, permissionChecked st q = true ↔ q ∈ selectedPermissions st) ∧
  (p ∈ selectedPermissions (togglePermission p st) ↔
   p ∉ selectedPermissions st) ∧
  (∀ q, q ≠ p →
     (q ∈ selectedPermissions (togglePermission p st) ↔
      q ∈ selectedPermissions st)) ∧
  togglePermission p (togglePermission p st) = st.
Proof.
  split; [| split; [| split]].
  - intros q. unfold permissionChecked. apply bool_decide_eq_true.
  - rewrite togglePermission_elem. tauto.
  - intros q Hq. rewrite togglePermission_elem. tauto.
  - assert (selectedPermissions (togglePermission p (togglePermission p st))
            = selectedPermissions st) as Hsel.
    { apply set_eq. intros q. rewrite !togglePermission_elem.
      destruct (decide (q = p)) as [-> | Hne]; [| tauto].
      destruct (decide (p ∈ selectedPermissions st)); tauto. }
    destruct st as [t sm sp ex cur]. unfold togglePermission in *.
    cbn [treeData selectedMenuIds selectedPermissions expandedMenuIds
         selectedMenuId] in *.
    by rewrite Hsel.
Qed.

Example togglePermission_twice_sample :
  selectedPermissions
    (togglePermission "user:add"
       (togglePermission "user:add" (demo_state ∅)))
  = ∅.
Proof. vm_compute. reflexivity. Qed.

End PermissionFacts.

(** ** Interval unit conversion *)
Module SchedulerFormFacts.
Import SchedulerForm.

Local Open Scope Z_scope.

Lemma rem_eqb_divide (s d : Z) :
  0 < d → (Z.rem s d =? 0) = true ↔ (d | s).
Proof.
  intros Hd. rewrite Z.eqb_eq. apply Z.rem_divide. lia.
Qed.

Lemma quot_exact (s d : Z) : 0 < d → (d | s) → Z.quot s d * d = s.
Proof.
  intros Hd [k ->]. rewrite Z.quot_mul by lia. reflexivity.
Qed.

Lemma eqb_pos_false (z : Z) : 0 < z → (z =? 0) = false.
Proof. intros H. apply Z.eqb_neq. lia. Qed.

Lemma quot_pos (s d : Z) : 0 < d → 0 < s → (d | s) → 0 < Z.quot s d.
Proof.
  intros Hd Hs [k ->]. rewrite Z.quot_mul by lia. nia.
Qed.

Lemma onConfirm_interval (i : option string) (v : Z) (u : string) :
  0 < v → truthy u = true →
  interval_seconds <$> onConfirm true (mkJob i interval (Some v) (Some u))
  = Some (Some (toSeconds u v)).
Proof.
  intros Hv Hu. unfold onConfirm.
  cbn [trigger_type interval_seconds interval_unit is_interval truthy_num
       truthy_opt andb default option_map id].
  rewrite (eqb_pos_false v Hv), Hu. reflexivity.
Qed.

(** One branch of the conversion: the unit [u] of length [d] divides [s]. *)
Lemma shown_branch (i : option string) (s d : Z) (u : string) :
  0 < s → 0 < d → (d | s) → truthy u = true →
  unit_length u = d → toSeconds u (Z.quot s d) = Z.quot s d * d →
  Z.quot s d = s / unit_length u ∧
  Z.quot s d * unit_length u = s ∧
  interval_seconds <$>
    onConfirm true (mkJob i interval (Some (Z.quot s d)) (Some u))
  = Some (Some s).
Proof.
  intros Hs Hd Hdiv Hu Hlen Hto. rewrite Hlen.
  pose proof (quot_exact s d Hd Hdiv) as Hq.
  pose proof (quot_pos s d Hd Hs Hdiv) as Hp.
  split; [| split].
  - apply Z.quot_div_nonneg; lia.
  - exact Hq.
  - rewrite onConfirm_interval by done. by rewrite Hto, Hq.
Qed.

(** C2.  For a positive number [s] of seconds stored in an interval job,
    the form shows the largest of days, hours, minutes, seconds that
    divides [s], with [s] divided by that unit's length; confirming the
    form with that pair unchanged submits exactly [s] seconds. *)
Theorem interval_round_trip (job : SchedulerJob) (s : Z) :
  0 < s → trigger_type job = interval → interval_seconds job = Some s →
  ∃ v u,
    interval_seconds (setFormValuesWithConversion job) = Some v ∧
    interval_unit (setFormValuesWithConversion job) = Some u ∧
    shows s v u ∧
    interval_seconds <$> onConfirm true (setFormValuesWithConversion job)
    = Some (Some s).
Proof.
  intros Hs Ht Hi. unfold setFormValuesWithConversion. rewrite Hi, Ht.
  cbn [is_interval truthy_num andb].
  rewrite (eqb_pos_false s Hs). cbn [negb].
  destruct (Z.rem s 86400 =? 0) eqn:Hd.
  { apply rem_eqb_divide in Hd; [| lia].
    exists (Z.quot s 86400), "days".
    cbn [interval_seconds interval_unit].
    destruct (shown_branch (id job) s 86400 "days" Hs ltac:(lia) Hd
                eq_refl eq_refl eq_refl) as (H1 & H2 & H3).
    unfold shows. tauto. }
  assert (¬ (86400 | s)) as N1.
  { intros H. apply (rem_eqb_divide s 86400) in H; [congruence | lia]. }
  destruct (Z.rem s 3600 =? 0) eqn:Hh.
  { apply rem_eqb_divide in Hh; [| lia].
    exists (Z.quot s 3600), "hours".
    cbn [interval_seconds interval_unit].
    destruct (shown_branch (id job) s 3600 "hours" Hs ltac:(lia) Hh
                eq_refl eq_refl eq_refl) as (H1 & H2 & H3).
    unfold shows. tauto. }
  assert (¬ (3600 | s)) as N2.
  { intros H. apply (rem_eqb_divide s 3600) in H; [congruence | lia]. }
  destruct (Z.rem s 60 =? 0) eqn:Hm.
  { apply rem_eqb_divide in Hm; [| lia].
    exists (Z.quot s 60), "minutes".
    cbn [interval_seconds interval_unit].
    destruct (shown_branch (id job) s 60 "minutes" Hs ltac:(lia) Hm
                eq_refl eq_refl eq_refl) as (H1 & H2 & H3).
    unfold shows. tauto. }
  assert (¬ (60 | s)) as N3.
  { intros H. apply (rem_eqb_divide s 60) in H; [congruence | lia]. }
  exists s, "seconds".
  cbn [interval_seconds interval_unit].
  assert (unit_length "seconds" = 1) as Hone by reflexivity.
  unfold shows. rewrite Hone, Z.div_1_r, Z.mul_1_r.
  rewrite onConfirm_interval by done.
  repeat split; tauto.
Qed.

Example two_hours_shown :
  setFormValuesWithConversion two_hours
  = {| id := Some "job-1"; trigger_type := interval;
       interval_seconds := Some 2; interval_unit := Some "hours" |}.
Proof. reflexivity. Qed.

Example ninety_seconds_shown :
  setFormValuesWithConversion
    {| id := None; trigger_type := interval;
       interval_seconds := Some 90; interval_unit := None |}
  = {| id := None; trigger_type := interval;
       interval_seconds := Some 90; interval_unit := Some "seconds" |}.
Proof. reflexivity. Qed.

Lemma interval_round_trip_witness :
  0 < 7200 ∧ trigger_type two_hours = interval ∧
  interval_seconds two_hours = Some 7200 ∧
  ∃ v u,
    interval_seconds (setFormValuesWithConversion two_hours) = Some v ∧
    interval_unit (setFormValuesWithConversion two_hours) = Some u ∧
    shows 7200 v u ∧
    interval_seconds <$> onConfirm true (setFormValuesWithConversion two_hours)
    = Some (Some 7200).
Proof.
  split; [lia |]. split; [reflexivity |]. split; [reflexivity |].
  apply (interval_round_trip two_hours 7200); [lia | reflexivity | reflexivity].
Defined.

End SchedulerFormFacts.

(** ** Request client *)
Module RequestFacts.
Import Request RequestTokens ResponseChain.










(** C9.  [doReAuthenticate] always leaves the stored access token null.
    When neither token was held it does nothing else: no logout and no
    login-expired flag.  When a token was held it marks the login expired
    in modal mode with access checked, and logs out otherwise. *)
Theorem doReAuthenticate_spec (mode : string) (store : AccessStore) :
  let held := truthy_opt (accessToken store) || truthy_opt (refreshToken store) in
  let modal := bool_decide (mode = "modal") && isAccessChecked store in
  let store' := fst (doReAuthenticate mode store) in
  let effs := snd (doReAuthenticate mode store) in
  accessToken store' = None ∧
  (held = false →
     store' = setAccessToken None store ∧ Logout ∉ effs) ∧
  (held = true →
     (modal = true →
        store' = setLoginExpired true (setAccessToken None store) ∧
        Logout ∉ effs) ∧
     (modal = false →
        store' = setAccessToken None store ∧ Logout ∈ effs)).
Proof.
  unfold doReAuthenticate. cbn [isAccessChecked setAccessToken].
  destruct (truthy_opt (accessToken store) || truthy_opt (refreshToken store));
    cbn [negb].
  - destruct (bool_decide (mode = "modal") && isAccessChecked store); cbn.
    + split; [done |]. split; [done |]. intros _. split; [| done].
      intros _. split; [done |].
      intros H. apply list_elem_of_singleton in H. discriminate.
    + split; [done |]. split; [done |]. intros _. split; [done |].
      intros _. split; [done |]. apply elem_of_cons; right. constructor.
  - cbn. split; [done |]. split; [| done]. intros _. split; [done |].
    intros H. apply list_elem_of_singleton in H. discriminate.
Qed.

Example login_401_no_logout :
  doReAuthenticate "page" (mkStore None None false false)
  = (mkStore None None false false,
     [ConsoleWarn "Access token or refresh token is invalid or expired. "]).
Proof. reflexivity. Qed.

Example expired_modal :
  doReAuthenticate "modal" (mkStore (Some "t") (Some "r") true false)
  = (mkStore None (Some "r") true true,
     [ConsoleWarn "Access token or refresh token is invalid or expired. "]).
Proof. reflexivity. Qed.
















Example refresh_missing_reauthenticates :
  snd (onResponseRejected "page" enableRefreshToken false None unauthorized
         (λ _, "") unauthorized (mkStore (Some "old") None true false))
  = [ Refreshing (ConsoleErrorText "Refresh token is missing");
      Refreshing (ReAuth (ConsoleWarn
        "Access token or refresh token is invalid or expired. "));
      Refreshing (ReAuth Logout);
      ReAuthenticating (ConsoleWarn
        "Access token or refresh token is invalid or expired. ");
      Callback (ConsoleError None (Some "")) ].
Proof. reflexivity. Qed.

Example toast_backend_detail :
  toasts (errorMessageCallback "Request failed"
            (Some (mkError (Some (mkResponse
               (Some (mkData None (Some "") (Some "quota exceeded") None))
               429)))))
  = ["quota exceeded"].
Proof. reflexivity. Qed.

Example toast_403_default :
  toasts (errorMessageCallback ""
            (Some (mkError (Some (mkResponse None 403)))))
  = [default403].
Proof. reflexivity. Qed.

Example toast_none :
  toasts (errorMessageCallback ""
            (Some (mkError (Some (mkResponse None 500)))))
  = [].
Proof. reflexivity. Qed.

End RequestFacts.

(** ** Typed API wrappers *)
Module ApiFacts.
Import Api.

(** C6.  [getUserListApi] issues exactly one GET to [/api/core/user] with
    its params object as the query, [updateMenuApi] exactly one PUT to
    [/api/core/menu/{menuId}] with its input as the body; each resolves to
    the client's response as it is. *)
Theorem api_one_call (Params Body Resp : Type)
    (backend : HttpCall Params Body → Resp)
    (log : list (HttpCall Params Body))
    (p : option Params) (menuId : string) (d : Body) :
  let get := {| method := GET; url := "/api/core/user";
                params := p; body := None |} in
  let put := {| method := PUT; url := "/api/core/menu/" +:+ menuId;
                params := None; body := Some d |} in
  getUserListApi Params Body Resp p backend log = (backend get, log ++ [get]) ∧
  updateMenuApi Params Body Resp menuId d backend log
  = (backend put, log ++ [put]).
Proof. split; reflexivity. Qed.

Example updateMenuApi_url :
  snd (updateMenuApi unit string nat "42" "body" (λ _, 0) [])
  = [ {| method := PUT; url := "/api/core/menu/42";
         params := None; body := Some "body" |} ].
Proof. reflexivity. Qed.

End ApiFacts.

(** ** Menu creation form *)
Module MenuFormFacts.
Import MenuForm.

Lemma startsWith_slash (value : JsString) :
  startsWith (MenuTree.codeUnits "/") value = true ↔
  ∃ rest, value = slash :: rest.
Proof.
  change (MenuTree.codeUnits "/") with [slash].
  destruct value as [|x rest]; cbn [startsWith].
  - split; [intros H; discriminate H | intros (r & H); discriminate H].
  - rewrite andb_true_r, N.eqb_eq. split.
    + intros ->. by exists rest.
    + intros (r & H). by injection H as -> _.
Qed.

(** C7.  The path field accepts a string exactly when its length, counted
    in UTF-16 code units as the validator counts it, is between 2 and 100,
    it starts with [/], and the backend reports that the path does not
    exist yet; a string outside the length bounds or not starting with [/]
    is rejected whatever the backend says. *)
Theorem pathRules_accepts (isMenuPathExists : JsString → bool)
    (value : JsString) :
  (accepts (pathRules isMenuPathExists) value = true ↔
     (2 ≤ length value ≤ 100)%nat ∧
     (∃ rest, value = slash :: rest) ∧
     isMenuPathExists value = false)
  ∧
  ((length value < 2)%nat ∨ (100 < length value)%nat ∨
   (∀ rest, value ≠ slash :: rest) →
   accepts (pathRules isMenuPathExists) value = false).
Proof.
  assert (accepts (pathRules isMenuPathExists) value = true ↔
          (2 ≤ length value ≤ 100)%nat ∧
          startsWith (MenuTree.codeUnits "/") value = true ∧
          isMenuPathExists value = false) as Hacc.
  { unfold accepts, pathRules. cbn [forallb holds].
    rewrite !andb_true_iff, !Nat.leb_le, negb_true_iff. tauto. }
  split.
  - rewrite Hacc, startsWith_slash. tauto.
  - intros H. apply not_true_is_false. rewrite Hacc, startsWith_slash.
    intros ((H1 & H2) & (rest & H3) & _).
    destruct H as [H | [H | H]]; [lia | lia | by apply (H rest)].
Qed.

Example path_ok :
  accepts (pathRules (λ _, false)) (MenuTree.codeUnits "/system/user") = true.
Proof. reflexivity. Qed.

Example path_no_slash :
  accepts (pathRules (λ _, false)) (MenuTree.codeUnits "system") = false.
Proof. reflexivity. Qed.

Example path_too_short :
  accepts (pathRules (λ _, false)) (MenuTree.codeUnits "/") = false.
Proof. reflexivity. Qed.

Example path_taken :
  accepts (pathRules (λ _, true)) (MenuTree.codeUnits "/system/user") = false.
Proof. reflexivity. Qed.

(** A path of [/] and 34 ideographs has 35 code units, though 103 bytes in
    UTF-8, and is accepted; with 100 ideographs it has 101 and is not. *)
Example path_ideographs :
  accepts (pathRules (λ _, false)) (slash :: repeat zhong 34) = true
  ∧ accepts (pathRules (λ _, false)) (slash :: repeat zhong 100) = false.
Proof. split; reflexivity. Qed.

End MenuFormFacts.

(** ** User list *)
Module UserListFacts.
Import UserList.

(** C10.  The delete action is disabled exactly for the row whose id is
    the built-in administrator's; it is enabled for every other row. *)
Theorem deleteDisabled_admin (row : User) :
  (deleteDisabled row = true ↔ id row = "a0000000-0000-0000-0000-000000000001")
  ∧
  (deleteDisabled row = false ↔ id row ≠ "a0000000-0000-0000-0000-000000000001").
Proof.
  unfold deleteDisabled, adminId. split.
  - apply bool_decide_eq_true.
  - apply bool_decide_eq_false.
Qed.

Example delete_admin_disabled :
  deleteDisabled (mkUser "a0000000-0000-0000-0000-000000000001" "admin") = true.
Proof. reflexivity. Qed.

Example delete_other_enabled :
  deleteDisabled (mkUser "a0000000-0000-0000-0000-000000000002" "alice") = false.
Proof. reflexivity. Qed.

End UserListFacts.

(** ** Menu tree editor *)
Module MenuTreeFacts.
Import MenuTree.

Lemma MenuTreeNode_ind' (P : MenuTreeNode → Prop) :
  (∀ i cc hc, P (mkNode i cc hc None)) →
  (∀ i cc hc l, Forall P l → P (mkNode i cc hc (Some l))) →
  ∀ n, P n.
Proof.
  intros Hleaf Hnode. fix IH 1. intros [i cc hc [l|]].
  - apply Hnode. induction l as [|c l IHl]; constructor; [apply IH | exact IHl].
  - apply Hleaf.
Qed.

Lemma filter_flat_map {A B : Type} (f : B → bool) (g : A → list B)
    (l : list A) :
  List.filter f (flat_map g l) = flat_map (λ x, List.filter f (g x)) l.
Proof.
  induction l as [|a l IH]; simpl; [done |].
  by rewrite List.filter_app, IH.
Qed.

Lemma flat_map_nil {A B : Type} (g : A → list B) (l : list A) :
  Forall (λ x, g x = []) l → flat_map g l = [].
Proof. induction 1 as [|x l Hx _ IH]; simpl; [done |]. by rewrite Hx, IH. Qed.

(** *** Flattening *)

(** Below a collapsed ancestor nothing is visible. *)
Lemma allRows_node_hidden (expanded : gset string) (anc : list string)
    (level : nat) (n : MenuTreeNode) :
  all_expanded expanded anc = false →
  List.filter (visible expanded) (allRows_node anc level n) = [].
Proof.
  revert anc level.
  induction n as [i cc hc | i cc hc l IH] using MenuTreeNode_ind';
    intros anc level Hanc; cbn [allRows_node List.filter].
  - unfold visible at 1. cbn [snd]. unfold all_expanded in Hanc. by rewrite Hanc.
  - unfold visible at 1. cbn [snd]. unfold all_expanded in Hanc. rewrite Hanc.
    rewrite filter_flat_map. apply flat_map_nil.
    eapply Forall_impl; [exact IH |]. intros c Hc; cbn beta in Hc. apply Hc.
    unfold all_expanded. cbn [forallb]. unfold all_expanded in Hanc.
    rewrite Hanc. apply andb_false_r.
Qed.

Lemma renderTreeList_node_rows (expanded : gset string) (anc : list string)
    (level : nat) (n : MenuTreeNode) :
  all_expanded expanded anc = true →
  renderTreeList_node expanded level n
  = map fst (List.filter (visible expanded) (allRows_node anc level n)).
Proof.
  revert anc level.
  induction n as [i cc hc | i cc hc l IH] using MenuTreeNode_ind';
    intros anc level Hanc; cbn [allRows_node renderTreeList_node List.filter].
  - unfold visible at 1. cbn [snd]. unfold all_expanded in Hanc. rewrite Hanc.
    by case_bool_decide.
  - unfold visible at 1. cbn [snd]. pose proof Hanc as Hanc'.
    unfold all_expanded in Hanc'. rewrite Hanc'. cbn [map fst]. f_equal.
    rewrite filter_flat_map, map_flat_map.
    destruct (bool_decide (i ∈ expanded)) eqn:Hi.
    + assert (flat_map (renderTreeList_node expanded (S level)) l
              = flat_map (λ x, map fst (List.filter (visible expanded)
                                 (allRows_node (i :: anc) (S level) x))) l) as Heq.
      { apply flat_map_Forall_ext. eapply Forall_impl; [exact IH |].
        intros c Hc; cbn beta in Hc. apply Hc.
        unfold all_expanded. cbn [forallb]. by rewrite Hi, Hanc'. }
      rewrite <- Heq. by destruct l.
    + symmetry. apply flat_map_nil. apply Forall_forall. intros c _.
      rewrite allRows_node_hidden; [done |].
      unfold all_expanded. cbn [forallb]. by rewrite Hi.
Qed.

Lemma allRows_node_depth (anc : list string) (n : MenuTreeNode) :
  Forall (λ row, snd (fst row) = length (snd row))
         (allRows_node anc (length anc) n).
Proof.
  revert anc.
  induction n as [i cc hc | i cc hc l IH] using MenuTreeNode_ind';
    intros anc; cbn [allRows_node].
  - by repeat constructor.
  - constructor; [done |]. apply Forall_forall. intros row Hrow.
    apply elem_of_flat_map in Hrow as (c & Hc & Hrow).
    rewrite Forall_forall in IH. specialize (IH c Hc (i :: anc)).
    rewrite Forall_forall in IH. by apply IH.
Qed.

Lemma toggleNodeExpanded_elem (menu : MenuTreeNode) (st : State) :
  id menu ∈ expandedMenuIds (toggleNodeExpanded menu st) ↔
  id menu ∉ expandedMenuIds st.
Proof.
  unfold toggleNodeExpanded. cbn [expandedMenuIds].
  destruct (decide (id menu ∈ expandedMenuIds st)) as [H | H].
  - rewrite elem_of_difference, not_elem_of_singleton. tauto.
  - rewrite elem_of_union, elem_of_singleton. tauto.
Qed.

Lemma renderTreeList_cons (expanded : gset string) (n : MenuTreeNode)
    (rest : list MenuTreeNode) (level : nat) :
  renderTreeList expanded (n :: rest) level
  = (n, level)
    :: (if bool_decide (id n ∈ expanded) && hasChildren n
        then renderTreeList expanded (childrenOf n) (S level)
        else [])
    ++ renderTreeList expanded rest level.
Proof.
  unfold renderTreeList. cbn [flat_map]. destruct n as [i cc hc ch].
  unfold childrenOf. cbn [renderTreeList_node id children hasChildren].
  destruct (bool_decide (i ∈ expanded)); [| done].
  by destruct ch as [[|c cs]|].
Qed.

(** C4.  [renderTreeList] lists, in depth-first preorder, exactly the
    nodes all of whose proper ancestors are expanded, each with its depth
    (roots at level 0).  A node's row is followed at once by its children's
    rows, one level deeper, exactly when the node is expanded and has
    children. *)
Theorem renderTreeList_preorder (expanded : gset string)
    (nodes : list MenuTreeNode) :
  renderTreeList expanded nodes 0
  = map fst (List.filter (visible expanded) (allRows [] 0 nodes))
  ∧ Forall (λ row, snd (fst row) = length (snd row)) (allRows [] 0 nodes)
  ∧ ∀ (n : MenuTreeNode) (rest : list MenuTreeNode) (level : nat),
      renderTreeList expanded (n :: rest) level
      = (n, level)
        :: (if bool_decide (id n ∈ expanded) && hasChildren n
            then renderTreeList expanded (childrenOf n) (S level)
            else [])
        ++ renderTreeList expanded rest level
      ∧ ((∃ c cs, children n = Some (c :: cs) ∧
            renderTreeList expanded (n :: rest) level !! 1%nat
            = Some (c, S level))
         ↔ id n ∈ expanded ∧ hasChildren n = true).
Proof.
  split; [| split].
  - unfold renderTreeList, allRows. rewrite filter_flat_map, map_flat_map.
    apply flat_map_Forall_ext, Forall_forall. intros n _.
    by apply renderTreeList_node_rows.
  - unfold allRows. apply Forall_forall. intros row Hrow.
    apply elem_of_flat_map in Hrow as (n & _ & Hrow).
    pose proof (allRows_node_depth [] n) as H. rewrite Forall_forall in H.
    by apply H.
  - intros n rest level. split; [apply renderTreeList_cons |].
    rewrite renderTreeList_cons. split.
    + intros (c & cs & Hch & Hrow). unfold hasChildren. rewrite Hch.
      split; [| done].
      destruct (bool_decide (id n ∈ expanded)) eqn:Hi;
        [by apply bool_decide_eq_true_1 in Hi |].
      exfalso. cbn [andb app] in Hrow. destruct rest as [|r rest].
      * discriminate Hrow.
      * rewrite renderTreeList_cons in Hrow. cbn in Hrow.
        injection Hrow as _ Hl. lia.
    + intros [Hi Hch]. unfold hasChildren in Hch.
      destruct (children n) as [[|c cs]|] eqn:Hc; try discriminate Hch.
      exists c, cs. split; [done |].
      rewrite bool_decide_eq_true_2 by done.
      unfold hasChildren, childrenOf. rewrite Hc. cbn [andb].
      by rewrite renderTreeList_cons.
Qed.

Example sample_collapsed :
  map (λ r, (id (fst r), snd r)) (renderTreeList ∅ sample 0)
  = [("sys", 0%nat); ("log", 0%nat)].
Proof. vm_compute. reflexivity. Qed.

Example sample_sys_expanded :
  map (λ r, (id (fst r), snd r)) (renderTreeList {[ "sys" ]} sample 0)
  = [("sys", 0%nat); ("user", 1%nat); ("role", 1%nat); ("log", 0%nat)].
Proof. vm_compute. reflexivity. Qed.

Example sample_inner_only :
  map (λ r, (id (fst r), snd r)) (renderTreeList {[ "user" ]} sample 0)
  = [("sys", 0%nat); ("log", 0%nat)].
Proof. vm_compute. reflexivity. Qed.

(** *** Search fall-back *)

Lemma drop_while_nil {A : Type} (f : A → bool) (l : list A) :
  drop_while f l = [] ↔ forallb f l = true.
Proof.
  induction l as [|x l IH]; simpl; [done |].
  destruct (f x); simpl; [exact IH |]. split; discriminate.
Qed.

Lemma drop_while_stops {A : Type} (f : A → bool) (l : list A) :
  forallb f (drop_while f l) = true → drop_while f l = [].
Proof.
  induction l as [|x l IH]; simpl; [done |].
  destruct (f x) eqn:Hx; [exact IH |]. simpl. rewrite Hx. discriminate.
Qed.

Lemma forallb_rev {A : Type} (f : A → bool) (l : list A) :
  forallb f (rev l) = forallb f l.
Proof.
  induction l as [|x l IH]; simpl; [done |].
  rewrite forallb_app, IH. simpl. rewrite andb_true_r. apply andb_comm.
Qed.

Lemma trim_empty (s : list N) : trim s = [] ↔ blank s.
Proof.
  unfold trim, blank.
  rewrite Forall_forall. setoid_rewrite list_elem_of_In.
  rewrite <- forallb_forall, <- drop_while_nil. split.
  - intros H. apply (f_equal (@rev _)) in H.
    rewrite rev_involutive in H. simpl in H.
    apply drop_while_nil in H. rewrite forallb_rev in H.
    by apply drop_while_stops.
  - intros ->. reflexivity.
Qed.

Lemma nonEmpty_trim (s : list N) : nonEmpty (trim s) = false ↔ blank s.
Proof.
  rewrite <- trim_empty. destruct (trim s); simpl; [done |].
  split; discriminate.
Qed.

Lemma transformMenuData_length (menus : list MenuTreeNode) :
  length (transformMenuData menus) = length menus.
Proof. apply length_map. Qed.

Lemma filteredTreeData_full (st : State) :
  blank (searchKeyword st) ∨ searchResults st = [] →
  filteredTreeData st = treeData st.
Proof.
  unfold filteredTreeData. intros [H | H].
  - apply nonEmpty_trim in H. by rewrite H.
  - rewrite H. cbn [length Nat.ltb Nat.leb]. by rewrite andb_false_r.
Qed.

(** C8.  With a blank keyword, or with no search results, the displayed
    tree is the full loaded tree; with a non-blank keyword and some search
    results it is the search results.  After a search that found nothing,
    or failed, and after the keyword is cleared, the full tree is
    displayed, so an unmatched search leaves a loaded tree on display. *)
Theorem filteredTreeData_fallback (st : State) :
  (blank (searchKeyword st) ∨ searchResults st = [] →
     filteredTreeData st = treeData st)
  ∧ (¬ blank (searchKeyword st) → searchResults st ≠ [] →
     filteredTreeData st = searchResults st)
  ∧ filteredTreeData (onSearchSettled (Some []) st) = treeData st
  ∧ filteredTreeData (onSearchSettled None st) = treeData st
  ∧ (∀ kw, blank kw → filteredTreeData (onSearchKeyword kw st) = treeData st)
  ∧ (treeData st ≠ [] → filteredTreeData (onSearchSettled (Some []) st) ≠ []).
Proof.
  split; [| split; [| split; [| split; [| split]]]].
  6: { intros Hne. rewrite filteredTreeData_full; [exact Hne | by right]. }
  - apply filteredTreeData_full.
  - intros Hb Hr. unfold filteredTreeData.
    destruct (nonEmpty (trim (searchKeyword st))) eqn:Ht.
    + destruct (searchResults st); [done | reflexivity].
    + by apply nonEmpty_trim in Ht.
  - rewrite filteredTreeData_full; [done |]. by right.
  - rewrite filteredTreeData_full; [done |]. by right.
  - intros kw Hkw. rewrite filteredTreeData_full.
    + unfold onSearchKeyword. by destruct (negb (nonEmpty (trim kw))).
    + left. unfold onSearchKeyword. by destruct (negb (nonEmpty (trim kw))).
Qed.

Example trim_padded : trim (codeUnits "  user ") = codeUnits "user".
Proof. reflexivity. Qed.

Example trim_ideographic_space : trim [12288%N; 32%N; 65279%N] = [].
Proof. reflexivity. Qed.

Example unmatched_search_sample :
  filteredTreeData
    (onSearchSettled (Some [])
       (mkState sample (codeUnits "zzz") [leaf "stale"] true ∅))
  = sample.
Proof. reflexivity. Qed.

Example matched_search_sample :
  map id (filteredTreeData
            (onSearchSettled (Some [leaf "role"])
               (mkState sample (codeUnits "ro") [] true ∅)))
  = ["role"].
Proof. reflexivity. Qed.

Example blank_keyword_sample :
  filteredTreeData (mkState sample (codeUnits "   ") [leaf "stale"] false ∅) = sample.
Proof. reflexivity. Qed.

End MenuTreeFacts.


(** * Further properties of the same code *)

(** ** Scheduler-job form: the conversion beyond positive intervals *)
Module SchedulerFormMore.
Import SchedulerForm.

Local Open Scope Z_scope.

Lemma rem_zero_quot (s d : Z) :
  0 < d → (Z.rem s d =? 0) = true → Z.quot s d * d = s.
Proof.
  intros Hd H. apply Z.eqb_eq in H.
  pose proof (Z.quot_rem' s d) as Hqr. lia.
Qed.

Lemma rem_zero_quot_nonzero (s d : Z) :
  0 < d → s ≠ 0 → (Z.rem s d =? 0) = true → (Z.quot s d =? 0) = false.
Proof.
  intros Hd Hs H. apply Z.eqb_neq. intros Hq.
  pose proof (rem_zero_quot s d Hd H) as He. rewrite Hq in He. lia.
Qed.

Lemma rem_zero_divide (s d : Z) :
  0 < d → (Z.rem s d =? 0) = true ↔ (d | s).
Proof. intros Hd. rewrite Z.eqb_eq. apply Z.rem_divide. lia. Qed.

(** X1.  Showing a job in the form and confirming it unchanged submits the job
    as it was stored, whatever its trigger type and whether its interval is
    missing, zero, negative or positive; the unit field is never sent. *)
Theorem show_then_confirm (job : SchedulerJob) :
  onConfirm true (setFormValuesWithConversion job)
  = Some {| id := id job; trigger_type := trigger_type job;
            interval_seconds := interval_seconds job;
            interval_unit := None |}.
Proof.
  destruct job as [i t [s|] u]; unfold setFormValuesWithConversion;
    cbn [interval_seconds trigger_type id interval_unit]; [| by destruct t].
  destruct (is_interval t) eqn:Ht; cbn [andb truthy_num];
    [| unfold onConfirm; cbn [trigger_type interval_seconds id]; by rewrite Ht].
  destruct (s =? 0) eqn:Hs; cbn [negb].
  { unfold onConfirm. cbn [trigger_type interval_seconds id truthy_num].
    by rewrite Ht, Hs. }
  apply Z.eqb_neq in Hs.
  assert (∀ d unit, 0 < d → (Z.rem s d =? 0) = true → truthy unit = true →
            toSeconds unit (Z.quot s d) = Z.quot s d * d →
            onConfirm true (mkJob i t (Some (Z.quot s d)) (Some unit))
            = Some (mkJob i t (Some s) None)) as Hbranch.
  { intros d unit Hd Hr Hu Hto. unfold onConfirm.
    cbn [trigger_type interval_seconds interval_unit id truthy_num truthy_opt
         default option_map].
    rewrite Ht, (rem_zero_quot_nonzero s d Hd Hs Hr), Hu. cbn [negb andb].
    change (Datatypes.id unit) with unit.
    by rewrite Hto, (rem_zero_quot s d Hd Hr). }
  destruct (Z.rem s 86400 =? 0) eqn:Hd; [by apply Hbranch |].
  destruct (Z.rem s 3600 =? 0) eqn:Hh; [by apply Hbranch |].
  destruct (Z.rem s 60 =? 0) eqn:Hm; [by apply Hbranch |].
  unfold onConfirm.
  cbn [trigger_type interval_seconds interval_unit id truthy_num truthy_opt
       default option_map].
  rewrite Ht. apply Z.eqb_neq in Hs. rewrite Hs. reflexivity.
Qed.

Example show_then_confirm_negative :
  interval_seconds <$>
    onConfirm true
      (setFormValuesWithConversion (mkJob None interval (Some (-7200)) None))
  = Some (Some (-7200)).
Proof. reflexivity. Qed.

(** X2.  The form never shows a value that a larger unit would express: shown
    minutes are no whole number of hours, shown hours no whole number of
    days, shown seconds no whole number of minutes. *)
Theorem shown_unit_is_largest (job : SchedulerJob) (s v : Z) (u : string) :
  trigger_type job = interval → interval_seconds job = Some s → s ≠ 0 →
  interval_seconds (setFormValuesWithConversion job) = Some v →
  interval_unit (setFormValuesWithConversion job) = Some u →
  u = "days"
  ∨ (u = "hours" ∧ ¬ (24 | v))
  ∨ (u = "minutes" ∧ ¬ (60 | v))
  ∨ (u = "seconds" ∧ ¬ (60 | v)).
Proof.
  intros Ht Hi Hs. unfold setFormValuesWithConversion. rewrite Hi, Ht.
  cbn [is_interval truthy_num andb].
  assert ((s =? 0) = false) as -> by (by apply Z.eqb_neq). cbn [negb].
  destruct (Z.rem s 86400 =? 0) eqn:Hd.
  { cbn [interval_seconds interval_unit]. intros _ Hu. injection Hu as <-. by left. }
  destruct (Z.rem s 3600 =? 0) eqn:Hh.
  { cbn [interval_seconds interval_unit]. intros Hv Hu.
    injection Hv as <-. injection Hu as <-. right; left. split; [done |].
    intros [k Hk]. pose proof (rem_zero_quot s 3600 ltac:(lia) Hh) as Hq.
    assert ((Z.rem s 86400 =? 0) = true) as Hc; [| congruence].
    apply rem_zero_divide; [lia |]. exists k. lia. }
  destruct (Z.rem s 60 =? 0) eqn:Hm.
  { cbn [interval_seconds interval_unit]. intros Hv Hu.
    injection Hv as <-. injection Hu as <-. right; right; left. split; [done |].
    intros [k Hk]. pose proof (rem_zero_quot s 60 ltac:(lia) Hm) as Hq.
    assert ((Z.rem s 3600 =? 0) = true) as Hc; [| congruence].
    apply rem_zero_divide; [lia |]. exists k. lia. }
  cbn [interval_seconds interval_unit]. intros Hv Hu.
  injection Hv as <-. injection Hu as <-. right; right; right. split; [done |].
  intros Hdiv. apply (rem_zero_divide s 60) in Hdiv; [congruence | lia].
Qed.

Lemma shown_unit_is_largest_witness :
  trigger_type two_hours = interval ∧
  interval_seconds two_hours = Some 7200 ∧ 7200 ≠ 0 ∧
  interval_seconds (setFormValuesWithConversion two_hours) = Some 2 ∧
  interval_unit (setFormValuesWithConversion two_hours) = Some "hours" ∧
  ("hours" = "days"
   ∨ ("hours" = "hours" ∧ ¬ (24 | 2))
   ∨ ("hours" = "minutes" ∧ ¬ (60 | 2))
   ∨ ("hours" = "seconds" ∧ ¬ (60 | 2))).
Proof.
  split; [reflexivity |]. split; [reflexivity |]. split; [lia |].
  split; [reflexivity |]. split; [reflexivity |].
  apply (shown_unit_is_largest two_hours 7200 2 "hours");
    [reflexivity | reflexivity | lia | reflexivity | reflexivity].
Defined.

End SchedulerFormMore.

(** ** Request client: tokens *)
Module RequestTokensFacts.
Import Request RequestTokens.

Lemma formatToken_none (token : option string) :
  formatToken token = None ↔ truthy_opt token = false.
Proof.
  destruct token as [t|]; simpl; [| done].
  destruct (truthy t); split; congruence.
Qed.

(** X3.  A request carries an [Authorization] header exactly when a non-empty
    access token is stored, and then it is [Bearer] followed by that token;
    in particular the first request after [doReAuthenticate] carries
    none. *)
Theorem authorization_header (locale mode : string) (store : AccessStore)
    (headers : Headers) :
  (Authorization (requestInterceptor locale store headers) = None ↔
     truthy_opt (accessToken store) = false)
  ∧ (∀ t, accessToken store = Some t → t ≠ "" →
       Authorization (requestInterceptor locale store headers)
       = Some ("Bearer " +:+ t))
  ∧ Authorization
      (requestInterceptor locale (fst (doReAuthenticate mode store)) headers)
    = None.
Proof.
  split; [| split].
  - apply formatToken_none.
  - intros t Ht Hne. cbn [requestInterceptor Authorization]. rewrite Ht.
    cbn [formatToken]. unfold truthy. by rewrite bool_decide_eq_false_2.
  - cbn [requestInterceptor Authorization]. apply formatToken_none.
    unfold doReAuthenticate.
    destruct (negb _); [done |].
    by destruct (bool_decide _ && _).
Qed.

(** X4.  Without a stored refresh token [doRefreshToken] never calls the
    refresh endpoint: it re-authenticates, leaving the access token null,
    and throws. *)
Theorem doRefreshToken_missing (mode : string) (answer : option TokenData)
    (store : AccessStore) :
  truthy_opt (refreshToken store) = false →
  let '(store', effs, outcome) := doRefreshToken mode answer store in
  outcome = Threw "Refresh token is missing" ∧
  existsb is_refresh_call effs = false ∧
  accessToken store' = None ∧
  store' = fst (doReAuthenticate mode store) ∧
  (ReAuth Logout ∈ effs ↔
     truthy_opt (accessToken store) = true ∧
     (bool_decide (mode = "modal") && isAccessChecked store) = false).
Proof.
  intros Hr. unfold doRefreshToken. rewrite Hr. cbn [negb].
  split; [done |]. split.
  { cbn [existsb is_refresh_call orb].
    induction (snd (doReAuthenticate mode store)) as [|e l IH]; [done |].
    cbn. exact IH. }
  unfold doReAuthenticate. rewrite Hr, orb_false_r.
  cbn [isAccessChecked setAccessToken].
  destruct (truthy_opt (accessToken store)); cbn [negb].
  - destruct (bool_decide (mode = "modal") && isAccessChecked store); cbn.
    + split; [done |]. split; [done |]. split; [| intros [_ H]; discriminate H].
      intros H. apply elem_of_cons in H as [H | H]; [discriminate H |].
      apply list_elem_of_singleton in H. discriminate H.
    + split; [done |]. split; [done |]. split; [done |]. intros _.
      do 2 (apply elem_of_cons; right). constructor.
  - cbn. split; [done |]. split; [done |]. split; [| intros [H _]; discriminate H].
    intros H. apply elem_of_cons in H as [H | H]; [discriminate H |].
    apply list_elem_of_singleton in H. discriminate H.
Qed.

Lemma doRefreshToken_missing_witness :
  truthy_opt (refreshToken (mkStore (Some "stale") None true false)) = false ∧
  let '(store', effs, outcome) :=
    doRefreshToken "page" None (mkStore (Some "stale") None true false) in
  outcome = Threw "Refresh token is missing" ∧
  existsb is_refresh_call effs = false ∧
  accessToken store' = None ∧
  store' = fst (doReAuthenticate "page"
                  (mkStore (Some "stale") None true false)) ∧
  (ReAuth Logout ∈ effs ↔
     truthy_opt (accessToken (mkStore (Some "stale") None true false)) = true ∧
     (bool_decide ("page" = "modal")
      && isAccessChecked (mkStore (Some "stale") None true false)) = false).
Proof.
  split; [reflexivity |].
  exact (doRefreshToken_missing "page" None
           (mkStore (Some "stale") None true false) eq_refl).
Defined.

(** X5.  With a stored refresh token [doRefreshToken] calls the refresh
    endpoint once with that token.  When the call resolves, the token it
    returns is the one it stores; that token is non-empty only for an
    object answer with a non-empty [accessToken]; and the stored refresh
    token stays non-empty: it is replaced only by a non-empty new one.  When
    the call rejects the store is left as it was. *)
Theorem doRefreshToken_held (mode : string) (answer : option TokenData)
    (store : AccessStore) (r : string) :
  refreshToken store = Some r → r ≠ "" →
  let '(store', effs, outcome) := doRefreshToken mode answer store in
  effs = [RefreshTokenApi r] ∧
  truthy_opt (refreshToken store') = true ∧
  match answer with
  | None => outcome = Rejected ∧ store' = store
  | Some d =>
      ∃ t, outcome = Returned t ∧ accessToken store' = Some t ∧
           (t ≠ "" → ∃ r', d = DataObject (Some t) r') ∧
           (refreshToken store' = Some r ∨
            ∃ a, d = DataObject a (refreshToken store'))
  end.
Proof.
  intros Hr Hne. unfold doRefreshToken. rewrite Hr. cbn [truthy_opt default].
  assert (truthy r = true) as Htr.
  { unfold truthy. by rewrite bool_decide_eq_false_2. }
  rewrite Htr. cbn [negb].
  destruct answer as [d|]; [| by rewrite Hr].
  split; [done |].
  assert (∀ s, refreshToken (setAccessToken s store) = Some r) as Hkeep by done.
  split.
  - destruct d as [| s | a [r'|]]; cbn [refreshToken setAccessToken];
      rewrite ?Hr; cbn [truthy_opt]; try done.
    destruct (truthy r') eqn:Hr'; cbn [refreshToken setRefreshToken setAccessToken];
      rewrite ?Hr; done.
  - exists (newTokenOf d). split; [done |]. split.
    { destruct d as [| s | a [r'|]]; try done.
      by destruct (truthy r'). }
    split.
    { intros Ht. destruct d as [| s | [a|] r']; cbn in Ht; try done.
      destruct (truthy a) eqn:Ha; [| done]. exists r'. cbn. by rewrite Ha. }
    destruct d as [| s | a [r'|]]; cbn [refreshToken setAccessToken]; auto.
    destruct (truthy r'); cbn [refreshToken setRefreshToken setAccessToken]; eauto.
Qed.

Lemma doRefreshToken_held_witness :
  refreshToken (mkStore None (Some "r0") true false) = Some "r0" ∧ "r0" ≠ "" ∧
  let '(store', effs, outcome) :=
    doRefreshToken "page" (Some (DataObject (Some "a1") None))
      (mkStore None (Some "r0") true false) in
  effs = [RefreshTokenApi "r0"] ∧
  truthy_opt (refreshToken store') = true ∧
  ∃ t, outcome = Returned t ∧ accessToken store' = Some t ∧
       (t ≠ "" → ∃ r', DataObject (Some "a1") None = DataObject (Some t) r') ∧
       (refreshToken store' = Some "r0" ∨
        ∃ a, DataObject (Some "a1") None = DataObject a (refreshToken store')).
Proof.
  split; [reflexivity |]. split; [done |].
  exact (doRefreshToken_held "page" (Some (DataObject (Some "a1") None))
           (mkStore None (Some "r0") true false) "r0" eq_refl
           ltac:(discriminate)).
Defined.

Example refresh_bare_string_token :
  doRefreshToken "page" (Some (DataText "tok"))
    (mkStore (Some "old") (Some "r0") true false)
  = (mkStore (Some "") (Some "r0") true false,
     [RefreshTokenApi "r0"], Returned "").
Proof. reflexivity. Qed.

End RequestTokensFacts.

(** ** Menu tree editor: lookup, update, loading, display *)
Module MenuTreeOpsFacts.
Import MenuTree MenuTreeOps MenuTreeFacts.

Lemma head_filter_app {A : Type} (P : A → bool) (l1 l2 : list A) :
  head (List.filter P (l1 ++ l2))
  = match head (List.filter P l1) with
    | Some y => Some y
    | None => head (List.filter P l2)
    end.
Proof.
  induction l1 as [|a l1 IH]; simpl; [done |].
  destruct (P a); simpl; [done | exact IH].
Qed.

Lemma first_some_flat_map {A B : Type} (P : B → bool) (f : A → option B)
    (g : A → list B) (l : list A) :
  Forall (λ x, f x = head (List.filter P (g x))) l →
  first_some f l = head (List.filter P (flat_map g l)).
Proof.
  induction 1 as [|x l Hx _ IH]; simpl; [done |].
  rewrite head_filter_app, Hx.
  destruct (head (List.filter P (g x))); [done | exact IH].
Qed.

Lemma search_node_first (i : string) (anc : list string) (level : nat)
    (n : MenuTreeNode) :
  search_node i n
  = head (List.filter (has_id i) (map node_of (allRows_node anc level n))).
Proof.
  revert anc level.
  induction n as [j cc hc | j cc hc l IH] using MenuTreeNode_ind';
    intros anc level; cbn [search_node allRows_node map List.filter];
    unfold has_id at 1, node_of at 1; cbn [fst id].
  - destruct (decide (j = i)) as [-> | Hne].
    + by rewrite bool_decide_eq_true_2.
    + by rewrite bool_decide_eq_false_2.
  - destruct (decide (j = i)) as [-> | Hne].
    + by rewrite bool_decide_eq_true_2.
    + rewrite bool_decide_eq_false_2 by done.
      rewrite map_flat_map.
      rewrite <- (first_some_flat_map (has_id i) (search_node i)).
      * by destruct l.
      * eapply Forall_impl; [exact IH |]. intros c Hc. apply Hc.
Qed.

Lemma allNodes_flat_map (nodes : list MenuTreeNode) :
  allNodes nodes = flat_map (λ n, map node_of (allRows_node [] 0 n)) nodes.
Proof. unfold allNodes, allRows. by rewrite map_flat_map. Qed.

Lemma findMenuById_first (tree : list MenuTreeNode) (i : string) :
  findMenuById tree i = head (List.filter (has_id i) (allNodes tree)).
Proof.
  unfold findMenuById. rewrite allNodes_flat_map.
  apply first_some_flat_map, Forall_forall. intros n _.
  apply search_node_first.
Qed.

Lemma head_filter_none {A : Type} (P : A → bool) (l : list A) :
  head (List.filter P l) = None ↔ ∀ x, x ∈ l → P x = false.
Proof.
  induction l as [|a l IH]; simpl.
  - split; [intros _ x H; inversion H | done].
  - destruct (P a) eqn:Ha; simpl.
    + split; [done |]. intros H. specialize (H a). rewrite Ha in H.
      discriminate H. constructor.
    + rewrite IH. split.
      * intros H x Hx. apply elem_of_cons in Hx as [-> | Hx]; auto.
      * intros H x Hx. apply H. by constructor.
Qed.

Lemma head_filter_some {A : Type} (P : A → bool) (l : list A) (y : A) :
  head (List.filter P l) = Some y → P y = true ∧ y ∈ l.
Proof.
  induction l as [|a l IH]; simpl; [done |].
  destruct (P a) eqn:Ha; simpl.
  - intros H. injection H as <-. split; [done | constructor].
  - intros H. destruct (IH H). split; [done | by constructor].
Qed.

Lemma nodeIds_allNodes (nodes : list MenuTreeNode) :
  nodeIds nodes = map id (allNodes nodes).
Proof. unfold nodeIds, allNodes. by rewrite map_map. Qed.

(** X6.  [findMenuById] returns the first node, in preorder, that carries the
    id: a node of the tree with that id when there is one, and null exactly
    when no node of the tree has the id. *)
Theorem findMenuById_spec (tree : list MenuTreeNode) (i : string) :
  findMenuById tree i = head (List.filter (has_id i) (allNodes tree))
  ∧ (findMenuById tree i = None ↔ i ∉ nodeIds tree)
  ∧ (∀ n, findMenuById tree i = Some n → id n = i ∧ n ∈ allNodes tree).
Proof.
  split; [apply findMenuById_first |]. rewrite findMenuById_first. split.
  - rewrite head_filter_none, nodeIds_allNodes. split.
    + intros H Hin. apply elem_of_map_1 in Hin as (n & Hn & Hin).
      specialize (H n Hin). unfold has_id in H.
      by rewrite bool_decide_eq_true_2 in H.
    + intros H n Hn. unfold has_id. apply bool_decide_eq_false_2.
      intros Heq. apply H. rewrite <- Heq. by apply elem_of_map_2.
  - intros n Hn. apply head_filter_some in Hn as [Hid Hin].
    split; [| done]. unfold has_id in Hid. by apply bool_decide_eq_true_1 in Hid.
Qed.

Example find_nested_sample :
  id <$> findMenuById sample "user-detail" = Some "user-detail" ∧
  findMenuById sample "nowhere" = None.
Proof. split; reflexivity. Qed.

(** *** [updateNodeInTree] *)

Lemma update_first_found {A : Type} (f : A → bool * A) (l : list A) :
  fst (update_first f l) = existsb (λ x, fst (f x)) l.
Proof.
  induction l as [|x l IH]; simpl; [done |].
  destruct (fst (f x)); [done | exact IH].
Qed.

Lemma update_first_unchanged {A : Type} (f : A → bool * A) (l : list A) :
  Forall (λ x, fst (f x) = false → snd (f x) = x) l →
  fst (update_first f l) = false → snd (update_first f l) = l.
Proof.
  induction 1 as [|x l Hx _ IH]; simpl; [done |].
  destruct (fst (f x)) eqn:Hf; simpl; [discriminate |].
  intros H. by rewrite (Hx eq_refl), (IH H).
Qed.

Lemma existsb_flat_map {A B : Type} (P : B → bool) (g : A → list B)
    (l : list A) :
  existsb P (flat_map g l) = existsb (λ x, existsb P (g x)) l.
Proof.
  induction l as [|x l IH]; simpl; [done |].
  by rewrite existsb_app, IH.
Qed.

Lemma existsb_Forall_ext {A : Type} (f g : A → bool) (l : list A) :
  Forall (λ x, f x = g x) l → existsb f l = existsb g l.
Proof. induction 1 as [|x l Hx _ IH]; simpl; congruence. Qed.

Lemma updateNode_found (i : string) (upd : Menu) (anc : list string)
    (level : nat) (n : MenuTreeNode) :
  fst (updateNode i upd n)
  = existsb (has_id i) (map node_of (allRows_node anc level n)).
Proof.
  revert anc level.
  induction n as [j cc hc | j cc hc l IH] using MenuTreeNode_ind';
    intros anc level; cbn [updateNode allRows_node map existsb];
    unfold has_id at 1, node_of at 1; cbn [fst id].
  - destruct (decide (j = i)) as [-> | Hne].
    + by rewrite bool_decide_eq_true_2.
    + by rewrite bool_decide_eq_false_2.
  - destruct (decide (j = i)) as [-> | Hne].
    + by rewrite bool_decide_eq_true_2.
    + rewrite bool_decide_eq_false_2 by done. cbn [orb].
      rewrite map_flat_map, existsb_flat_map.
      rewrite <- (existsb_Forall_ext (λ c, fst (updateNode i upd c))).
      * destruct l as [|c cs]; [done |]. cbn [fst]. apply update_first_found.
      * eapply Forall_impl; [exact IH |]. intros c Hc. apply Hc.
Qed.

Lemma updateNode_unchanged (i : string) (upd : Menu) (n : MenuTreeNode) :
  fst (updateNode i upd n) = false → snd (updateNode i upd n) = n.
Proof.
  induction n as [j cc hc | j cc hc l IH] using MenuTreeNode_ind';
    cbn [updateNode].
  - by destruct (decide (j = i)).
  - destruct (decide (j = i)); [discriminate |].
    destruct l as [|c cs]; [done |]. cbn [fst snd]. intros H.
    by rewrite (update_first_unchanged _ _ IH H).
Qed.

(** X7.  [updateNodeInTree] reports success exactly when the id occurs in the
    tree; when it does not occur the tree is left as it was. *)
Theorem updateNodeInTree_found (nodes : list MenuTreeNode) (i : string)
    (upd : Menu) :
  (fst (updateNodeInTree nodes i upd) = true ↔ i ∈ nodeIds nodes)
  ∧ (i ∉ nodeIds nodes → snd (updateNodeInTree nodes i upd) = nodes).
Proof.
  assert (fst (updateNodeInTree nodes i upd) = true ↔ i ∈ nodeIds nodes) as Hiff.
  { unfold updateNodeInTree. rewrite update_first_found.
    rewrite (existsb_Forall_ext _
               (λ n, existsb (has_id i) (map node_of (allRows_node [] 0 n))))
      by (apply Forall_forall; intros n _; apply updateNode_found).
    rewrite <- existsb_flat_map, <- allNodes_flat_map, nodeIds_allNodes.
    rewrite existsb_exists. split.
    - intros (n & Hin & Hid). unfold has_id in Hid.
      apply bool_decide_eq_true_1 in Hid. rewrite <- Hid.
      by apply elem_of_map_2, list_elem_of_In.
    - intros Hin. apply elem_of_map_1 in Hin as (n & Hn & Hin).
      exists n. split; [by apply list_elem_of_In |].
      by apply bool_decide_eq_true_2. }
  split; [exact Hiff |]. intros Hno.
  apply update_first_unchanged.
  - apply Forall_forall. intros n _. apply updateNode_unchanged.
  - apply not_true_is_false. by rewrite Hiff.
Qed.

Lemma existsb_head_filter {A : Type} (P : A → bool) (l : list A) :
  existsb P l = match head (List.filter P l) with
                | Some _ => true
                | None => false
                end.
Proof.
  induction l as [|a l IH]; simpl; [done |].
  destruct (P a); simpl; [done | exact IH].
Qed.

Lemma updateNode_fst_search (i : string) (upd : Menu) (n : MenuTreeNode) :
  fst (updateNode i upd n) = match search_node i n with
                             | Some _ => true
                             | None => false
                             end.
Proof.
  rewrite (updateNode_found i upd [] 0), (search_node_first i [] 0).
  apply existsb_head_filter.
Qed.

Lemma first_some_update_first (i : string) (upd : Menu)
    (l : list MenuTreeNode) :
  Forall (λ n, search_node i (snd (updateNode i upd n))
               = refreshed upd <$> search_node i n) l →
  first_some (search_node i) (snd (update_first (updateNode i upd) l))
  = refreshed upd <$> first_some (search_node i) l.
Proof.
  induction 1 as [|x l Hx _ IH]; cbn [update_first first_some]; [done |].
  pose proof (updateNode_fst_search i upd x) as Hf.
  destruct (search_node i x) as [old|] eqn:Hs.
  - rewrite Hf. cbn [snd first_some]. by rewrite Hx.
  - rewrite Hf. cbn [snd first_some].
    rewrite (updateNode_unchanged i upd x) by (by rewrite Hf).
    by rewrite Hs.
Qed.

Lemma search_node_updateNode (i : string) (upd : Menu) (n : MenuTreeNode) :
  menu_id upd = i →
  search_node i (snd (updateNode i upd n)) = refreshed upd <$> search_node i n.
Proof.
  intros Hid.
  induction n as [j cc hc | j cc hc l IH] using MenuTreeNode_ind';
    cbn [updateNode search_node].
  - destruct (decide (j = i)) as [-> | Hne]; cbn [snd search_node].
    + rewrite Hid, decide_True by done. unfold refreshed. cbn. by rewrite Hid.
    + by rewrite decide_False.
  - destruct (decide (j = i)) as [-> | Hne]; cbn [snd search_node].
    + rewrite Hid, decide_True by done. unfold refreshed. cbn. by rewrite Hid.
    + destruct l as [|c cs]; cbn [snd search_node]; rewrite decide_False by done;
        [done |].
      rewrite <- (first_some_update_first i upd (c :: cs) IH).
      by destruct (snd (update_first (updateNode i upd) (c :: cs))).
Qed.

(** X8.  After [updateNodeInTree] with a record that carries the id looked for,
    [findMenuById] returns the refreshed node: the new record's fields with
    the children and [hasChild] flag the node had. *)
Theorem find_after_update (nodes : list MenuTreeNode) (i : string)
    (upd : Menu) :
  menu_id upd = i →
  findMenuById (snd (updateNodeInTree nodes i upd)) i
  = refreshed upd <$> findMenuById nodes i.
Proof.
  intros Hid. unfold findMenuById, updateNodeInTree.
  apply first_some_update_first, Forall_forall. intros n _.
  by apply search_node_updateNode.
Qed.

Lemma find_after_update_witness :
  menu_id (mkMenu "user" (Some 7%Z)) = "user" ∧
  findMenuById (snd (updateNodeInTree sample "user" (mkMenu "user" (Some 7%Z))))
               "user"
  = refreshed (mkMenu "user" (Some 7%Z)) <$> findMenuById sample "user".
Proof.
  split; [reflexivity |].
  exact (find_after_update sample "user" (mkMenu "user" (Some 7%Z)) eq_refl).
Defined.

(** *** Shapes *)

Lemma length_update_first {A : Type} (f : A → bool * A) (l : list A) :
  length (snd (update_first f l)) = length l.
Proof.
  induction l as [|x l IH]; simpl; [done |].
  destruct (fst (f x)); simpl; by rewrite ?IH.
Qed.

Lemma flat_map_update_first {A B : Type} (f : A → bool * A)
    (g : A → list B) (l : list A) :
  Forall (λ x, g (snd (f x)) = g x) l →
  flat_map g (snd (update_first f l)) = flat_map g l.
Proof.
  induction 1 as [|x l Hx _ IH]; simpl; [done |].
  destruct (fst (f x)); simpl; by rewrite Hx, ?IH.
Qed.

Lemma updateNode_shape (i : string) (upd : Menu) (anc : list string)
    (level : nat) (n : MenuTreeNode) :
  menu_id upd = i →
  map shape_of (allRows_node anc level (snd (updateNode i upd n)))
  = map shape_of (allRows_node anc level n).
Proof.
  intros Hid. revert anc level.
  induction n as [j cc hc | j cc hc l IH] using MenuTreeNode_ind';
    intros anc level; cbn [updateNode].
  - destruct (decide (j = i)) as [-> | Hne]; cbn [snd]; [| done].
    cbn. unfold shape_of, node_of. cbn. by rewrite Hid.
  - destruct (decide (j = i)) as [-> | Hne]; cbn [snd].
    + cbn [allRows_node map]. unfold shape_of at 1 3, node_of. cbn [fst snd id].
      by rewrite Hid.
    + destruct l as [|c cs]; [done |]. cbn [snd allRows_node map]. f_equal.
      rewrite !map_flat_map.
      apply (flat_map_update_first (updateNode i upd)
               (λ x, map shape_of (allRows_node (j :: anc) (S level) x))).
      eapply Forall_impl; [exact IH |]. intros x Hx. apply Hx.
Qed.

Lemma filter_map_comm {A B : Type} (f : A → B) (P : B → bool) (l : list A) :
  List.filter P (map f l) = map f (List.filter (λ x, P (f x)) l).
Proof.
  induction l as [|a l IH]; simpl; [done |].
  destruct (P (f a)); simpl; by rewrite IH.
Qed.

Lemma rowIds_shape (expanded : gset string) (nodes : list MenuTreeNode) :
  rowIds (renderTreeList expanded nodes 0)
  = map fst (List.filter (shape_visible expanded)
               (map shape_of (allRows [] 0 nodes))).
Proof.
  unfold rowIds, renderTreeList, allRows.
  rewrite (flat_map_Forall_ext _
             (λ n, map fst (List.filter (visible expanded)
                              (allRows_node [] 0 n))))
    by (apply Forall_forall; intros n _; by apply renderTreeList_node_rows).
  rewrite <- map_flat_map, <- filter_flat_map.
  rewrite filter_map_comm, !map_map. reflexivity.
Qed.

(** X9.  Refreshing a node with a record that carries its id changes nothing
    in what the tree displays: the rows keep their ids and levels, for
    every set of expanded nodes. *)
Theorem update_keeps_rows (expanded : gset string)
    (nodes : list MenuTreeNode) (i : string) (upd : Menu) :
  menu_id upd = i →
  rowIds (renderTreeList expanded (snd (updateNodeInTree nodes i upd)) 0)
  = rowIds (renderTreeList expanded nodes 0)
  ∧ nodeIds (snd (updateNodeInTree nodes i upd)) = nodeIds nodes.
Proof.
  intros Hid.
  assert (map shape_of (allRows [] 0 (snd (updateNodeInTree nodes i upd)))
          = map shape_of (allRows [] 0 nodes)) as Hshape.
  { unfold allRows, updateNodeInTree. rewrite !map_flat_map.
    apply (flat_map_update_first (updateNode i upd)
             (λ x, map shape_of (allRows_node [] 0 x))).
    apply Forall_forall. intros n _. by apply updateNode_shape. }
  split.
  - by rewrite !rowIds_shape, Hshape.
  - unfold nodeIds.
    change (λ row, id (fst (fst row)))
      with (λ row : MenuTreeNode * nat * list string, fst (fst (shape_of row))).
    by rewrite <- !(map_map shape_of (λ s, fst (fst s))), Hshape.
Qed.

Lemma update_keeps_rows_witness :
  menu_id (mkMenu "user" (Some 7%Z)) = "user" ∧
  rowIds (renderTreeList {[ "sys" ]}
            (snd (updateNodeInTree sample "user" (mkMenu "user" (Some 7%Z)))) 0)
  = rowIds (renderTreeList {[ "sys" ]} sample 0)
  ∧ nodeIds (snd (updateNodeInTree sample "user" (mkMenu "user" (Some 7%Z))))
    = nodeIds sample.
Proof.
  split; [reflexivity |].
  exact (update_keeps_rows {[ "sys" ]} sample "user"
           (mkMenu "user" (Some 7%Z)) eq_refl).
Defined.

(** *** [transformMenuTreeData] *)

Lemma flat_map_map {A B C : Type} (f : A → B) (g : B → list C)
    (l : list A) :
  flat_map g (map f l) = flat_map (λ x, g (f x)) l.
Proof. induction l as [|a l IH]; simpl; [done |]. by rewrite IH. Qed.

Lemma transform_shape (anc : list string) (level : nat) (n : MenuTreeNode) :
  map shape_of (allRows_node anc level (transformMenuTreeNode n))
  = map shape_of (allRows_node anc level n).
Proof.
  revert anc level.
  induction n as [j cc hc | j cc hc l IH] using MenuTreeNode_ind';
    intros anc level; [done |].
  destruct l as [|c cs]; [done |].
  cbn [transformMenuTreeNode allRows_node map]. f_equal.
  change (transformMenuTreeNode c :: map transformMenuTreeNode cs)
    with (map transformMenuTreeNode (c :: cs)).
  rewrite !map_flat_map, flat_map_map.
  apply flat_map_Forall_ext.
  eapply Forall_impl; [exact IH |]. intros x Hx. apply Hx.
Qed.

Lemma transform_flags (anc : list string) (level : nat) (n : MenuTreeNode) :
  Forall (λ m, hasChild m = hasChildren m)
         (map node_of (allRows_node anc level (transformMenuTreeNode n))).
Proof.
  revert anc level.
  induction n as [j cc hc | j cc hc l IH] using MenuTreeNode_ind';
    intros anc level.
  - by repeat constructor.
  - destruct l as [|c cs]; [by repeat constructor |].
    cbn [transformMenuTreeNode allRows_node map]. constructor; [done |].
    change (transformMenuTreeNode c :: map transformMenuTreeNode cs)
      with (map transformMenuTreeNode (c :: cs)).
    apply Forall_forall. intros m Hm.
    apply elem_of_map_1 in Hm as (row & <- & Hrow).
    apply elem_of_flat_map in Hrow as (x & Hx & Hrow).
    apply elem_of_map_1 in Hx as (y & <- & Hy).
    rewrite Forall_forall in IH. specialize (IH y Hy (j :: anc) (S level)).
    rewrite Forall_forall in IH. apply IH. by apply elem_of_map_2.
Qed.

Lemma transform_idem (n : MenuTreeNode) :
  transformMenuTreeNode (transformMenuTreeNode n) = transformMenuTreeNode n.
Proof.
  induction n as [j cc hc | j cc hc l IH] using MenuTreeNode_ind'; [done |].
  destruct l as [|c cs]; [done |].
  cbn [transformMenuTreeNode map]. f_equal. f_equal.
  apply Forall_cons in IH as [Hc Hcs]. rewrite Hc. f_equal.
  rewrite map_map. apply map_ext_Forall. exact Hcs.
Qed.

(** X10.  Loading a tree through [transformMenuTreeData] sets every node's
    [hasChild] flag to whether it has children, at every depth, and changes
    nothing in what the tree displays; transforming twice is the same as
    once. *)
Theorem transformMenuTreeData_spec (expanded : gset string)
    (menus : list MenuTreeNode) :
  flags_agree (transformMenuTreeData menus)
  ∧ rowIds (renderTreeList expanded (transformMenuTreeData menus) 0)
    = rowIds (renderTreeList expanded menus 0)
  ∧ transformMenuTreeData (transformMenuTreeData menus)
    = transformMenuTreeData menus.
Proof.
  split; [| split].
  - unfold flags_agree. rewrite allNodes_flat_map.
    apply Forall_forall. intros m Hm.
    apply elem_of_flat_map in Hm as (x & Hx & Hm).
    apply elem_of_map_1 in Hx as (y & <- & Hy).
    pose proof (transform_flags [] 0 y) as H. rewrite Forall_forall in H.
    by apply H.
  - rewrite !rowIds_shape. f_equal. f_equal.
    unfold allRows, transformMenuTreeData.
    rewrite !map_flat_map, flat_map_map.
    apply flat_map_Forall_ext, Forall_forall. intros n _.
    apply transform_shape.
  - unfold transformMenuTreeData. rewrite map_map.
    apply map_ext. intros n. apply transform_idem.
Qed.

(** *** What is displayed *)

Lemma renderTreeList_rows (expanded : gset string)
    (nodes : list MenuTreeNode) :
  renderTreeList expanded nodes 0
  = map fst (List.filter (visible expanded) (allRows [] 0 nodes)).
Proof.
  unfold renderTreeList, allRows. rewrite filter_flat_map, map_flat_map.
  apply flat_map_Forall_ext, Forall_forall. intros n _.
  by apply renderTreeList_node_rows.
Qed.

(** X11.  With no node expanded, which is the state the tree starts in, exactly
    the root nodes are displayed, at level 0. *)
Theorem collapsed_shows_roots (nodes : list MenuTreeNode) (level : nat) :
  renderTreeList ∅ nodes level = map (λ n, (n, level)) nodes.
Proof.
  induction nodes as [|n nodes IH]; [done |].
  rewrite renderTreeList_cons, IH.
  rewrite bool_decide_eq_false_2 by apply not_elem_of_empty. reflexivity.
Qed.

Lemma filter_all {A : Type} (P : A → bool) (l : list A) :
  (∀ x, x ∈ l → P x = true) → List.filter P l = l.
Proof.
  induction l as [|a l IH]; intros H; simpl; [done |].
  rewrite (H a) by constructor. f_equal. apply IH.
  intros x Hx. apply H. by constructor.
Qed.

Lemma foldl_expand_elem (expanded : gset string) (l : list string)
    (x : string) :
  x ∈ foldl (λ acc i, {[ i ]} ∪ acc) expanded l ↔ x ∈ expanded ∨ x ∈ l.
Proof.
  revert expanded. induction l as [|a l IH]; intros expanded; simpl.
  - split; [auto | intros [H | H]; [done | inversion H]].
  - rewrite IH, elem_of_union, elem_of_singleton, elem_of_cons. tauto.
Qed.

(** The ancestors of any row are ancestors given from outside or ids
    collected by [autoExpandSearchResults]. *)
Lemma allRows_node_anc (anc : list string) (level : nat) (n : MenuTreeNode)
    (row : MenuTreeNode * nat * list string) (a : string) :
  row ∈ allRows_node anc level n → a ∈ snd row →
  a ∈ anc ∨ a ∈ autoExpandSearchResults_node n.
Proof.
  revert anc level.
  induction n as [j cc hc | j cc hc l IH] using MenuTreeNode_ind';
    intros anc level; cbn [allRows_node autoExpandSearchResults_node].
  - intros H Ha. apply list_elem_of_singleton in H as ->. by left.
  - intros H Ha. apply elem_of_cons in H as [-> | H]; [by left |].
    apply elem_of_flat_map in H as (c & Hc & Hrow).
    rewrite Forall_forall in IH.
    destruct (IH c Hc _ _ Hrow Ha) as [Hin | Hin].
    + apply elem_of_cons in Hin as [-> | Hin]; [| by left].
      right. constructor.
    + right. apply elem_of_cons; right.
      destruct l as [|c0 cs]; [inversion Hc |].
      apply elem_of_flat_map. eauto.
Qed.

(** X12.  After [autoExpandSearchResults(nodes)] the list displayed for [nodes]
    is the whole forest: every node at every depth, in preorder. *)
Theorem autoExpand_shows_all (nodes : list MenuTreeNode)
    (expanded : gset string) :
  renderTreeList (autoExpandSearchResults nodes expanded) nodes 0
  = map fst (allRows [] 0 nodes).
Proof.
  rewrite renderTreeList_rows. f_equal. apply filter_all.
  intros row Hrow. unfold visible. apply forallb_forall. intros a Ha.
  apply bool_decide_eq_true_2. unfold autoExpandSearchResults.
  apply foldl_expand_elem. right.
  apply elem_of_flat_map in Hrow as (n & Hn & Hrow).
  apply list_elem_of_In in Ha.
  destruct (allRows_node_anc _ _ _ _ _ Hrow Ha) as [H | H]; [inversion H |].
  apply elem_of_flat_map. eauto.
Qed.

(** X13.  Once a search for a non-blank keyword has returned some results, the
    display is the complete result forest, every node expanded. *)
Theorem search_results_fully_shown (results : list MenuTreeNode)
    (st : State) :
  ¬ blank (searchKeyword st) → results ≠ [] →
  flattenedTree (onSearchSettled (Some results) st)
  = map fst (allRows [] 0 (transformMenuData results)).
Proof.
  intros Hkw Hres. unfold flattenedTree, filteredTreeData, onSearchSettled.
  cbn [searchKeyword searchResults treeData expandedMenuIds].
  destruct (nonEmpty (trim (searchKeyword st))) eqn:Ht;
    [| by apply nonEmpty_trim in Ht].
  assert ((0 <? length (transformMenuData results))%nat = true) as ->.
  { rewrite transformMenuData_length. destruct results; [done | reflexivity]. }
  cbn [andb]. apply autoExpand_shows_all.
Qed.

Lemma search_results_fully_shown_witness :
  ¬ blank (searchKeyword (mkState sample (codeUnits "us") [] true ∅)) ∧
  [branch "user" [leaf "user-detail"]] ≠ [] ∧
  flattenedTree
    (onSearchSettled (Some [branch "user" [leaf "user-detail"]])
       (mkState sample (codeUnits "us") [] true ∅))
  = map fst (allRows [] 0
               (transformMenuData [branch "user" [leaf "user-detail"]])).
Proof.
  assert (¬ blank (searchKeyword (mkState sample (codeUnits "us") [] true ∅)))
    as Hkw.
  { intros H. apply nonEmpty_trim in H. discriminate H. }
  split; [exact Hkw |]. split; [discriminate |].
  exact (search_results_fully_shown [branch "user" [leaf "user-detail"]]
           (mkState sample (codeUnits "us") [] true ∅) Hkw
           ltac:(discriminate)).
Defined.

Lemma sublist_filter_impl {A B : Type} (f : A → B) (P Q : A → bool)
    (l : list A) :
  (∀ x, P x = true → Q x = true) →
  sublist (map f (List.filter P l)) (map f (List.filter Q l)).
Proof.
  intros H. induction l as [|a l IH]; simpl; [constructor |].
  destruct (P a) eqn:HP.
  - rewrite (H a HP). simpl. by constructor.
  - destruct (Q a); simpl; [by constructor | exact IH].
Qed.

(** X14.  Expanding more nodes never hides a row: the rows displayed for a set
    of expanded nodes are, in order, among the rows displayed for any
    larger set, and there are never more rows than nodes. *)
Theorem expanding_only_adds_rows (e1 e2 : gset string)
    (nodes : list MenuTreeNode) :
  e1 ⊆ e2 →
  sublist (renderTreeList e1 nodes 0) (renderTreeList e2 nodes 0)
  ∧ (length (renderTreeList e2 nodes 0) ≤ length (allNodes nodes))%nat.
Proof.
  intros Hsub. rewrite !renderTreeList_rows. split.
  - apply sublist_filter_impl. intros row. unfold visible.
    rewrite !forallb_forall. intros H a Ha.
    apply bool_decide_eq_true_2, Hsub.
    specialize (H a Ha). by apply bool_decide_eq_true_1 in H.
  - unfold allNodes. rewrite !length_map. apply List.filter_length_le.
Qed.

Lemma expanding_only_adds_rows_witness :
  ({[ "sys" ]} : gset string) ⊆ {[ "sys"; "user" ]} ∧
  sublist (renderTreeList {[ "sys" ]} sample 0)
          (renderTreeList {[ "sys"; "user" ]} sample 0)
  ∧ (length (renderTreeList {[ "sys"; "user" ]} sample 0)
     ≤ length (allNodes sample))%nat.
Proof.
  assert (({[ "sys" ]} : gset string) ⊆ {[ "sys"; "user" ]}) as Hsub.
  { apply (bool_decide_unpack _). vm_compute. exact I. }
  split; [exact Hsub |].
  exact (expanding_only_adds_rows {[ "sys" ]} {[ "sys"; "user" ]} sample Hsub).
Defined.

End MenuTreeOpsFacts.

(** ** Role-permission panel: bulk selection, counters, permission groups *)
Module RolePermissionPanelFacts.
Import RolePermission RolePermissionPanel RolePermissionFacts.

Lemma collectMenus_node_heads (n : Node) :
  collectMenus_node n = map (hd "") (menuPaths_node [] n).
Proof.
  rewrite menuPaths_node_heads. reflexivity.
Qed.

Lemma collectMenus_menuIds (tree : list Node) :
  flat_map collectMenus_node tree = menuIds tree.
Proof.
  unfold menuIds, menuPaths. rewrite map_flat_map.
  apply flat_map_Forall_ext, Forall_forall. intros n _.
  apply collectMenus_node_heads.
Qed.

Lemma countMenus_node_length (n : Node) :
  countMenus_node n = length (menuPaths_node [] n).
Proof.
  induction n as [id | id l IH | id c] using Node_ind'; simpl; [done | | done].
  f_equal. induction IH as [|x l Hx _ IHl]; simpl; [done |].
  rewrite length_app, Hx, IHl.
  f_equal. rewrite (menuPaths_node_up [id] x). by rewrite length_map.
Qed.

Lemma totalMenuCount_length (tree : list Node) :
  totalMenuCount tree = length (menuIds tree).
Proof.
  unfold totalMenuCount, menuIds, menuPaths. rewrite length_map.
  induction tree as [|n tree IH]; simpl; [done |].
  by rewrite length_app, countMenus_node_length, IH.
Qed.

Lemma ancestor_is_menu (tree : list Node) (a m : string) :
  ancestor_of tree a m → a ∈ menuIds tree.
Proof.
  intros (up & Hp & Ha). apply list_elem_of_split in Ha as (l1 & l2 & ->).
  apply (menuPaths_suffix tree (m :: l1)) in Hp.
  by apply (elem_of_map_2 (hd "")) in Hp.
Qed.

(** X15.  After [selectAllMenus] every menu of the tree is selected, whatever was
    selected before stays selected, nothing else is added, and the
    selection is closed under ancestors, for every tree and every earlier
    selection. *)
Theorem selectAllMenus_spec (st : State) :
  (∀ x, x ∈ selectedMenuIds (selectAllMenus st) ↔
        x ∈ selectedMenuIds st ∨ x ∈ menuIds (treeData st))
  ∧ closed (treeData st) (selectedMenuIds (selectAllMenus st)).
Proof.
  assert (∀ x, x ∈ selectedMenuIds (selectAllMenus st) ↔
               x ∈ selectedMenuIds st ∨ x ∈ menuIds (treeData st)) as Hel.
  { intros x. unfold selectAllMenus. cbn [selectedMenuIds with_selectedMenuIds].
    by rewrite foldl_set_add, collectMenus_menuIds. }
  split; [exact Hel |]. intros x a _ Ha. apply Hel. right.
  by apply (ancestor_is_menu _ a x).
Qed.

Lemma foldl_set_add_list_to_set (sel : gset string) (l : list string) :
  foldl set_add sel l = sel ∪ list_to_set l.
Proof.
  apply set_eq. intros x.
  rewrite foldl_set_add, elem_of_union, elem_of_list_to_set. tauto.
Qed.

(** X16.  In a tree where each menu occurs once, selecting all menus on top of a
    selection of menus of the tree makes the counter in the header read
    [n/n]: the number of selected ids equals [totalMenuCount]. *)
Theorem selectAllMenus_counter (st : State) :
  well_formed (treeData st) →
  (∀ x, x ∈ selectedMenuIds st → x ∈ menuIds (treeData st)) →
  size (selectedMenuIds (selectAllMenus st)) = totalMenuCount (treeData st).
Proof.
  intros Hwf Hsub. unfold selectAllMenus.
  cbn [selectedMenuIds with_selectedMenuIds].
  rewrite collectMenus_menuIds, foldl_set_add_list_to_set, totalMenuCount_length.
  assert (selectedMenuIds st ∪ list_to_set (menuIds (treeData st))
          = (list_to_set (menuIds (treeData st)) : gset string)) as ->.
  { apply set_eq. intros x. rewrite elem_of_union, elem_of_list_to_set.
    split; [intros [H | H]; auto | auto]. }
  by apply size_list_to_set.
Qed.

Lemma selectAllMenus_counter_witness :
  well_formed (treeData (demo_state {[ "user" ]})) ∧
  (∀ x, x ∈ selectedMenuIds (demo_state {[ "user" ]}) →
        x ∈ menuIds (treeData (demo_state {[ "user" ]}))) ∧
  size (selectedMenuIds (selectAllMenus (demo_state {[ "user" ]})))
  = totalMenuCount (treeData (demo_state {[ "user" ]})).
Proof.
  assert (well_formed (treeData (demo_state {[ "user" ]}))) as Hwf.
  { apply (bool_decide_unpack _). vm_compute. exact I. }
  assert (∀ x, x ∈ selectedMenuIds (demo_state {[ "user" ]}) →
               x ∈ menuIds (treeData (demo_state {[ "user" ]}))) as Hsub.
  { intros x Hx. cbn in Hx. apply elem_of_singleton in Hx as ->.
    apply (bool_decide_unpack _). vm_compute. exact I. }
  split; [exact Hwf |]. split; [exact Hsub |].
  exact (selectAllMenus_counter (demo_state {[ "user" ]}) Hwf Hsub).
Defined.

(** *** [toggleMenu] away from the toggled menu *)

(** X17.  [toggleMenu m] changes the selection of no menu other than [m], the
    menus below [m] and the ids it collects as ancestors of [m]; it never
    touches the selected permissions or the expanded menus.  This holds for
    every tree. *)
Theorem toggleMenu_frame (st : State) (m x : string) :
  (x ≠ m → ¬ ancestor_of (treeData st) m x →
   x ∉ getAncestorMenuIds (treeData st) m →
   (x ∈ selectedMenuIds (toggleMenu m st) ↔ x ∈ selectedMenuIds st))
  ∧ selectedPermissions (toggleMenu m st) = selectedPermissions st
  ∧ expandedMenuIds (toggleMenu m st) = expandedMenuIds st.
Proof.
  split; [| done]. intros Hne Hdesc Hanc.
  cbn [toggleMenu selectedMenuIds]. unfold toggleMenuIds.
  rewrite <- getDescendantMenuIds_spec in Hdesc.
  destruct (decide (m ∈ selectedMenuIds st)) as [Hm | Hm].
  - rewrite foldl_prune_other by done. rewrite foldl_set_delete.
    unfold set_delete. rewrite elem_of_difference, not_elem_of_singleton. tauto.
  - rewrite !foldl_set_add. unfold set_add.
    rewrite elem_of_union, elem_of_singleton. tauto.
Qed.

Lemma absent_no_descendants (tree : list Node) (m : string) :
  m ∉ menuIds tree → getDescendantMenuIds tree m = [].
Proof.
  intros Hm. destruct (getDescendantMenuIds tree m) as [|d l] eqn:Hd; [done |].
  exfalso. apply Hm. apply (ancestor_is_menu tree m d).
  apply getDescendantMenuIds_spec. rewrite Hd. constructor.
Qed.

Lemma absent_no_ancestors (tree : list Node) (m : string) :
  m ∉ menuIds tree → getAncestorMenuIds tree m = [].
Proof.
  intros Hm. apply getAncestorMenuIds_absent. intros up Hup. apply Hm.
  by apply (elem_of_map_2 (hd "")) in Hup.
Qed.

(** X18.  For an id that is no menu of the tree, [toggleMenu] only flips that
    id: nothing cascades. *)
Theorem toggleMenu_absent (st : State) (m : string) :
  m ∉ menuIds (treeData st) →
  selectedMenuIds (toggleMenu m st)
  = if decide (m ∈ selectedMenuIds st)
    then selectedMenuIds st ∖ {[ m ]}
    else {[ m ]} ∪ selectedMenuIds st.
Proof.
  intros Hm. cbn [toggleMenu selectedMenuIds]. unfold toggleMenuIds.
  rewrite (absent_no_descendants _ _ Hm), (absent_no_ancestors _ _ Hm).
  by destruct (decide (m ∈ selectedMenuIds st)).
Qed.

Lemma toggleMenu_absent_witness :
  ("ghost" ∉ menuIds (treeData (demo_state {[ "sys" ]}))) ∧
  selectedMenuIds (toggleMenu "ghost" (demo_state {[ "sys" ]}))
  = if decide ("ghost" ∈ selectedMenuIds (demo_state {[ "sys" ]}))
    then selectedMenuIds (demo_state {[ "sys" ]}) ∖ {[ "ghost" ]}
    else {[ "ghost" ]} ∪ selectedMenuIds (demo_state {[ "sys" ]}).
Proof.
  assert ("ghost" ∉ menuIds (treeData (demo_state {[ "sys" ]}))) as Hm.
  { apply (bool_decide_unpack _). vm_compute. exact I. }
  split; [exact Hm |].
  exact (toggleMenu_absent (demo_state {[ "sys" ]}) "ghost" Hm).
Defined.

(** *** Permission groups *)

Lemma groupStep_lookup (g : gmap Z (list Permission)) (perm : Permission)
    (t : Z) :
  groupStep g perm !! t
  = (λ l, l ++ List.filter (λ q, (typeOf q =? t)%Z) [perm]) <$> g !! t.
Proof.
  unfold groupStep. cbn [List.filter]. fold (typeOf perm).
  destruct (g !! typeOf perm) as [l|] eqn:Hl.
  - destruct (decide (typeOf perm = t)) as [<- | Hne].
    + rewrite lookup_insert_eq, Hl, Z.eqb_refl. reflexivity.
    + rewrite lookup_insert_ne by done.
      apply Z.eqb_neq in Hne. rewrite Hne.
      destruct (g !! t); cbn; [by rewrite app_nil_r | done].
  - destruct (decide (typeOf perm = t)) as [<- | Hne].
    + by rewrite Hl.
    + apply Z.eqb_neq in Hne. rewrite Hne.
      destruct (g !! t); cbn; [by rewrite app_nil_r | done].
Qed.

Lemma foldl_groupStep_lookup (g : gmap Z (list Permission))
    (perms : list Permission) (t : Z) :
  foldl groupStep g perms !! t
  = (λ l, l ++ List.filter (λ q, (typeOf q =? t)%Z) perms) <$> g !! t.
Proof.
  revert g. induction perms as [|perm perms IH]; intros g; cbn [foldl].
  - destruct (g !! t); cbn; [by rewrite app_nil_r | done].
  - rewrite IH, groupStep_lookup. destruct (g !! t) as [l|]; cbn; [| done].
    destruct (typeOf perm =? t)%Z; cbn; by rewrite <- app_assoc.
Qed.

Lemma emptyGroups_lookup (t : Z) :
  emptyGroups !! t
  = if bool_decide (0 ≤ t ≤ 3)%Z then Some [] else None.
Proof.
  unfold emptyGroups.
  destruct (decide (t = 0%Z)) as [-> | H0]; [done |].
  destruct (decide (t = 1%Z)) as [-> | H1]; [done |].
  destruct (decide (t = 2%Z)) as [-> | H2]; [done |].
  destruct (decide (t = 3%Z)) as [-> | H3]; [done |].
  rewrite !lookup_insert_ne, lookup_empty by done.
  rewrite bool_decide_eq_false_2; [done | lia].
Qed.

Lemma cacheRead_own (cache : gmap string (list Permission)) (key : string)
    (perms : list Permission) :
  cache !! key = Some perms → cacheRead cache key = Own perms.
Proof. intros H. unfold cacheRead. by rewrite H. Qed.

Lemma cacheRead_none (cache : gmap string (list Permission)) (key : string) :
  cache !! key = None →
  cacheRead cache key = if inherited key then Inherited else Undefined.
Proof. intros H. unfold cacheRead. by rewrite H. Qed.

Lemma groups_lookup (perms : list Permission) (t : Z) :
  foldl groupStep emptyGroups perms !! t
  = if bool_decide (0 ≤ t ≤ 3)%Z
    then Some (List.filter (λ q, (typeOf q =? t)%Z) perms)
    else None.
Proof.
  rewrite foldl_groupStep_lookup, emptyGroups_lookup.
  by case_bool_decide.
Qed.

Lemma groups_no_other_type (perms : list Permission) (q : Permission)
    (t : Z) :
  ¬ (0 ≤ typeOf q ≤ 3)%Z →
  q ∉ groupOf (foldl groupStep emptyGroups perms) t.
Proof.
  intros Hty Hin. unfold groupOf in Hin. rewrite groups_lookup in Hin.
  case_bool_decide as Ht; cbn in Hin; [| inversion Hin].
  apply list_elem_of_In, filter_In in Hin as [_ Heq].
  apply Z.eqb_eq in Heq. lia.
Qed.

(** X19.  For the displayed menu, when the cache object holds its
    permission list, or holds nothing under an id that names no inherited
    property, the group of each type 0..3 holds exactly the cached
    permissions of that type, in their order, a permission without a type
    counting as type 3, and a permission of any other type is in no group.
    When the cache holds nothing under an id that names an inherited
    property of the object, the computed value throws. *)
Theorem currentMenuPermissions_groups (p : Panel) (m : string) (t : Z) :
  selectedMenuId (panel_state p) = Some m → m ≠ "" →
  let shows (perms : list Permission) :=
    ∃ grouped,
      currentMenuPermissions p = Some grouped
      ∧ ((0 ≤ t ≤ 3)%Z →
           grouped !! t = Some (List.filter (λ q, (typeOf q =? t)%Z) perms))
      ∧ (¬ (0 ≤ t ≤ 3)%Z → grouped !! t = None)
      ∧ (∀ q, q ∈ perms → ¬ (0 ≤ typeOf q ≤ 3)%Z →
           ∀ t', q ∉ permissionsOfType p t') in
  match menuPermissionsCache p !! m with
  | Some perms => shows perms
  | None =>
      if inherited m then currentMenuPermissions p = None else shows []
  end.
Proof.
  intros Hsel Hne.
  assert (∀ perms,
            currentMenuPermissions p
            = Some (foldl groupStep emptyGroups perms) →
            ∃ grouped,
              currentMenuPermissions p = Some grouped
              ∧ ((0 ≤ t ≤ 3)%Z →
                   grouped !! t
                   = Some (List.filter (λ q, (typeOf q =? t)%Z) perms))
              ∧ (¬ (0 ≤ t ≤ 3)%Z → grouped !! t = None)
              ∧ (∀ q, q ∈ perms → ¬ (0 ≤ typeOf q ≤ 3)%Z →
                   ∀ t', q ∉ permissionsOfType p t')) as Hshow.
  { intros perms Hcur. exists (foldl groupStep emptyGroups perms).
    split; [exact Hcur |]. split; [| split].
    - intros Ht. rewrite groups_lookup. by rewrite bool_decide_eq_true_2.
    - intros Ht. rewrite groups_lookup. by rewrite bool_decide_eq_false_2.
    - intros q _ Hty t'. unfold permissionsOfType. rewrite Hcur.
      by apply groups_no_other_type. }
  assert (currentMenuPermissions p
          = match cacheRead (menuPermissionsCache p) m with
            | Own perms => Some (foldl groupStep emptyGroups perms)
            | Undefined => Some (foldl groupStep emptyGroups [])
            | Inherited => None
            end) as Hcur.
  { unfold currentMenuPermissions. rewrite Hsel. unfold truthy.
    by rewrite bool_decide_eq_false_2. }
  cbn zeta. destruct (menuPermissionsCache p !! m) as [perms|] eqn:Hl.
  - apply Hshow. by rewrite Hcur, (cacheRead_own _ _ perms).
  - rewrite (cacheRead_none _ _ Hl) in Hcur.
    destruct (inherited m); [exact Hcur | by apply Hshow].
Qed.

Lemma currentMenuPermissions_groups_witness :
  ∃ grouped,
    currentMenuPermissions demo_panel = Some grouped
    ∧ ((0 ≤ 3 ≤ 3)%Z →
         grouped !! 3%Z
         = Some (List.filter (λ q, (typeOf q =? 3)%Z) demo_perms))
    ∧ (¬ (0 ≤ 3 ≤ 3)%Z → grouped !! 3%Z = None)
    ∧ (∀ q, q ∈ demo_perms → ¬ (0 ≤ typeOf q ≤ 3)%Z →
         ∀ t', q ∉ permissionsOfType demo_panel t').
Proof.
  exact (currentMenuPermissions_groups demo_panel "user" 3%Z eq_refl
           ltac:(discriminate)).
Defined.

Example demo_groups :
  map perm_id (permissionsOfType demo_panel 0) = ["user:add"] ∧
  map perm_id (permissionsOfType demo_panel 3) = ["user:misc"] ∧
  permissionsOfType demo_panel 9 = [].
Proof. repeat split; vm_compute; reflexivity. Qed.

(** Displaying a menu whose id names an inherited property makes the
    computed groups throw. *)
Example constructor_groups_throw :
  currentMenuPermissions
    (with_state demo_panel
       {| treeData := demo; selectedMenuIds := ∅; selectedPermissions := ∅;
          expandedMenuIds := ∅; selectedMenuId := Some "constructor" |})
  = None.
Proof. vm_compute. reflexivity. Qed.

Lemma select_keeps_groups (p : Panel) (sel : gset string) :
  currentMenuPermissions
    (with_state p (with_selectedPermissions (panel_state p) sel))
  = currentMenuPermissions p.
Proof. reflexivity. Qed.

Lemma no_menu_no_permissions (p : Panel) (t : Z) :
  truthy_opt (selectedMenuId (panel_state p)) = false →
  permissionsOfType p t = [].
Proof.
  intros Hs. unfold permissionsOfType, currentMenuPermissions.
  destruct (selectedMenuId (panel_state p)) as [m|]; cbn in Hs.
  - by rewrite Hs.
  - done.
Qed.

(** X20.  Selecting all permissions of a type adds exactly the ids of the
    displayed permissions of that type; unselecting them afterwards leaves
    the earlier selection without those ids.  With no menu displayed
    neither changes anything. *)
Theorem select_unselect_by_type (t : Z) (p : Panel) (x : string) :
  let ids := map perm_id (permissionsOfType p t) in
  (x ∈ selectedPermissions (panel_state (selectPermissionsByType t p)) ↔
     x ∈ selectedPermissions (panel_state p) ∨ x ∈ ids)
  ∧ (x ∈ selectedPermissions
           (panel_state
              (unselectPermissionsByType t (selectPermissionsByType t p))) ↔
     x ∈ selectedPermissions (panel_state p) ∧ x ∉ ids)
  ∧ (selectedMenuId (panel_state p) = None →
     selectPermissionsByType t p = p ∧ unselectPermissionsByType t p = p).
Proof.
  cbn zeta. split; [| split].
  - unfold selectPermissionsByType.
    destruct (truthy_opt (selectedMenuId (panel_state p))) eqn:Hs.
    + unfold permissionsOfType.
      destruct (currentMenuPermissions p) as [grouped|].
      * cbn [panel_state with_state selectedPermissions
             with_selectedPermissions].
        apply foldl_set_add.
      * split; [auto | intros [H | H]; [done | inversion H]].
    + rewrite (no_menu_no_permissions p t Hs).
      split; [auto | intros [H | H]; [done | inversion H]].
  - unfold unselectPermissionsByType, selectPermissionsByType.
    destruct (truthy_opt (selectedMenuId (panel_state p))) eqn:Hs.
    + unfold permissionsOfType.
      destruct (currentMenuPermissions p) as [grouped|] eqn:Hcur.
      * cbn [panel_state with_state selectedMenuId with_selectedPermissions].
        rewrite Hs, select_keeps_groups, Hcur.
        cbn [panel_state with_state selectedPermissions
             with_selectedPermissions].
        rewrite foldl_set_delete, foldl_set_add. tauto.
      * rewrite Hs, Hcur. split; [| tauto]. intros H.
        split; [done | intros Hin; inversion Hin].
    + rewrite Hs, (no_menu_no_permissions p t Hs). split; [| tauto].
      intros H. split; [done | intros Hin; inversion Hin].
  - intros Hnone. unfold selectPermissionsByType, unselectPermissionsByType.
    by rewrite Hnone.
Qed.

Example select_by_type_sample :
  selectedPermissions (panel_state (selectPermissionsByType 3 demo_panel))
  = {[ "user:misc" ]}.
Proof. vm_compute. reflexivity. Qed.

(** *** Loading a menu's permissions *)

Lemma truthy_nonempty (s : string) : s ≠ "" → truthy s = true.
Proof. intros H. unfold truthy. by rewrite bool_decide_eq_false_2. Qed.

(** X21.  Once a menu's permissions have been fetched, even when the answer had
    no permission list, [loadMenuPermissions] for that menu never calls the
    endpoint again and never changes the panel, whatever the user has
    toggled in between: the user's choices are not overwritten. *)
Theorem loadMenuPermissions_once (roleId menuId : string)
    (first : option (list Permission))
    (again : option (option (list Permission))) (p p' : Panel) :
  roleId ≠ "" →
  menuPermissionsCache p'
  = menuPermissionsCache
      (fst (loadMenuPermissions (Some roleId) menuId (Some first) p)) →
  loadMenuPermissions (Some roleId) menuId again p' = (p', []).
Proof.
  intros Hr Hcache. unfold loadMenuPermissions at 1. cbn [truthy_opt].
  rewrite (truthy_nonempty _ Hr). cbn [negb].
  assert (cacheRead (menuPermissionsCache p') menuId ≠ Undefined) as Hread.
  { rewrite Hcache. unfold loadMenuPermissions. cbn [truthy_opt].
    rewrite (truthy_nonempty _ Hr). cbn [negb].
    destruct (cacheRead (menuPermissionsCache p) menuId) eqn:Hl;
      cbn [fst]; [by rewrite Hl | by rewrite Hl |].
    destruct first as [perms|]; cbn [fst menuPermissionsCache];
      unfold cacheRead; by rewrite lookup_insert_eq. }
  by destruct (cacheRead (menuPermissionsCache p') menuId).
Qed.

Lemma loadMenuPermissions_once_witness :
  "role-1" ≠ "" ∧
  menuPermissionsCache
    (with_state
       (fst (loadMenuPermissions (Some "role-1") "role" (Some None) demo_panel))
       (togglePermission "user:add" (panel_state demo_panel)))
  = menuPermissionsCache
      (fst (loadMenuPermissions (Some "role-1") "role" (Some None) demo_panel)) ∧
  loadMenuPermissions (Some "role-1") "role" (Some (Some demo_perms))
    (with_state
       (fst (loadMenuPermissions (Some "role-1") "role" (Some None) demo_panel))
       (togglePermission "user:add" (panel_state demo_panel)))
  = (with_state
       (fst (loadMenuPermissions (Some "role-1") "role" (Some None) demo_panel))
       (togglePermission "user:add" (panel_state demo_panel)), []).
Proof.
  split; [discriminate |]. split; [reflexivity |].
  exact (loadMenuPermissions_once "role-1" "role" None (Some (Some demo_perms))
           demo_panel
           (with_state
              (fst (loadMenuPermissions (Some "role-1") "role" (Some None)
                      demo_panel))
              (togglePermission "user:add" (panel_state demo_panel)))
           ltac:(discriminate) eq_refl).
Defined.

Lemma elem_of_checkedIds (perms : list Permission) (x : string) :
  x ∈ checkedIds perms ↔
  ∃ q, q ∈ perms ∧ checked q = true ∧ perm_id q = x.
Proof.
  unfold checkedIds. split.
  - intros H. apply elem_of_map_1 in H as (q & Hq & Hin).
    apply list_elem_of_In, filter_In in Hin as [Hin Hc].
    exists q. split; [by apply list_elem_of_In | done].
  - intros (q & Hin & Hc & <-). apply elem_of_map_2.
    apply list_elem_of_In, filter_In. split; [by apply list_elem_of_In | done].
Qed.

(** X22.  [loadMenuPermissions] never unselects a permission and never
    touches the menu selection, whatever the endpoint answers.  A fulfilled
    load of a menu that the cache object holds nothing for, under an id that
    names no inherited property, caches the answer's list and adds exactly
    the ids of its permissions whose [checked] flag is set.  For a menu the
    cache holds, or whose id names an inherited property, nothing is
    requested and nothing changes. *)
Theorem loadMenuPermissions_adds (roleId : option string) (menuId : string)
    (answer : option (option (list Permission))) (p : Panel) :
  let p' := fst (loadMenuPermissions roleId menuId answer p) in
  (∀ x, x ∈ selectedPermissions (panel_state p) →
        x ∈ selectedPermissions (panel_state p'))
  ∧ selectedMenuIds (panel_state p') = selectedMenuIds (panel_state p)
  ∧ (∀ perms, truthy_opt roleId = true →
       menuPermissionsCache p !! menuId = None →
       inherited menuId = false →
       answer = Some (Some perms) →
       menuPermissionsCache p' !! menuId = Some perms ∧
       ∀ x, x ∈ selectedPermissions (panel_state p') ↔
            x ∈ selectedPermissions (panel_state p)
            ∨ ∃ q, q ∈ perms ∧ checked q = true ∧ perm_id q = x)
  ∧ (is_Some (menuPermissionsCache p !! menuId) ∨ inherited menuId = true →
     loadMenuPermissions roleId menuId answer p = (p, [])).
Proof.
  cbn zeta. unfold loadMenuPermissions.
  destruct (truthy_opt roleId) eqn:Hr; cbn [negb].
  2: { split; [done |]. split; [done |]. split; [| done].
       intros perms H. discriminate H. }
  unfold cacheRead.
  destruct (menuPermissionsCache p !! menuId) as [l|] eqn:Hl.
  { split; [done |]. split; [done |]. split; [| done].
    intros perms _ H. discriminate H. }
  destruct (inherited menuId) eqn:Hinh.
  { split; [done |]. split; [done |]. split; [| done].
    intros perms _ _ H. discriminate H. }
  assert (is_Some (@None (list Permission)) ∨ false = true →
          ∀ (r : Panel * list PanelEffect), r = (p, [])) as Hno.
  { intros [[l Hs] | Hf]; [discriminate Hs | discriminate Hf]. }
  destruct answer as [[perms|]|]; cbn [fst].
  - cbn [panel_state selectedPermissions selectedMenuIds
         with_selectedPermissions menuPermissionsCache].
    split; [| split; [done |]].
    + intros x Hx. apply foldl_set_add. by left.
    + split; [| intros H; by apply Hno].
      intros perms' _ _ _ Heq. injection Heq as <-.
      split; [apply lookup_insert_eq |]. intros x.
      rewrite foldl_set_add, elem_of_checkedIds. tauto.
  - split; [done |]. split; [done |].
    split; [| intros H; by apply Hno]. intros perms _ _ _ H. discriminate H.
  - split; [done |]. split; [done |].
    split; [| intros H; by apply Hno]. intros perms _ _ _ H. discriminate H.
Qed.

Example load_checked_sample :
  selectedPermissions
    (panel_state
       (fst (loadMenuPermissions (Some "role-1") "role"
               (Some (Some demo_perms)) demo_panel)))
  = {[ "user:add"; "user:misc"; "user:odd" ]}.
Proof. vm_compute. reflexivity. Qed.

(** A menu whose id names an inherited property is never fetched. *)
Example load_constructor_sample :
  loadMenuPermissions (Some "role-1") "constructor"
    (Some (Some demo_perms)) demo_panel
  = (demo_panel, []).
Proof. vm_compute. reflexivity. Qed.

(** *** Expanding menus and changing the role *)

Lemma expandAll_menuIds (tree : list Node) :
  flat_map expandAll_node tree = menuIds tree.
Proof. exact (collectMenus_menuIds tree). Qed.

(** X23.  Toggling the expansion of a menu twice restores the state, and
    [expandAllMenus] expands exactly the menus of the tree on top of those
    expanded before; neither touches the selections. *)
Theorem expand_round_trip (m : string) (st : State) :
  toggleMenuExpanded m (toggleMenuExpanded m st) = st
  ∧ (∀ x, x ∈ expandedMenuIds (expandAllMenus st) ↔
          x ∈ expandedMenuIds st ∨ x ∈ menuIds (treeData st))
  ∧ selectedMenuIds (expandAllMenus st) = selectedMenuIds st
  ∧ selectedMenuIds (toggleMenuExpanded m st) = selectedMenuIds st.
Proof.
  split; [| split; [| split]].
  - destruct st as [tree sel perms e cur]. unfold toggleMenuExpanded.
    cbn [expandedMenuIds with_expandedMenuIds].
    destruct (decide (m ∈ e)) as [Hin | Hout];
      unfold with_expandedMenuIds;
      cbn [expandedMenuIds treeData selectedMenuIds
           selectedPermissions selectedMenuId].
    + destruct (decide (m ∈ set_delete e m)) as [H | _].
      { unfold set_delete in H. apply elem_of_difference in H as [_ H].
        by rewrite elem_of_singleton in H. }
      f_equal. unfold set_add, set_delete. apply set_eq. intros x.
      rewrite elem_of_union, elem_of_difference, !elem_of_singleton.
      destruct (decide (x = m)) as [-> | Hne]; tauto.
    + destruct (decide (m ∈ set_add e m)) as [_ | H].
      2:{ exfalso. apply H. unfold set_add. apply elem_of_union. left.
          by apply elem_of_singleton. }
      f_equal. unfold set_add, set_delete. apply set_eq. intros x.
      rewrite elem_of_difference, elem_of_union, !elem_of_singleton.
      destruct (decide (x = m)) as [-> | Hne]; tauto.
  - intros x. unfold expandAllMenus.
    cbn [expandedMenuIds with_expandedMenuIds].
    by rewrite foldl_set_add, expandAll_menuIds.
  - reflexivity.
  - unfold toggleMenuExpanded. by destruct (decide (m ∈ expandedMenuIds st)).
Qed.

(** X24.  When the role changes and its menus load, the panel shows the
    new tree with exactly its menus expanded, the selection the answer
    gives, no permission selected and no menu displayed; the permission
    cache is empty, so the first [loadMenuPermissions] of a menu fetches
    it, except for a menu whose id names an inherited property of the
    cache object, which is not fetched. *)
Theorem onRoleChange_loaded (roleId : string) (data : RoleMenus)
    (p : Panel) (menuId : string)
    (answer : option (option (list Permission))) :
  roleId ≠ "" →
  let '(p', effs) := onRoleChange (Some roleId) (Some data) p in
  effs = [GetRoleMenusApi roleId]
  ∧ treeData (panel_state p') = default [] (menu_tree data)
  ∧ (∀ x, x ∈ selectedMenuIds (panel_state p') ↔
          x ∈ default [] (selected_menu_ids data))
  ∧ (∀ x, x ∈ expandedMenuIds (panel_state p') ↔
          x ∈ menuIds (treeData (panel_state p')))
  ∧ selectedPermissions (panel_state p') = ∅
  ∧ selectedMenuId (panel_state p') = None
  ∧ menuPermissionsCache p' = ∅
  ∧ (if inherited menuId
     then loadMenuPermissions (Some roleId) menuId answer p' = (p', [])
     else fetches roleId menuId
            (snd (loadMenuPermissions (Some roleId) menuId answer p'))).
Proof.
  intros Hne. unfold onRoleChange, loadMenuTree. cbn [truthy_opt].
  rewrite (truthy_nonempty _ Hne).
  cbn [negb default with_state panel_state menuPermissionsCache treeData
       selectedMenuIds selectedPermissions expandedMenuIds selectedMenuId].
  split; [done |]. split; [done |]. split.
  { intros x. cbn. rewrite foldl_set_add. rewrite elem_of_empty. tauto. }
  split.
  { intros x. unfold expandAllMenus.
    cbn [expandedMenuIds with_expandedMenuIds treeData].
    rewrite foldl_set_add, expandAll_menuIds, elem_of_empty. tauto. }
  split; [done |]. split; [done |]. split; [done |].
  unfold fetches, loadMenuPermissions. cbn [truthy_opt].
  rewrite (truthy_nonempty _ Hne).
  cbn [negb menuPermissionsCache]. unfold cacheRead. rewrite lookup_empty.
  destruct (inherited menuId); [done |].
  by destruct answer as [[perms|]|].
Qed.

Lemma onRoleChange_loaded_witness :
  let '(p', effs) :=
    onRoleChange (Some "r1")
      (Some {| menu_tree := Some demo; selected_menu_ids := None |})
      demo_panel in
  effs = [GetRoleMenusApi "r1"]
  ∧ treeData (panel_state p') = demo
  ∧ (∀ x, x ∈ selectedMenuIds (panel_state p') ↔ x ∈ @nil string)
  ∧ (∀ x, x ∈ expandedMenuIds (panel_state p') ↔
          x ∈ menuIds (treeData (panel_state p')))
  ∧ selectedPermissions (panel_state p') = ∅
  ∧ selectedMenuId (panel_state p') = None
  ∧ menuPermissionsCache p' = ∅
  ∧ fetches "r1" "user"
      (snd (loadMenuPermissions (Some "r1") "user" None p')).
Proof.
  apply (onRoleChange_loaded "r1"
           {| menu_tree := Some demo; selected_menu_ids := None |}
           demo_panel "user" None).
  discriminate.
Defined.

Example constructor_not_fetched_after_load :
  snd (loadMenuPermissions (Some "r1") "constructor" (Some (Some demo_perms))
         (fst (onRoleChange (Some "r1")
                 (Some {| menu_tree := Some demo;
                          selected_menu_ids := None |}) demo_panel))) = [].
Proof. vm_compute. reflexivity. Qed.

(** X25.  When the role changes and loading its menus fails, the panel keeps
    the previous role's tree, menu selection, permission selection and
    permission cache, with every menu collapsed and no menu displayed; a
    menu cached for the previous role is then not fetched again for the
    new one. *)
Theorem onRoleChange_failed (roleId : string) (p : Panel)
    (menuId : string) (answer : option (option (list Permission))) :
  roleId ≠ "" →
  let '(p', effs) := onRoleChange (Some roleId) None p in
  effs = [GetRoleMenusApi roleId; LoadMenuFailedMessage]
  ∧ treeData (panel_state p') = treeData (panel_state p)
  ∧ selectedMenuIds (panel_state p') = selectedMenuIds (panel_state p)
  ∧ selectedPermissions (panel_state p') = selectedPermissions (panel_state p)
  ∧ menuPermissionsCache p' = menuPermissionsCache p
  ∧ expandedMenuIds (panel_state p') = ∅
  ∧ selectedMenuId (panel_state p') = None
  ∧ (is_Some (menuPermissionsCache p !! menuId) →
     loadMenuPermissions (Some roleId) menuId answer p' = (p', [])).
Proof.
  intros Hne. unfold onRoleChange, loadMenuTree. cbn [truthy_opt].
  assert (truthy roleId = true) as Ht.
  { unfold truthy. by rewrite bool_decide_eq_false_2. }
  rewrite Ht.
  cbn [negb default with_state panel_state menuPermissionsCache treeData
       selectedMenuIds selectedPermissions expandedMenuIds selectedMenuId].
  repeat (split; [done |]).
  intros [l Hl]. unfold loadMenuPermissions. cbn [truthy_opt]. rewrite Ht.
  cbn [negb menuPermissionsCache with_state].
  by rewrite (cacheRead_own _ _ l Hl).
Qed.

Lemma onRoleChange_failed_witness :
  let '(p', effs) := onRoleChange (Some "r2") None demo_panel in
  effs = [GetRoleMenusApi "r2"; LoadMenuFailedMessage]
  ∧ treeData (panel_state p') = treeData (panel_state demo_panel)
  ∧ selectedMenuIds (panel_state p')
    = selectedMenuIds (panel_state demo_panel)
  ∧ selectedPermissions (panel_state p')
    = selectedPermissions (panel_state demo_panel)
  ∧ menuPermissionsCache p' = menuPermissionsCache demo_panel
  ∧ expandedMenuIds (panel_state p') = ∅
  ∧ selectedMenuId (panel_state p') = None
  ∧ (is_Some (menuPermissionsCache demo_panel !! "user") →
     loadMenuPermissions (Some "r2") "user" None p' = (p', [])).
Proof.
  apply (onRoleChange_failed "r2" demo_panel "user" None). discriminate.
Defined.

Example stale_cache_after_failed_load :
  snd (loadMenuPermissions (Some "r2") "user" (Some (Some []))
         (fst (onRoleChange (Some "r2") None demo_panel))) = [].
Proof. reflexivity. Qed.

End RolePermissionPanelFacts.

(** ** API: children of a menu *)
Module ApiMenuFacts.
Import Api ApiMenu.

(** X26.  [getMenuByParentApi] issues one GET whose path ends in a non-empty
    segment: the parent id when one is given, and [null] when the parent
    id is missing or empty, so the root is asked for under the name
    [null]. *)
Theorem getMenuByParentApi_segment (Params Body Resp : Type)
    (backend : HttpCall Params Body → Resp)
    (log : list (HttpCall Params Body)) (parentId : option string) :
  ∃ seg,
    seg ≠ "" ∧
    (truthy_opt parentId = false → seg = "null") ∧
    (∀ i, parentId = Some i → i ≠ "" → seg = i) ∧
    let call := {| method := GET;
                   url := "/api/core/menu/by/parent/" +:+ seg;
                   params := None; body := None |} in
    getMenuByParentApi Params Body Resp parentId backend log
    = (backend call, log ++ [call]).
Proof.
  destruct parentId as [i|]; cbn [truthy_opt].
  - destruct (truthy i) eqn:Hi.
    + exists i. unfold truthy in Hi.
      apply negb_true_iff, bool_decide_eq_false_1 in Hi.
      split; [done |]. split; [discriminate |]. split.
      * intros j Hj _. by injection Hj.
      * unfold getMenuByParentApi. cbn [truthy_opt]. unfold truthy.
        by rewrite bool_decide_eq_false_2.
    + exists "null". unfold truthy in Hi.
      apply negb_false_iff, bool_decide_eq_true_1 in Hi. subst i.
      split; [discriminate |]. split; [done |]. split; [| done].
      intros j Hj Hne. injection Hj as <-. done.
  - exists "null". split; [discriminate |]. split; [done |]. split; [| done].
    intros j Hj. discriminate Hj.
Qed.

Example root_children_url :
  snd (getMenuByParentApi unit unit nat None (λ _, 0) [])
  = [ {| method := GET; url := "/api/core/menu/by/parent/null";
         params := None; body := None |} ].
Proof. reflexivity. Qed.

End ApiMenuFacts.

(** ** Operation log *)
Module OperationLogFacts.
Import OperationLogPage.

Lemma or_string_empty (s : string) : or_string (Some s) "" = s.
Proof.
  unfold or_string, truthy. case_bool_decide as H; [by subst s | done].
Qed.

(** X27.  None of the fallbacks of the detail drawer is ever used for a log:
    the method shown is the log's own request method, whatever it is; the
    status tag is [success] for a successful operation and [danger] for a
    failed one, never [info]; and the status text is the translated label
    of that status. *)
Theorem drawer_display (t : string → string) (log : OperationLog) :
  methodDisplay (Some log) = request_method log
  ∧ statusType t (Some log) = (if status log then "success" else "danger")
  ∧ statusDisplay t (Some log)
    = t (if status log then "operationLog.statusSuccess"
         else "operationLog.statusFailed").
Proof.
  split; [| split].
  - unfold methodDisplay, getMethodOptions. cbn [find value].
    repeat (case_bool_decide as H;
            [ cbn [fmap option_fmap option_map label or_string];
              rewrite <- H; reflexivity | clear H ]).
    reflexivity.
  - unfold statusType, getStatusOptions. by destruct (status log).
  - unfold statusDisplay, getStatusOptions.
    destruct (status log); cbn [find value Bool.eqb fmap option_fmap
                                option_map label]; apply or_string_empty.
Qed.

(** X28.  [onBatchDelete] sends a delete request exactly when some rows are
    selected and the user confirms, and then one request with the selected
    rows' ids in order; the selection is emptied only when that request
    succeeded; with nothing selected it only warns. *)
Theorem onBatchDelete_spec (confirmed deleted : bool)
    (rows : list OperationLog) :
  let '(rows', effs) := onBatchDelete confirmed deleted rows in
  deleteCalls effs
  = (if confirmed && negb (bool_decide (rows = []))
     then [map id rows] else [])
  ∧ rows' = (if confirmed && deleted then [] else rows)
  ∧ (rows = [] →
     effs = [WarningMessage "operationLog.selectLogsToDelete"]).
Proof.
  unfold onBatchDelete. destruct rows as [|r rows]; cbn [length Nat.eqb].
  - cbn. rewrite andb_false_r. by destruct (confirmed && deleted).
  - rewrite bool_decide_eq_false_2 by done.
    destruct confirmed, deleted; cbn; (split; [done |]); split; done.
Qed.

End OperationLogFacts.

(** ** User form *)
Module UserFormFacts.
Import UserForm.

Lemma times_digit (n : nat) (s rest : list ascii) :
  matchPrefix (Times n Digit) s = Some rest ↔
  ∃ ds, s = ds ++ rest ∧ length ds = n ∧ forallb is_digit ds = true.
Proof.
  cbn [matchPrefix]. revert s. induction n as [|n IH]; intros s.
  - split.
    + intros H. injection H as <-. by exists [].
    + intros (ds & -> & Hlen & _). by destruct ds.
  - destruct s as [|x s].
    + split; [discriminate |]. intros (ds & Hs & Hlen & _).
      destruct ds; [discriminate Hlen | discriminate Hs].
    + fold (is_digit x). destruct (is_digit x) eqn:Hx.
      * rewrite IH. split.
        -- intros (ds & -> & Hlen & Hd). exists (x :: ds). cbn.
           rewrite Hx, Hd, Hlen. done.
        -- intros (ds & Hs & Hlen & Hd). destruct ds as [|y ds];
             [discriminate Hlen |].
           injection Hs as <- ->. cbn in Hd.
           apply andb_true_iff in Hd as [_ Hd].
           exists ds. split; [done |]. split; [by injection Hlen | done].
      * split; [discriminate |]. intros (ds & Hs & Hlen & Hd).
        destruct ds as [|y ds]; [discriminate Hlen |].
        injection Hs as <- ->. cbn in Hd. rewrite Hx in Hd. discriminate Hd.
Qed.

Lemma matchPrefix_mobile (s : list ascii) :
  matchPrefix mobilePattern s
  = match s with
    | x :: c :: l =>
        if bool_decide (x = "1"%char)
        then if in_range "3" "9" c then matchPrefix (Times 9 Digit) l
             else None
        else None
    | _ => None
    end.
Proof.
  destruct s as [|x [|c l]]; [reflexivity | |].
  - change (matchPrefix mobilePattern [x])
      with (match (if bool_decide (x = "1"%char) then Some [] else None)
            with
            | Some s' => matchPrefix (Seq (Range "3" "9") (Times 9 Digit)) s'
            | None => None
            end).
    by destruct (bool_decide (x = "1"%char)).
  - change (matchPrefix mobilePattern (x :: c :: l))
      with (match (if bool_decide (x = "1"%char) then Some (c :: l) else None)
            with
            | Some s' => matchPrefix (Seq (Range "3" "9") (Times 9 Digit)) s'
            | None => None
            end).
    destruct (bool_decide (x = "1"%char)); [| reflexivity].
    change (matchPrefix (Seq (Range "3" "9") (Times 9 Digit)) (c :: l))
      with (match (if in_range "3" "9" c then Some l else None) with
            | Some s' => matchPrefix (Times 9 Digit) s'
            | None => None
            end).
    by destruct (in_range "3" "9" c).
Qed.

Lemma string_length_list (s : string) :
  String.length s = length (String.list_ascii_of_string s).
Proof. induction s as [|c s IH]; simpl; [done |]. by rewrite IH. Qed.

Lemma list_ascii_nil (s : string) :
  String.list_ascii_of_string s = [] ↔ s = "".
Proof. destruct s; simpl; split; congruence. Qed.

(** X29.  The mobile field accepts, besides an absent value and the empty
    string, exactly the strings of eleven decimal digits that start with 1
    and whose second digit is 3 to 9; so every accepted value has length 0
    or 11 and consists of decimal digits only. *)
Theorem mobileRule_accepts (s : string) :
  (mobileRule (Some s) = true ↔
     s = "" ∨
     ∃ c rest, String.list_ascii_of_string s = "1"%char :: c :: rest ∧
               in_range "3" "9" c = true ∧
               length rest = 9%nat ∧ forallb is_digit rest = true)
  ∧ (mobileRule (Some s) = true →
     (String.length s = 0%nat ∨ String.length s = 11%nat) ∧
     forallb is_digit (String.list_ascii_of_string s) = true)
  ∧ mobileRule None = true.
Proof.
  assert (mobileRule (Some s) = true ↔
     s = "" ∨
     ∃ c rest, String.list_ascii_of_string s = "1"%char :: c :: rest ∧
               in_range "3" "9" c = true ∧
               length rest = 9%nat ∧ forallb is_digit rest = true) as Hiff.
  { unfold mobileRule. rewrite orb_true_iff, bool_decide_eq_true.
    unfold test. rewrite matchPrefix_mobile.
    split.
    - intros [H | H]; [| by left]. right.
      destruct (String.list_ascii_of_string s) as [|x [|c l]] eqn:Hs;
        try discriminate H.
      case_bool_decide as Hx; [| discriminate H]. subst x.
      destruct (in_range "3" "9" c) eqn:Hc; [| discriminate H].
      destruct (matchPrefix (Times 9 Digit) l) as [[|y r]|] eqn:Hm;
        try discriminate H.
      apply times_digit in Hm as (ds & -> & Hlen & Hd).
      rewrite app_nil_r. by exists c, ds.
    - intros [H | (c & rest & Hs & Hc & Hlen & Hd)]; [by right |]. left.
      rewrite Hs. rewrite bool_decide_eq_true_2 by done.
      rewrite Hc.
      assert (matchPrefix (Times 9 Digit) rest = Some []) as ->; [| done].
      apply times_digit. exists rest. by rewrite app_nil_r. }
  split; [exact Hiff |]. split; [| done].
  intros H. apply Hiff in H as [-> | (c & rest & Hs & Hc & Hlen & Hd)].
  - split; [by left | done].
  - rewrite string_length_list, Hs. split; [right; cbn; by rewrite Hlen |].
    cbn [forallb]. rewrite Hd, andb_true_r.
    apply andb_true_iff. split; [reflexivity |].
    unfold is_digit, in_range in *. apply andb_true_iff in Hc as [H1 H2].
    apply Nat.leb_le in H1, H2. apply andb_true_iff.
    clear Hiff Hd. revert H1 H2. generalize (nat_of_ascii c) as n.
    change (nat_of_ascii "3") with 51%nat.
    change (nat_of_ascii "9") with 57%nat.
    change (nat_of_ascii "0") with 48%nat.
    intros n H1 H2. split; apply Nat.leb_le; lia.
Qed.

Example mobile_ok : mobileRule (Some "13800138000") = true.
Proof. reflexivity. Qed.

Example mobile_bad_prefix : mobileRule (Some "12800138000") = false.
Proof. reflexivity. Qed.

Example mobile_too_long : mobileRule (Some "138001380001") = false.
Proof. reflexivity. Qed.

End UserFormFacts.
